(** * libkbfs: the block retrieval queue and the quota-usage cache

    A shallow embedding of [libkbfs/block_retrieval_queue.go] and
    [libkbfs/quota_usage.go].

    Go pointers are modelled by an explicit object memory: a
    [*blockRetrieval] is an address into [retrievals], a [chan error] an
    address into [errChans], a [chan *blockRetrieval] an address into
    [workChans].  The registry [ptrs], the heap slice and the workers all
    hold addresses of the same objects, so a mutation made through one of
    them is seen through the others, as in the Go program.

    Every access to [ptrs], [heap] and [insertionCount] happens with
    [brq.mtx] held; a critical section is therefore one atomic transition
    of the model, and the interleavings of the goroutines are the
    sequences of these transitions (relation [step] below).  Shutdown
    takes no lock: its [select] and its [close] are two transitions. *)

From Stdlib Require Import ZArith Lia Bool.
From Equations Require Import Equations.
From stdpp Require Import base option list gmap.

Local Open Scope Z_scope.

(** ** Opaque collaborators *)

(** [BlockPointer]: a comparable, hashable key.  [KeyMetadata], the caller
    contexts and the contents of a block are opaque to the queue. *)
Abbreviation BlockPointer := nat (only parsing).
Abbreviation KeyMetadata := nat (only parsing).
Abbreviation Context := nat (only parsing).
Abbreviation BlockData := nat (only parsing).

(** Addresses. *)
Abbreviation loc := nat (only parsing).     (* *blockRetrieval *)
Abbreviation chan := nat (only parsing).    (* a channel *)
Abbreviation addr := nat (only parsing).    (* a caller's target Block *)

(** Go's [error] values that occur here; [nil_error] is [nil]. *)
Inductive error : Type :=
  | nil_error
  | io_EOF
  | context_Canceled
  | fetch_error (code : nat).

Global Instance error_eq_dec : EqDecision error.
Proof. solve_decision. Defined.

(** Observable effects, in program order. *)
Inductive event : Type :=
  | EvSet (target : addr) (b : BlockData)     (* req.block.Set(block) *)
  | EvSend (ch : chan) (e : error)            (* req.doneCh <- err *)
  | EvClose.                                  (* close(brq.doneCh) *)

Global Instance event_eq_dec : EqDecision event.
Proof. solve_decision. Defined.

(** ** Data model *)

(** blockRetrievalRequest: one consumer's request for a block. *)
Record blockRetrievalRequest : Type := mkRequest {
  block : addr;
  doneCh : chan
}.

(** Modelled from the spec: [CoalescingContext] (coalescing_context.go is
    not part of the sources at hand).  "A cancellation-context capability
    offering: derive-new-merged-context(firstContext); add-context(context)
    -> fails with an already-fully-canceled signal if the aggregate is
    already done; cancel() releasing resources."  Whether the aggregate is
    already done when [AddContext] runs depends on the callers' contexts,
    which live outside the queue: it is an input of [Request] below. *)
Record CoalescingContext : Type := mkCtx {
  merged : list Context;
  released : bool
}.

Definition NewCoalescingContext (c : Context) : CoalescingContext :=
  {| merged := [c]; released := false |}.

Definition AddContext (cc : CoalescingContext) (c : Context) : CoalescingContext :=
  {| merged := merged cc ++ [c]; released := released cc |}.

Definition cancelFunc (cc : CoalescingContext) : CoalescingContext :=
  {| merged := merged cc; released := true |}.

(** blockRetrieval: the metadata of a block retrieval.  [index] and
    [priority] are Go [int]s (only compared, never computed with);
    [insertionOrder] is a [uint64]. *)
Record blockRetrieval : Type := mkRetrieval {
  blockPtr : BlockPointer;
  kmd : KeyMetadata;
  ctx : CoalescingContext;
  requests : list blockRetrievalRequest;
  index : Z;
  priority : Z;
  insertionOrder : Z
}.

Definition uint64_modulus : Z := 2 ^ 64.

(** blockRetrievalQueue, together with the memory its pointers refer to.
    The first six fields are the struct's ([numWorkers] is the capacity of
    the [workerQueue] channel, [brq_doneCh] tells whether [doneCh] has
    been closed); [retrievals], [errChans], [workChans] and [targets] are
    the objects, completion channels, worker channels and caller blocks
    in memory (a channel is the list of the values in its buffer);
    [attempts] counts the goroutines started by [notifyWorker] that have
    not yet taken a branch of their [select]. *)
Record State : Type := mkState {
  ptrs : gmap BlockPointer loc;
  insertionCount : Z;
  heap : list loc;
  workerQueue : list chan;
  numWorkers : nat;
  brq_doneCh : bool;
  retrievals : list blockRetrieval;
  errChans : list (list error);
  workChans : list (list (option loc));
  targets : gmap addr BlockData;
  attempts : nat
}.

(** newBlockRetrievalQueue, in a memory holding the callers' blocks. *)
Definition newBlockRetrievalQueue (n : nat) (tg : gmap nat nat) : State :=
  {| ptrs := ∅; insertionCount := 0; heap := []; workerQueue := [];
     numWorkers := n; brq_doneCh := false; retrievals := [];
     errChans := []; workChans := []; targets := tg; attempts := 0 |}.

(** Field updates. *)
Definition set_ptrs (f : gmap nat nat → gmap nat nat) (s : State) : State :=
  mkState (f (ptrs s)) (insertionCount s) (heap s) (workerQueue s) (numWorkers s)
    (brq_doneCh s) (retrievals s) (errChans s) (workChans s) (targets s) (attempts s).
Definition set_insertionCount (c : Z) (s : State) : State :=
  mkState (ptrs s) c (heap s) (workerQueue s) (numWorkers s)
    (brq_doneCh s) (retrievals s) (errChans s) (workChans s) (targets s) (attempts s).
Definition set_heap (mh : list blockRetrieval * list nat) (s : State) : State :=
  mkState (ptrs s) (insertionCount s) mh.2 (workerQueue s) (numWorkers s)
    (brq_doneCh s) mh.1 (errChans s) (workChans s) (targets s) (attempts s).
Definition set_workerQueue (w : list nat) (s : State) : State :=
  mkState (ptrs s) (insertionCount s) (heap s) w (numWorkers s)
    (brq_doneCh s) (retrievals s) (errChans s) (workChans s) (targets s) (attempts s).
Definition set_doneCh (b : bool) (s : State) : State :=
  mkState (ptrs s) (insertionCount s) (heap s) (workerQueue s) (numWorkers s)
    b (retrievals s) (errChans s) (workChans s) (targets s) (attempts s).
Definition set_retrievals (m : list blockRetrieval) (s : State) : State :=
  mkState (ptrs s) (insertionCount s) (heap s) (workerQueue s) (numWorkers s)
    (brq_doneCh s) m (errChans s) (workChans s) (targets s) (attempts s).
Definition set_errChans (c : list (list error)) (s : State) : State :=
  mkState (ptrs s) (insertionCount s) (heap s) (workerQueue s) (numWorkers s)
    (brq_doneCh s) (retrievals s) c (workChans s) (targets s) (attempts s).
Definition set_workChans (c : list (list (option nat))) (s : State) : State :=
  mkState (ptrs s) (insertionCount s) (heap s) (workerQueue s) (numWorkers s)
    (brq_doneCh s) (retrievals s) (errChans s) c (targets s) (attempts s).
Definition set_targets (t : gmap nat nat) (s : State) : State :=
  mkState (ptrs s) (insertionCount s) (heap s) (workerQueue s) (numWorkers s)
    (brq_doneCh s) (retrievals s) (errChans s) (workChans s) t (attempts s).
Definition set_attempts (n : nat) (s : State) : State :=
  mkState (ptrs s) (insertionCount s) (heap s) (workerQueue s) (numWorkers s)
    (brq_doneCh s) (retrievals s) (errChans s) (workChans s) (targets s) n.

(** Writes to the fields of an object in memory. *)
Definition set_index (i : Z) (r : blockRetrieval) : blockRetrieval :=
  mkRetrieval (blockPtr r) (kmd r) (ctx r) (requests r) i (priority r) (insertionOrder r).
Definition set_priority (p : Z) (r : blockRetrieval) : blockRetrieval :=
  mkRetrieval (blockPtr r) (kmd r) (ctx r) (requests r) (index r) p (insertionOrder r).
Definition set_requests (q : list blockRetrievalRequest) (r : blockRetrieval) : blockRetrieval :=
  mkRetrieval (blockPtr r) (kmd r) (ctx r) q (index r) (priority r) (insertionOrder r).
Definition set_ctx (c : CoalescingContext) (r : blockRetrieval) : blockRetrieval :=
  mkRetrieval (blockPtr r) (kmd r) c (requests r) (index r) (priority r) (insertionOrder r).

(** ** Go's container/heap *)

Definition parent (j : nat) : nat := ((j - 1) / 2)%nat.
Arguments parent : simpl never.

Module container_heap.

(** heap.Interface (with sort.Interface).  [H] is the memory the receiver
    reaches, [X] the type of the elements. *)
Class Interface (H X : Type) : Type := {
  Len : H → nat;
  Less : H → nat → nat → bool;
  Swap : H → nat → nat → H;
  IPush : H → X → H;
  IPop : H → option (H * X)
}.

Section algorithms.
Context {H X : Type} `{Interface H X}.

(** func up(h Interface, j int): [(j - 1) / 2] is [0] at [j = 0] both
    in Go (division truncates) and on [nat]. *)
Equations? up (h : H) (j : nat) : H by wf j lt :=
  up h j with decide (parent j = j) := {
    | left _ => h
    | right _ =>
        if Less h j (parent j)
        then up (Swap h (parent j) j) (parent j)
        else h }.
Proof.
  unfold parent in *.
  assert ((j - 1) / 2 <= j - 1)%nat by (apply Nat.Div0.div_le_upper_bound; lia).
  lia.
Qed.

(** The loop of func down(h Interface, i0, n int); the result carries
    the final value of [i]. *)
Equations? down_loop (h : H) (i n : nat) : H * nat by wf (n - i)%nat lt :=
  down_loop h i n with decide (2 * i + 1 < n)%nat := {
    | right _ => (h, i)
    | left _ =>
        let j := if bool_decide (2 * i + 2 < n)%nat && Less h (2 * i + 2) (2 * i + 1)
                 then (2 * i + 2)%nat else (2 * i + 1)%nat in
        if Less h j i then down_loop (Swap h i j) j n else (h, i) }.
Proof. destruct (_ && _); lia. Qed.

(** The child that the loop of [down] compares with [i]. *)
Definition child_of (h : H) (i n : nat) : nat :=
  if bool_decide (2 * i + 2 < n)%nat && Less h (2 * i + 2) (2 * i + 1)
  then (2 * i + 2)%nat else (2 * i + 1)%nat.

Definition down (h : H) (i0 n : nat) : H * bool :=
  let r := down_loop h i0 n in (r.1, bool_decide (i0 < r.2)%nat).

(** func Push(h Interface, x any) *)
Definition Push (h : H) (x : X) : H :=
  let h1 := IPush h x in
  up h1 (Len h1 - 1).

(** func Pop(h Interface) any *)
Definition Pop (h : H) : option (H * X) :=
  let n := (Len h - 1)%nat in
  let h1 := Swap h 0 n in
  let h2 := (down h1 0 n).1 in
  IPop h2.

(** func Fix(h Interface, i int) *)
Definition Fix (h : H) (i : nat) : H :=
  let r := down h i (Len h) in
  if negb r.2 then up r.1 i else r.1.
End algorithms.

(** The heap order, for an implementation whose [Less] compares the keys
    [key h i] by a strict order [lt]. *)
Section order.
Context {H K : Type}.
Variable key : H → nat → K.
Variable lt : K → K → bool.

Definition le (a b : K) : Prop := lt b a = false.

(** No element among the first [n] comes before its parent. *)
Definition ordered (h : H) (n : nat) : Prop :=
  ∀ k, (0 < k < n)%nat → le (key h (parent k)) (key h k).

(** Ordered, except that [j] may come before its parent. *)
Definition ordered_but_up (h : H) (n j : nat) : Prop :=
  (∀ k, (0 < k < n)%nat → k ≠ j → le (key h (parent k)) (key h k)) ∧
  (∀ k, (0 < k < n)%nat → (0 < j)%nat → parent k = j →
     le (key h (parent j)) (key h k)).

(** Ordered, except that a child of [i] may come before [i]. *)
Definition ordered_but_down (h : H) (n i : nat) : Prop :=
  (∀ k, (0 < k < n)%nat → parent k ≠ i → le (key h (parent k)) (key h k)) ∧
  (∀ k, (0 < k < n)%nat → (0 < i)%nat → parent k = i →
     le (key h (parent i)) (key h k)).
End order.

End container_heap.

(** ** blockRetrievalHeap *)

(** Modelled from the spec: [blockRetrievalHeap], the slice of
    [*blockRetrieval] that implements heap.Interface
    (block_retrieval_heap.go is not part of the sources at hand).
    "Total order: priority descending (ties broken by insertion order
    ascending)"; "maintaining each element's current index so fix can
    locate it directly"; "a retrieval handed to a worker is removed from
    the heap (index reset to sentinel)".  The receiver reaches the slice
    and, through its pointers, the retrievals in memory.  An index out of
    range panics in Go; container/heap never passes one and the total
    functions below leave the memory as it is. *)
Abbreviation brh := (list blockRetrieval * list loc)%type (only parsing).

Definition retrieval_less (a b : blockRetrieval) : bool :=
  if priority a >? priority b then true
  else if priority a <? priority b then false
  else insertionOrder a <? insertionOrder b.

Definition brh_at (h : brh) (i : nat) : option blockRetrieval :=
  h.2 !! i ≫= λ l, h.1 !! l.

Definition brh_Len (h : brh) : nat := length h.2.

Definition brh_Less (h : brh) (i j : nat) : bool :=
  match brh_at h i, brh_at h j with
  | Some a, Some b => retrieval_less a b
  | _, _ => false
  end.

(** [brh[i], brh[j] = brh[j], brh[i]; brh[i].index = i; brh[j].index = j] *)
Definition brh_Swap (h : brh) (i j : nat) : brh :=
  match h.2 !! i, h.2 !! j with
  | Some a, Some b =>
      let sl := <[j := a]> (<[i := b]> h.2) in
      let m1 := alter (set_index (Z.of_nat i)) b h.1 in
      let m2 := alter (set_index (Z.of_nat j)) a m1 in
      (m2, sl)
  | _, _ => h
  end.

(** [retrieval.index = n; *brh = append( *brh, retrieval)] *)
Definition brh_Push (h : brh) (x : loc) : brh :=
  (alter (set_index (Z.of_nat (length h.2))) x h.1, h.2 ++ [x]).

(** [x := old[n-1]; x.index = -1; *brh = old[0 : n-1]; return x] *)
Definition brh_Pop (h : brh) : option (brh * loc) :=
  match last h.2 with
  | Some x => Some ((alter (set_index (-1)) x h.1, take (length h.2 - 1) h.2), x)
  | None => None
  end.

Global Instance blockRetrievalHeap : container_heap.Interface brh loc := {|
  container_heap.Len := brh_Len;
  container_heap.Less := brh_Less;
  container_heap.Swap := brh_Swap;
  container_heap.IPush := brh_Push;
  container_heap.IPop := brh_Pop
|}.

Definition the_heap (s : State) : brh := (retrievals s, heap s).

(** ** The queue *)

(** func (brq *blockRetrievalQueue) popIfNotEmpty() *blockRetrieval *)
Definition popIfNotEmpty (s : State) : State * option loc :=
  if decide (0 < container_heap.Len (the_heap s))%nat then
    match container_heap.Pop (the_heap s) with
    | Some (h, x) => (set_heap h s, Some x)
    | None => (s, None)
    end
  else (s, None).

(** A send on a channel with a buffer of one slot: [None] when the send
    would block. *)
Definition send {A : Type} (cs : list (list A)) (ch : chan) (v : A) : option (list (list A)) :=
  match cs !! ch with
  | Some buf => if decide (length buf < 1)%nat then Some (<[ch := buf ++ [v]]> cs) else None
  | None => None
  end.

(** The loop of FinalizeRequest over [retrieval.requests]. *)
Fixpoint notify_requests (reqs : list blockRetrievalRequest) (blk : option BlockData)
    (err : error) (s : State) : option (State * list event) :=
  match reqs with
  | [] => Some (s, [])
  | req :: rest =>
      let '(s1, ev1) :=
        match blk with
        | Some b => (set_targets (<[block req := b]> (targets s)) s, [EvSet (block req) b])
        | None => (s, [])
        end in
      match send (errChans s1) (doneCh req) err with
      | Some cs =>
          match notify_requests rest blk err (set_errChans cs s1) with
          | Some (s2, ev2) => Some (s2, ev1 ++ EvSend (doneCh req) err :: ev2)
          | None => None
          end
      | None => None
      end
  end.

(** func (brq *blockRetrievalQueue) FinalizeRequest(retrieval, block, err).
    [None]: a send blocks (or [retrieval] is not an object in memory). *)
Definition FinalizeRequest (retrieval : loc) (blk : option BlockData) (err : error)
    (s : State) : option (State * list event) :=
  match retrievals s !! retrieval with
  | Some r =>
      let s1 := set_ptrs (delete (blockPtr r)) s in
      let s2 := set_retrievals
                  (alter (λ r, set_ctx (cancelFunc (ctx r)) r) retrieval (retrievals s1)) s1 in
      notify_requests (requests r) blk err s2
  | None => None
  end.

(** The branch of the [select] in notifyWorker that fires. *)
Inductive select_case : Type := case_doneCh | case_workerQueue.

(** The goroutine of notifyWorker.  [None]: the case is not ready (or a
    send blocks).  The worker branch here receives from the buffer of
    [workerQueue]; a channel received directly from a worker that waits
    in its send is served by [notifyWorker_serve] below. *)
Definition notifyWorker_run (c : select_case) (s : State) : option (State * list event) :=
  match c with
  | case_doneCh =>
      if brq_doneCh s then
        let '(s1, retrieval) := popIfNotEmpty s in
        match retrieval with
        | Some r => FinalizeRequest r None io_EOF s1
        | None => Some (s1, [])
        end
      else None
  | case_workerQueue =>
      match workerQueue s with
      | ch :: rest =>
          let s1 := set_workerQueue rest s in
          let '(s2, retrieval) := popIfNotEmpty s1 in
          match send (workChans s2) ch retrieval with
          | Some cs => Some (set_workChans cs s2, [])
          | None => None
          end
      | [] => None
      end
  end.

(** func (brq *blockRetrievalQueue) notifyWorker(): starts the goroutine. *)
Definition notifyWorker (s : State) : State := set_attempts (S (attempts s)) s.

(** The part of Request after the lookup: the new request is appended and
    the priority raised. *)
Definition Request_attach (br : loc) (prio : Z) (blk : addr) (s : State) : option (State * chan) :=
  let ch := length (errChans s) in
  let s1 := set_errChans (errChans s ++ [[]]) s in
  let s2 := set_retrievals
              (alter (λ r, set_requests (requests r ++ [mkRequest blk ch]) r) br (retrievals s1)) s1 in
  match retrievals s2 !! br with
  | Some r =>
      if bool_decide (index r ≠ -1) && (prio >? priority r) then
        let s3 := set_retrievals (alter (set_priority prio) br (retrievals s2)) s2 in
        Some (set_heap (container_heap.Fix (the_heap s3) (Z.to_nat (index r))) s3, ch)
      else Some (s2, ch)
  | None => None
  end.

(** The [for] loop of Request, with [brq.mtx] held.  [canceled k] tells
    whether [br.ctx.AddContext(ctx)] returns [context.Canceled] if it is
    called in pass [k]; the third component of the result is the number
    of passes made.  [None]: no result within [fuel] passes (or a
    dangling pointer, which Go excludes). *)
Fixpoint Request_loop (fuel : nat) (canceled : nat → bool) (pass : nat)
    (c : Context) (prio : Z) (md : KeyMetadata) (ptr : BlockPointer) (blk : addr)
    (s : State) : option (State * chan * nat) :=
  match fuel with
  | O => None
  | S fuel' =>
      match ptrs s !! ptr with
      | None =>
          let br := length (retrievals s) in
          let r := {| blockPtr := ptr; kmd := md; ctx := NewCoalescingContext c;
                      requests := []; index := -1; priority := prio;
                      insertionOrder := insertionCount s |} in
          let s1 := set_retrievals (retrievals s ++ [r]) s in
          let s2 := set_insertionCount ((insertionCount s1 + 1) mod uint64_modulus) s1 in
          let s3 := set_ptrs (<[ptr := br]>) s2 in
          let s4 := set_heap (container_heap.Push (the_heap s3) br) s3 in
          match Request_attach br prio blk s4 with
          | Some (s5, ch) => Some (notifyWorker s5, ch, S pass)
          | None => None
          end
      | Some br =>
          match retrievals s !! br with
          | Some r =>
              if canceled pass then
                Request_loop fuel' canceled (S pass) c prio md ptr blk
                  (set_ptrs (delete (blockPtr r)) s)
              else
                let s1 := set_retrievals
                            (alter (λ r, set_ctx (AddContext (ctx r) c) r) br (retrievals s)) s in
                match Request_attach br prio blk s1 with
                | Some (s2, ch) => Some (s2, ch, S pass)
                | None => None
                end
          | None => None
          end
      end
  end.

(** func (brq *blockRetrievalQueue) Request(ctx, priority, kmd, ptr, block):
    the [select] on [brq.doneCh], then the loop. *)
Definition Request (fuel : nat) (canceled : nat → bool)
    (c : Context) (prio : Z) (md : KeyMetadata) (ptr : BlockPointer) (blk : addr)
    (s : State) : option (State * chan * nat) :=
  if brq_doneCh s then
    let ch := length (errChans s) in
    Some (set_errChans (errChans s ++ [[io_EOF]]) s, ch, O)
  else Request_loop fuel canceled O c prio md ptr blk s.

(** func (brq *blockRetrievalQueue) WorkOnRequest() <-chan *blockRetrieval,
    when its send goes into the buffer of [workerQueue].  [None]: the
    buffer is full, as that of a queue made with [numWorkers = 0] always
    is; the send then completes only by being received directly by a
    goroutine of notifyWorker, see [WorkOnRequest_direct]. *)
Definition WorkOnRequest (s : State) : option (State * chan) :=
  let ch := length (workChans s) in
  let s1 := set_workChans (workChans s ++ [[]]) s in
  if decide (length (workerQueue s1) < numWorkers s1)%nat
  then Some (set_workerQueue (workerQueue s1 ++ [ch]) s1, ch)
  else None.

(** WorkOnRequest when its send is received at once by a goroutine of
    notifyWorker that waits in its [select], the buffer of [workerQueue]
    being empty: the channel is made and handed to that goroutine without
    passing through the buffer. *)
Definition WorkOnRequest_direct (s : State) : State * chan :=
  let ch := length (workChans s) in
  (set_workChans (workChans s ++ [[]]) s, ch).

(** The worker branch of notifyWorker once the worker's channel [ch] has
    been received: [ch <- brq.popIfNotEmpty()]. *)
Definition notifyWorker_serve (ch : chan) (s : State) : option (State * list event) :=
  let '(s2, retrieval) := popIfNotEmpty s in
  match send (workChans s2) ch retrieval with
  | Some cs => Some (set_workChans cs s2, [])
  | None => None
  end.

(** [close] of a channel: panics ([None]) when it is already closed. *)
Definition close_chan (closed : bool) : option bool :=
  if closed then None else Some true.

(** func (brq *blockRetrievalQueue) Shutdown(), run without another
    close of [doneCh] between its [select] and its [close]. *)
Definition Shutdown (s : State) : option (State * list event) :=
  if brq_doneCh s then Some (s, [])
  else match close_chan (brq_doneCh s) with
       | Some b => Some (set_doneCh b s, [EvClose])
       | None => None
       end.

(** The two steps of Shutdown, which holds no lock between them.  The
    [select]: [true] when [doneCh] is found open and the call goes on to
    close it, [false] when the call returns. *)
Definition Shutdown_select (s : State) : bool := negb (brq_doneCh s).

(** The [close(brq.doneCh)] of a call whose [select] found [doneCh] open;
    [None]: [doneCh] has been closed in between, the call panics. *)
Definition Shutdown_close (s : State) : option (State * list event) :=
  match close_chan (brq_doneCh s) with
  | Some b => Some (set_doneCh b s, [EvClose])
  | None => None
  end.




(** * The quota-usage cache (quota_usage.go) *)

Module QuotaUsage.

(** [time.Time] and [time.Duration] in nanoseconds; a [Duration] is an
    [int64] and [Time.Sub] saturates. *)
Definition maxDuration : Z := 2 ^ 63 - 1.
Definition minDuration : Z := - 2 ^ 63.

Definition time_Sub (t u : Z) : Z :=
  if t - u >? maxDuration then maxDuration
  else if t - u <? minDuration then minDuration
  else t - u.

(** Modelled from the spec: the reply of the block server,
    [kbfsblock.QuotaInfo] with its [Total *UsageStat] and [Limit], is
    declared in a package that is not part of the sources at hand; the
    key [kbfsblock.UsageWrite] is a parameter below.  A Go map yields 0
    at a key it does not hold. *)
Record UsageStat : Type := mkUsageStat { Bytes : gmap nat Z }.
Record QuotaInfo : Type := mkQuotaInfo { Total : option UsageStat; Limit : Z }.

Record cachedQuotaUsage : Type := mkCached {
  timestamp : Z;
  usageBytes : Z;
  limitBytes : Z
}.

(** EventuallyConsistentQuotaUsage: the fields the code reads and
    writes ([config] and [log] are collaborators). *)
Record EventuallyConsistentQuotaUsage : Type := mkECQU {
  backgroundInProcess : Z;
  cached : cachedQuotaUsage
}.

Section quota.
Variable UsageWrite : nat.

(** func (q *EventuallyConsistentQuotaUsage) getAndCache(ctx).  [reply]
    is what [GetUserQuotaInfo] returns ([inr e]: an error), [now] what
    [Clock().Now()] returns if it is called.  The error of the result is
    [None] for [nil]. *)
Definition getAndCache (reply : QuotaInfo + nat) (now : Z)
    (q : EventuallyConsistentQuotaUsage)
  : EventuallyConsistentQuotaUsage * (cachedQuotaUsage * option nat) :=
  match reply with
  | inr err => (q, (mkCached 0 0 0, Some err))
  | inl quotaInfo =>
      let usage :=
        {| limitBytes := Limit quotaInfo;
           usageBytes := match Total quotaInfo with
                         | Some total => default 0 (Bytes total !! UsageWrite)
                         | None => 0
                         end;
           timestamp := now |} in
      (mkECQU (backgroundInProcess q) usage, (usage, None))
  end.

(** func (q *EventuallyConsistentQuotaUsage) Get(ctx, tolerance).  [now]
    is the clock at the start, [reply] and [now'] are what a blocking
    getAndCache gets from the server and the clock.  The last component
    tells whether a background getAndCache has been started. *)
Definition Get (now tolerance : Z) (reply : QuotaInfo + nat) (now' : Z)
    (q : EventuallyConsistentQuotaUsage)
  : EventuallyConsistentQuotaUsage * (Z * Z * option nat) * bool :=
  let c := cached q in
  let past := time_Sub now (timestamp c) in
  if past >? tolerance then
    match getAndCache reply now' q with
    | (q', (_, Some err)) => (q', (-1, -1, Some err), false)
    | (q', (c', None)) => (q', (usageBytes c', limitBytes c', None), false)
    end
  else if past >? Z.quot tolerance 2 then
    if backgroundInProcess q =? 0
    then (mkECQU 1 (cached q), (usageBytes c, limitBytes c, None), true)
    else (q, (usageBytes c, limitBytes c, None), false)
  else (q, (usageBytes c, limitBytes c, None), false).

(** NewEventuallyConsistentQuotaUsage: the fields have their zero values.
    Times are counted from the zero [time.Time], which is therefore 0. *)
Definition NewEventuallyConsistentQuotaUsage : EventuallyConsistentQuotaUsage :=
  mkECQU 0 (mkCached 0 0 0).

(** [atomic.StoreInt32(&q.backgroundInProcess, v)] *)
Definition StoreInt32_backgroundInProcess (v : Z) (q : EventuallyConsistentQuotaUsage)
  : EventuallyConsistentQuotaUsage :=
  mkECQU v (cached q).

End quota.

End QuotaUsage.

(** * Specification: invariants, transitions and scenarios *)

(** ** Order and well-formedness of the heap of retrievals *)

Definition sort_key (r : blockRetrieval) : Z * Z := (priority r, insertionOrder r).

(** [key_lt a b]: a retrieval with key [a] is served before one with key [b]. *)
Definition key_lt (a b : Z * Z) : bool :=
  if a.1 >? b.1 then true else if a.1 <? b.1 then false else a.2 <? b.2.

Definition brh_key (h : brh) (k : nat) : Z * Z :=
  from_option sort_key (0, 0) (brh_at h k).

(** The slice and the [index] fields agree: the element at position [i]
    has index [i], and an object whose index is not the sentinel is in
    the slice at that index. *)
Definition heap_wf (h : brh) : Prop :=
  (∀ i l, h.2 !! i = Some l → ∃ r, h.1 !! l = Some r ∧ index r = Z.of_nat i) ∧
  (∀ l r, h.1 !! l = Some r → index r ≠ -1 →
     0 ≤ index r ∧ h.2 !! Z.to_nat (index r) = Some l).

Definition heap_ordered (h : brh) : Prop :=
  container_heap.ordered brh_key key_lt h (length h.2).

(** What the heap operations never change: every field but [index], and
    whether [index] is the sentinel. *)
Definition erase (r : blockRetrieval) : blockRetrieval * bool :=
  (set_index 0 r, bool_decide (index r = -1)).
Definition shape (m : list blockRetrieval) : list (blockRetrieval * bool) :=
  erase <$> m.

(** [heap_same n h0 h]: [h] is [h0] with elements below [n] exchanged. *)
Definition heap_same (n : nat) (h0 h : brh) : Prop :=
  heap_wf h ∧ shape h.1 = shape h0.1 ∧ length h.2 = length h0.2 ∧
  ∀ k, (n ≤ k)%nat → h.2 !! k = h0.2 !! k.

(** ** Views of the memory

    The heap depends on an object through [qview]; the registry and the
    waiters depend on it through [payload]. *)
Definition qview (r : blockRetrieval) : Z * Z * Z := (index r, priority r, insertionOrder r).
Definition payload (r : blockRetrieval)
  : nat * nat * CoalescingContext * list blockRetrievalRequest :=
  (blockPtr r, kmd r, ctx r, requests r).

(** ** Invariants of the queue *)

(** The completion channels of all the requests in memory. *)
Definition all_chans (m : list blockRetrieval) : list nat :=
  mjoin ((λ q, doneCh <$> q) <$> (requests <$> m)).

(** A retrieval has been finalized once its [cancelFunc] has run. *)
Definition finalized (r : blockRetrieval) : bool := released (ctx r).

(** A retrieval is queued while its index is not the sentinel. *)
Definition queued (r : blockRetrieval) : Prop := index r ≠ -1.

(** What the registry and the waiters depend on. *)
Definition mview (r : blockRetrieval)
  : nat * bool * list blockRetrievalRequest * Z * bool :=
  (blockPtr r, finalized r, requests r, insertionOrder r, bool_decide (index r = -1)).

Record MemInv (p : gmap nat nat) (m : list blockRetrieval) (c : list (list error))
  : Prop := mkMemInv {
  inv_reg : ∀ k l, p !! k = Some l →
      ∃ r, m !! l = Some r ∧ blockPtr r = k ∧ finalized r = false;
  inv_queued : ∀ l r, m !! l = Some r → queued r → finalized r = false;
  inv_chan_nodup : NoDup (all_chans m);
  inv_chan_valid : ∀ ch, ch ∈ all_chans m → (ch < length c)%nat;
  inv_chan_empty : ∀ l r w, m !! l = Some r → finalized r = false →
      w ∈ requests r → c !! doneCh w = Some [];
  inv_order : ∀ l r, m !! l = Some r →
      insertionOrder r = Z.of_nat l mod uint64_modulus
}.

Record Inv (s : State) : Prop := mkInv {
  inv_wf : heap_wf (the_heap s);
  inv_ordered : heap_ordered (the_heap s);
  inv_mem : MemInv (ptrs s) (retrievals s) (errChans s);
  inv_count : insertionCount s = Z.of_nat (length (retrievals s)) mod uint64_modulus;
  inv_wq_nodup : NoDup (workerQueue s);
  inv_wq_empty : ∀ ch, ch ∈ workerQueue s → workChans s !! ch = Some []
}.

(** ** What the operations leave *)

(** The events of one FinalizeRequest, and the memory it leaves. *)
Definition notify_events (reqs : list blockRetrievalRequest) (blk : option nat)
    (err : error) : list event :=
  reqs ≫= λ w,
    match blk with Some b => [EvSet (block w) b] | None => [] end
    ++ [EvSend (doneCh w) err].

Definition deliver (c : list (list error)) (chs : list nat) (err : error)
  : list (list error) :=
  foldl (λ c ch, <[ch := [err]]> c) c chs.

Definition populate (t : gmap nat nat) (reqs : list blockRetrievalRequest)
    (blk : option nat) : gmap nat nat :=
  match blk with
  | Some b => foldl (λ t w, <[block w := b]> t) t reqs
  | None => t
  end.

(** The state FinalizeRequest leaves when no send blocks. *)
Definition finalize_state (l : nat) (blk : option nat) (err : error)
    (r : blockRetrieval) (s : State) : State :=
  set_targets (populate (targets s) (requests r) blk)
    (set_errChans (deliver (errChans s) (doneCh <$> requests r) err)
       (set_retrievals (alter (λ r, set_ctx (cancelFunc (ctx r)) r) l (retrievals s))
          (set_ptrs (delete (blockPtr r)) s))).

(** The fields that only the workers' side of the queue writes. *)
Definition same_workers (s s' : State) : Prop :=
  workerQueue s' = workerQueue s ∧ numWorkers s' = numWorkers s ∧
  brq_doneCh s' = brq_doneCh s ∧ workChans s' = workChans s ∧ targets s' = targets s.

(** What attaching a request does to the retrieval. *)
Definition attach_update (prio : Z) (w : blockRetrievalRequest) (r : blockRetrieval)
  : blockRetrieval :=
  let r1 := set_requests (requests r ++ [w]) r in
  if bool_decide (index r1 ≠ -1) && (prio >? priority r1)
  then set_priority prio r1 else r1.

(** The retrieval a creating Request leaves in memory (up to its index). *)
Definition new_retrieval (c : nat) (prio : Z) (md ptr : nat) (w : blockRetrievalRequest)
    (count : Z) : blockRetrieval :=
  {| blockPtr := ptr; kmd := md; ctx := NewCoalescingContext c; requests := [w];
     index := 0; priority := prio; insertionOrder := count |}.

(** An object keeps its locator, its metadata and its insertion order;
    its priority never decreases and its requests are only appended to. *)
Definition retrieval_le (r r' : blockRetrieval) : Prop :=
  blockPtr r' = blockPtr r ∧ kmd r' = kmd r ∧
  insertionOrder r' = insertionOrder r ∧ priority r ≤ priority r' ∧
  requests r `prefix_of` requests r'.

Definition mem_le (m m' : list blockRetrieval) : Prop :=
  ∀ (l : nat) r, m !! l = Some r → ∃ r', m' !! l = Some r' ∧ retrieval_le r r'.

(** ** The transitions of the queue

    [step s ev s']: one atomic action of some goroutine takes the queue
    from [s] to [s'] and has the effects [ev].  [step_Request_locked] is
    the critical section of a Request whose [select] found [doneCh] open
    earlier; [step_rendezvous] is a WorkOnRequest whose send is received
    directly by a waiting goroutine of notifyWorker, which then serves
    the worker; [step_pop] is a matching attempt that has taken a branch
    and popped, the finalization or the delivery coming later;
    FinalizeRequest is called once, on a retrieval that has left the
    heap.  Shutdown is two actions: [step_Shutdown_select] is a [select]
    that finds [doneCh] closed, after which the call returns, and
    [step_Shutdown_close] is the [close] of a call whose [select] found
    [doneCh] open, now or earlier.  A [close] of the closed [doneCh]
    panics: it has no successor state (see [Shutdown_close]). *)
Inductive step : State → list event → State → Prop :=
  | step_Request fuel canceled c prio md ptr blk s s' ch n :
      Request fuel canceled c prio md ptr blk s = Some (s', ch, n) →
      step s [] s'
  | step_Request_locked fuel canceled c prio md ptr blk s s' ch n :
      Request_loop fuel canceled 0 c prio md ptr blk s = Some (s', ch, n) →
      step s [] s'
  | step_WorkOnRequest s s' ch :
      WorkOnRequest s = Some (s', ch) → step s [] s'
  | step_rendezvous s n s1 ch s' ev :
      attempts s = S n → workerQueue s = [] →
      WorkOnRequest_direct (set_attempts n s) = (s1, ch) →
      notifyWorker_serve ch s1 = Some (s', ev) →
      step s ev s'
  | step_attempt sel s n s' ev :
      attempts s = S n →
      notifyWorker_run sel (set_attempts n s) = Some (s', ev) →
      step s ev s'
  | step_pop s n s' x :
      attempts s = S n →
      popIfNotEmpty (set_attempts n s) = (s', x) →
      step s [] s'
  | step_Finalize l blk err s r s' ev :
      retrievals s !! l = Some r → index r = -1 → finalized r = false →
      FinalizeRequest l blk err s = Some (s', ev) →
      step s ev s'
  | step_Shutdown_select s :
      Shutdown_select s = false → step s [] s
  | step_Shutdown_close s s' ev :
      Shutdown_close s = Some (s', ev) → step s ev s'
  | step_receive (ch : nat) v buf s :
      errChans s !! ch = Some (v :: buf) →
      step s [] (set_errChans (<[ch := buf]> (errChans s)) s)
  | step_worker_receive (ch : nat) v buf s :
      workChans s !! ch = Some (v :: buf) →
      step s [] (set_workChans (<[ch := buf]> (workChans s)) s).

Inductive steps : State → list event → State → Prop :=
  | steps_refl s : steps s [] s
  | steps_snoc s tr s1 ev s2 : steps s tr s1 → step s1 ev s2 → steps s (tr ++ ev) s2.

Definition reachable (s : State) : Prop :=
  ∃ n tg tr, steps (newBlockRetrievalQueue n tg) tr s.

(** Every retrieval in the heap still has a matching attempt to come. *)
Definition attempts_ok (s : State) : Prop := (length (heap s) ≤ attempts s)%nat.

Definition closes (ev : list event) : nat := length (filter (λ e, e = EvClose) ev).

(** What every transition keeps. *)
Definition step_keeps (s : State) (ev : list event) (s' : State) : Prop :=
  Inv s' ∧ (attempts_ok s → attempts_ok s') ∧
  mem_le (retrievals s) (retrievals s') ∧
  (brq_doneCh s = true → brq_doneCh s' = true) ∧
  numWorkers s' = numWorkers s ∧
  (closes ev + (if brq_doneCh s then 1 else 0) = if brq_doneCh s' then 1 else 0)%nat.

(** ** Claims

    A worker claims the retrieval that popIfNotEmpty returns.
    [cstep s ev x s'] is the transition [step s ev s'] together with the
    result [x] of the call of popIfNotEmpty that it makes ([None] when it
    makes none or the call returns nil); [csteps s tr cl s'] is a run
    with the list [cl] of the retrievals claimed in it, in order. *)
Inductive cstep : State → list event → option loc → State → Prop :=
  | cstep_Request fuel canceled c prio md ptr blk s s' ch n :
      Request fuel canceled c prio md ptr blk s = Some (s', ch, n) →
      cstep s [] None s'
  | cstep_Request_locked fuel canceled c prio md ptr blk s s' ch n :
      Request_loop fuel canceled 0 c prio md ptr blk s = Some (s', ch, n) →
      cstep s [] None s'
  | cstep_WorkOnRequest s s' ch :
      WorkOnRequest s = Some (s', ch) → cstep s [] None s'
  | cstep_rendezvous s n s1 ch s' ev :
      attempts s = S n → workerQueue s = [] →
      WorkOnRequest_direct (set_attempts n s) = (s1, ch) →
      notifyWorker_serve ch s1 = Some (s', ev) →
      cstep s ev (popIfNotEmpty s1).2 s'
  | cstep_attempt_doneCh s n s' ev :
      attempts s = S n →
      notifyWorker_run case_doneCh (set_attempts n s) = Some (s', ev) →
      cstep s ev (popIfNotEmpty (set_attempts n s)).2 s'
  | cstep_attempt_workerQueue s n ch rest s' ev :
      attempts s = S n → workerQueue s = ch :: rest →
      notifyWorker_run case_workerQueue (set_attempts n s) = Some (s', ev) →
      cstep s ev (popIfNotEmpty (set_workerQueue rest (set_attempts n s))).2 s'
  | cstep_pop s n s' x :
      attempts s = S n →
      popIfNotEmpty (set_attempts n s) = (s', x) →
      cstep s [] x s'
  | cstep_Finalize l blk err s r s' ev :
      retrievals s !! l = Some r → index r = -1 → finalized r = false →
      FinalizeRequest l blk err s = Some (s', ev) →
      cstep s ev None s'
  | cstep_Shutdown_select s :
      Shutdown_select s = false → cstep s [] None s
  | cstep_Shutdown_close s s' ev :
      Shutdown_close s = Some (s', ev) → cstep s ev None s'
  | cstep_receive (ch : nat) v buf s :
      errChans s !! ch = Some (v :: buf) →
      cstep s [] None (set_errChans (<[ch := buf]> (errChans s)) s)
  | cstep_worker_receive (ch : nat) v buf s :
      workChans s !! ch = Some (v :: buf) →
      cstep s [] None (set_workChans (<[ch := buf]> (workChans s)) s).

Inductive csteps : State → list event → list loc → State → Prop :=
  | csteps_refl s : csteps s [] [] s
  | csteps_snoc s tr cl s1 ev x s2 :
      csteps s tr cl s1 → cstep s1 ev x s2 →
      csteps s (tr ++ ev) (cl ++ option_list x) s2.

(** The claimed retrievals are those whose index is the sentinel. *)
Definition claims_ok (cl : list loc) (s : State) : Prop :=
  NoDup cl ∧
  ∀ l : nat, l ∈ cl ↔ ∃ r, retrievals s !! l = Some r ∧ index r = -1.

(** ** Scenarios

    Runs of the queue used to instantiate the theorems: each function
    performs one transition when it is enabled and leaves the state alone
    otherwise, so its result is reachable whenever its argument is.
    [never] and [at_first] are behaviours of AddContext: never canceled,
    canceled when called in the first pass. *)
Definition never (k : nat) : bool := false.
Definition at_first (k : nat) : bool := bool_decide (k = 0%nat).

Definition after_Request (canceled : nat → bool) (c : nat) (prio : Z)
    (md ptr blk : nat) (s : State) : State :=
  match Request 2 canceled c prio md ptr blk s with
  | Some (s', _, _) => s'
  | None => s
  end.

Definition after_WorkOnRequest (s : State) : State :=
  match WorkOnRequest s with Some (s', _) => s' | None => s end.

Definition after_attempt (sel : select_case) (s : State) : State :=
  match attempts s with
  | S n => match notifyWorker_run sel (set_attempts n s) with
           | Some (s', _) => s'
           | None => s
           end
  | O => s
  end.

Definition after_Shutdown (s : State) : State :=
  match Shutdown s with Some (s', _) => s' | None => s end.

(** Locator 100 is requested twice (priorities 10 and 20, targets 0 and
    1), then a worker claims the retrieval. *)
Definition two_waiters_queued : State :=
  after_Request never 1 20 7 100 1
    (after_Request never 0 10 7 100 0 (newBlockRetrievalQueue 1 ∅)).

Definition two_waiters_claimed : State :=
  after_attempt case_workerQueue (after_WorkOnRequest two_waiters_queued).

(** The sends of a trace, in order. *)
Definition sends (ev : list event) : list (nat * error) :=
  omap (λ e, match e with EvSend ch e => Some (ch, e) | _ => None end) ev.

(** The heap holds precisely the retrievals that are in the registry and
    not yet claimed by a worker. *)
Definition heap_is_registered_unclaimed (s : State) : Prop :=
  ∀ l : nat, l ∈ heap s ↔
    (∃ p, ptrs s !! p = Some l) ∧ (∃ r, retrievals s !! l = Some r ∧ queued r).

(** Locator 100 is requested; all its waiters cancel; locator 100 is
    requested again before a worker claims the first retrieval. *)
Definition canceled_then_requested : State :=
  after_Request at_first 1 10 7 100 1
    (after_Request never 0 10 7 100 0 (newBlockRetrievalQueue 1 ∅)).

(** Requests on one locator, one after the other.  A request is its
    context, priority, metadata and block, with the behaviour of
    AddContext for it. *)
Record request_args : Type := mkArgs {
  arg_canceled : nat → bool;
  arg_ctx : nat;
  arg_priority : Z;
  arg_kmd : nat;
  arg_block : nat
}.

Fixpoint Request_seq (ptr : nat) (reqs : list request_args) (s : State) : option State :=
  match reqs with
  | [] => Some s
  | q :: rest =>
      match Request 2 (arg_canceled q) (arg_ctx q) (arg_priority q) (arg_kmd q)
              ptr (arg_block q) s with
      | Some (s', _, _) => Request_seq ptr rest s'
      | None => None
      end
  end.

(** The priority that requests on a registered locator leave, from the
    stored priority [p]: a request whose AddContext reports cancellation
    replaces the retrieval by one of its own priority, any other request
    raises the stored priority to its own if that is higher. *)
Definition priority_after (p : Z) (reqs : list request_args) : Z :=
  foldl (λ m q, if arg_canceled q 0%nat then arg_priority q
                else Z.max m (arg_priority q)) p reqs.

(** After requests with priorities 10 on locator 100, a worker claims the
    retrieval. *)
Definition claimed_by_worker : State :=
  after_attempt case_workerQueue
    (after_WorkOnRequest
       (after_Request never 0 10 7 100 0 (newBlockRetrievalQueue 1 ∅))).

(** Pool size 1: locator 100 is requested with priority 10, then locator
    200 with priority 50. *)
Definition low_then_high : State :=
  after_Request never 1 50 7 200 1
    (after_Request never 0 10 7 100 0 (newBlockRetrievalQueue 1 ∅)).

(** A queue that has been shut down, with a request still in its heap. *)
Definition shut_down : State :=
  after_Shutdown (after_Request never 0 10 7 100 0 (newBlockRetrievalQueue 1 ∅)).






(** ** The life of a retrieval *)

(** What becomes of an object in memory: a retrieval that has left the
    heap stays out of it, and a finalized retrieval is never written
    again. *)
Definition life (r r' : blockRetrieval) : Prop :=
  (index r = -1 → index r' = -1) ∧ (finalized r = true → r' = r).

(** The retrieval of locator 100 is replaced after the cancellation of
    its waiters, then a worker claims it: retrieval 0 is being processed,
    retrieval 1 is registered under the same locator and queued. *)
Definition replaced_and_claimed : State :=
  after_attempt case_workerQueue (after_WorkOnRequest canceled_then_requested).

(** Locator 100 has been requested once, with priority 10. *)
Definition one_request : State :=
  after_Request never 0 10 7 100 0 (newBlockRetrievalQueue 1 ∅).

(** ** The quota-usage cache: replies and runs *)

Module QuotaUsageRuns.
Import QuotaUsage.

Section runs.
Variable UsageWrite : nat.

(** The write usage of a reply of the block server: 0 without a total. *)
Definition write_usage (info : QuotaInfo) : Z :=
  match Total info with
  | Some total => default 0 (Bytes total !! UsageWrite)
  | None => 0
  end.

(** The age of the cached data at clock reading [now]. *)
Definition age (now : Z) (q : EventuallyConsistentQuotaUsage) : Z :=
  time_Sub now (timestamp (cached q)).

(** Runs of a quota-usage object: calls of Get, taken one at a time, and
    the two steps of each background goroutine, its getAndCache and its
    reset of the flag, in any interleaving.  A state is the object with
    the background goroutines that have not yet finished. *)
Inductive bg_phase : Type := bg_spawned | bg_fetched.

Inductive qstep :
    EventuallyConsistentQuotaUsage * list bg_phase →
    EventuallyConsistentQuotaUsage * list bg_phase → Prop :=
  | qstep_Get now tolerance reply now' q gs q' res started :
      Get UsageWrite now tolerance reply now' q = (q', res, started) →
      qstep (q, gs) (q', if started then bg_spawned :: gs else gs)
  | qstep_fetch reply now q gs1 gs2 :
      qstep (q, gs1 ++ bg_spawned :: gs2)
            ((getAndCache UsageWrite reply now q).1, gs1 ++ bg_fetched :: gs2)
  | qstep_reset q gs1 gs2 :
      qstep (q, gs1 ++ bg_fetched :: gs2)
            (StoreInt32_backgroundInProcess 0 q, gs1 ++ gs2).

Inductive qsteps :
    EventuallyConsistentQuotaUsage * list bg_phase →
    EventuallyConsistentQuotaUsage * list bg_phase → Prop :=
  | qsteps_refl w : qsteps w w
  | qsteps_snoc w w1 w2 : qsteps w w1 → qstep w1 w2 → qsteps w w2.
End runs.

End QuotaUsageRuns.

(** * Proofs *)

(** ** The parent of a position *)

Lemma parent_le j : (parent j <= j)%nat.
Proof.
  unfold parent.
  assert ((j - 1) / 2 <= j - 1)%nat by (apply Nat.Div0.div_le_upper_bound; lia).
  lia.
Qed.

Lemma parent_0 : parent 0 = 0%nat.
Proof. reflexivity. Qed.

Lemma parent_lt j : (0 < j)%nat → (parent j < j)%nat.
Proof.
  intros Hj. unfold parent.
  assert ((j - 1) / 2 <= j - 1)%nat by (apply Nat.Div0.div_le_upper_bound; lia).
  lia.
Qed.

Lemma parent_children j i :
  (0 < j)%nat → parent j = i → j = (2 * i + 1)%nat ∨ j = (2 * i + 2)%nat.
Proof.
  intros Hj <-. unfold parent.
  pose proof (Nat.div_mod_eq (j - 1) 2) as E.
  pose proof (Nat.mod_upper_bound (j - 1) 2 ltac:(lia)). lia.
Qed.

Lemma parent_left i : parent (2 * i + 1) = i.
Proof.
  unfold parent. replace (2 * i + 1 - 1)%nat with (i * 2)%nat by lia.
  apply Nat.div_mul. lia.
Qed.

Lemma parent_right i : parent (2 * i + 2) = i.
Proof.
  unfold parent. replace (2 * i + 2 - 1)%nat with (1 + i * 2)%nat by lia.
  rewrite Nat.div_add by lia. reflexivity.
Qed.

Global Opaque parent.

Module container_heap_theory.
Import container_heap.

(** ** What container/heap guarantees

    The laws are stated for an implementation whose [Less] compares keys
    [key h i] by a strict order [lt] and whose [Swap] exchanges two keys,
    on the memories that satisfy [wf]. *)
Section theory.
Local Open Scope nat_scope.
Context {H X : Type} `{Interface H X}.

Lemma up_eq (h : H) (j : nat) :
  up h j = if decide (parent j = j) then h
           else if Less h j (parent j)
                then up (Swap h (parent j) j) (parent j) else h.
Proof. rewrite up_equation_1. destruct (decide (parent j = j)); reflexivity. Qed.

Lemma down_loop_eq (h : H) (i n : nat) :
  down_loop h i n =
    if decide (2 * i + 1 < n)
    then if Less h (child_of h i n) i
         then down_loop (Swap h i (child_of h i n)) (child_of h i n) n
         else (h, i)
    else (h, i).
Proof. rewrite down_loop_equation_1. destruct (decide (2 * i + 1 < n)); reflexivity. Qed.

Lemma child_of_cases h i n :
  2 * i + 1 < n →
  (child_of h i n = 2 * i + 1 ∧
     (2 * i + 2 < n → Less h (2 * i + 2) (2 * i + 1) = false)) ∨
  (child_of h i n = 2 * i + 2 ∧ 2 * i + 2 < n ∧
     Less h (2 * i + 2) (2 * i + 1) = true).
Proof.
  intros Hn. unfold child_of.
  destruct (decide (2 * i + 2 < n)) as [E1|E1].
  - rewrite bool_decide_eq_true_2, andb_true_l by done.
    destruct (Less h (2 * i + 2) (2 * i + 1)) eqn:E2; [right|left]; done.
  - rewrite bool_decide_eq_false_2, andb_false_l by done.
    left. split; [done|]. intros; lia.
Qed.

(** A property kept by every [Swap] below a bound [b] is kept by the
    loops that stay below [b]. *)
Section preserved.
Variable P : H → Prop.
Variable b : nat.
Hypothesis Len_Swap : ∀ h i j, Len (Swap h i j) = Len h.
Hypothesis P_Swap : ∀ h i j, P h → i < b → j < b → b ≤ Len h → P (Swap h i j).

Lemma up_preserves j : ∀ h, P h → j < b → b ≤ Len h → P (up h j).
Proof.
  induction j as [j IH] using lt_wf_ind. intros h HP Hj Hb.
  rewrite up_eq. destruct (decide (parent j = j)) as [|Hne]; [done|].
  destruct (Less h j (parent j)); [|done].
  pose proof (parent_le j).
  apply IH; [lia| |lia|rewrite Len_Swap; lia].
  apply P_Swap; [done|lia|lia|lia].
Qed.

Lemma up_Len j : ∀ h, Len (up h j) = Len h.
Proof.
  induction j as [j IH] using lt_wf_ind. intros h.
  rewrite up_eq. destruct (decide (parent j = j)) as [|Hne]; [done|].
  destruct (Less h j (parent j)); [|done].
  pose proof (parent_le j). rewrite IH by lia. apply Len_Swap.
Qed.

Lemma down_loop_preserves n : ∀ m i h,
  n - i = m → P h → n ≤ b → b ≤ Len h → P (down_loop h i n).1.
Proof.
  induction m as [m IH] using lt_wf_ind. intros i h Hm HP Hn Hb.
  rewrite down_loop_eq. destruct (decide (2 * i + 1 < n)) as [Hlt|]; [|done].
  destruct (child_of_cases h i n Hlt) as [[Hc _]|[Hc [Hlt2 _]]];
    destruct (Less h (child_of h i n) i); try done;
    (eapply IH; [|reflexivity| |done|rewrite Len_Swap; lia];
     [rewrite Hc; lia|apply P_Swap; [done|lia|rewrite Hc; lia|done]]).
Qed.

Lemma down_loop_Len n : ∀ m i h,
  n - i = m → Len (down_loop h i n).1 = Len h.
Proof.
  induction m as [m IH] using lt_wf_ind. intros i h Hm.
  rewrite down_loop_eq. destruct (decide (2 * i + 1 < n)) as [Hlt|]; [|done].
  destruct (child_of_cases h i n Hlt) as [[Hc _]|[Hc [Hlt2 _]]];
    destruct (Less h (child_of h i n) i); try done;
    (erewrite IH; [apply Len_Swap| |reflexivity]; rewrite Hc; lia).
Qed.
End preserved.

(** How [up] and [down] restore the heap order. *)
Section order.
Context {K : Type}.
Variable key : H → nat → K.
Variable lt : K → K → bool.
Variable wf : H → Prop.

Local Abbreviation le := (container_heap.le lt).
Local Abbreviation ordered := (container_heap.ordered key lt).
Local Abbreviation ordered_but_up := (container_heap.ordered_but_up key lt).
Local Abbreviation ordered_but_down := (container_heap.ordered_but_down key lt).

Hypothesis lt_asym : ∀ a b, lt a b = true → lt b a = false.
Hypothesis le_trans : ∀ a b c, le a b → le b c → le a c.
Hypothesis Len_Swap : ∀ h i j, Len (Swap h i j) = Len h.
Hypothesis wf_Swap : ∀ h i j, wf h → i < Len h → j < Len h → wf (Swap h i j).
Hypothesis Less_key : ∀ h i j,
  wf h → i < Len h → j < Len h → Less h i j = lt (key h i) (key h j).
Hypothesis key_Swap : ∀ h i j k,
  wf h → i < Len h → j < Len h →
  key (Swap h i j) k =
    key h (if decide (k = i) then j else if decide (k = j) then i else k).

Lemma ordered_root h n :
  ordered h n → ∀ k, k < n → le (key h 0) (key h k) ∨ k = 0.
Proof.
  intros Ho k. induction k as [k IH] using lt_wf_ind. intros Hk.
  destruct (decide (k = 0)) as [|Hk0]; [by right|left].
  pose proof (parent_lt k ltac:(lia)) as Hp.
  destruct (IH (parent k) Hp ltac:(lia)) as [Hle|E].
  - eapply le_trans; [exact Hle|]. apply Ho. lia.
  - rewrite <- E. apply Ho. lia.
Qed.

Lemma up_ordered j : ∀ h n,
  wf h → n ≤ Len h → j < n → ordered_but_up h n j → ordered (up h j) n.
Proof.
  induction j as [j IH] using lt_wf_ind. intros h n Hwf Hn Hj [Ha Hb].
  rewrite up_eq. destruct (decide (parent j = j)) as [Hpj|Hne].
  { intros k Hk. apply Ha; [done|]. intros ->.
    pose proof (parent_lt j ltac:(lia)). lia. }
  assert (0 < j) as Hj0.
  { destruct (decide (j = 0)) as [->|]; [|lia]. by rewrite parent_0 in Hne. }
  pose proof (parent_lt j Hj0) as Hpj.
  rewrite Less_key by (done || lia).
  destruct (lt (key h j) (key h (parent j))) eqn:Elt.
  2:{ intros k Hk. destruct (decide (k = j)) as [->|]; [exact Elt|by apply Ha]. }
  set (i := parent j) in *.
  assert (∀ k, key (Swap h i j) k =
               key h (if decide (k = i) then j else if decide (k = j) then i else k))
    as Hkey by (intros; apply key_Swap; (done || lia)).
  apply IH; [lia|apply wf_Swap; (done || lia)|by rewrite Len_Swap|lia|].
  split.
  - intros k Hk Hki. rewrite !Hkey.
    pose proof (parent_lt k ltac:(lia)) as Hpk.
    destruct (decide (k = i)) as [|_]; [done|].
    destruct (decide (k = j)) as [->|Hkj].
    + fold i. rewrite decide_True by done. by apply lt_asym.
    + destruct (decide (parent k = i)) as [Epk|Npk].
      * eapply le_trans; [apply lt_asym, Elt|].
        rewrite <- Epk. by apply Ha.
      * destruct (decide (parent k = j)) as [Epj|Npj]; [|by apply Ha].
        apply Hb; done.
  - intros k Hk Hi0 Hpk. rewrite !Hkey.
    pose proof (parent_lt i Hi0) as Hpi.
    rewrite (decide_False (P := parent i = i)) by lia.
    rewrite (decide_False (P := parent i = j)) by lia.
    assert (le (key h (parent i)) (key h i)) as Hpi_le by (apply Ha; lia).
    pose proof (parent_lt k ltac:(lia)) as Hpk'.
    rewrite (decide_False (P := k = i)) by lia.
    destruct (decide (k = j)) as [->|Hkj]; [done|].
    eapply le_trans; [exact Hpi_le|]. rewrite <- Hpk. by apply Ha.
Qed.

Lemma child_of_least h i n k :
  wf h → n ≤ Len h → 2 * i + 1 < n → ordered_but_down h n i →
  0 < k < n → parent k = i → k ≠ child_of h i n →
  le (key h (child_of h i n)) (key h k).
Proof.
  intros Hwf Hn Hlt [Ha Hb] Hk Hpk Hne.
  destruct (parent_children k i ltac:(lia) Hpk) as [->| ->];
    destruct (child_of_cases h i n Hlt) as [[Hc Hl]|[Hc [Hlt2 Hl]]];
    rewrite Hc in *; try done.
  - rewrite Less_key in Hl by (done || lia). by apply lt_asym.
  - specialize (Hl ltac:(lia)). rewrite Less_key in Hl by (done || lia). exact Hl.
Qed.

Lemma down_loop_ordered n : ∀ m i h,
  n - i = m → wf h → n ≤ Len h → i < n →
  ordered_but_down h n i → ordered (down_loop h i n).1 n.
Proof.
  induction m as [m IH] using lt_wf_ind. intros i h Hm Hwf Hn Hi [Ha Hb].
  rewrite down_loop_eq. destruct (decide (2 * i + 1 < n)) as [Hlt|Hge].
  2:{ intros k Hk. apply Ha; [done|]. intros Hpk.
      destruct (parent_children k i ltac:(lia) Hpk); lia. }
  pose proof (child_of_least h i n) as Hleast.
  assert (parent (child_of h i n) = i ∧ i < child_of h i n < n) as [Hpc Hcn].
  { destruct (child_of_cases h i n Hlt) as [[Hc _]|[Hc [Hlt2 _]]]; rewrite Hc;
      [rewrite parent_left|rewrite parent_right]; lia. }
  set (j := child_of h i n) in *.
  rewrite Less_key by (done || lia).
  destruct (lt (key h j) (key h i)) eqn:Elt; simpl.
  2:{ intros k Hk. destruct (decide (parent k = i)) as [Hpk|]; [|by apply Ha].
      rewrite Hpk. destruct (decide (k = j)) as [->|Hkj]; [exact Elt|].
      eapply le_trans; [exact Elt|]. apply Hleast; (done || lia). }
  assert (∀ k, key (Swap h i j) k =
               key h (if decide (k = i) then j else if decide (k = j) then i else k))
    as Hkey by (intros; apply key_Swap; (done || lia)).
  eapply IH; [|reflexivity|apply wf_Swap; (done || lia)|by rewrite Len_Swap|lia|]; [lia|].
  split.
  - intros k Hk Hpk. rewrite !Hkey.
    pose proof (parent_lt k ltac:(lia)) as Hpk'.
    destruct (decide (k = j)) as [->|Hkj].
    + rewrite Hpc. rewrite (decide_True (P := i = i)) by done.
      rewrite (decide_False (P := j = i)) by lia. by apply lt_asym.
    + rewrite (decide_False (P := parent k = j)) by done.
      destruct (decide (k = i)) as [->|Hki].
      * rewrite (decide_False (P := parent i = i)) by lia.
        apply Hb; (done || lia).
      * destruct (decide (parent k = i)) as [Epk|Npk]; [|by apply Ha].
        apply Hleast; (done || lia).
  - intros k Hk Hj0 Hpk. rewrite !Hkey. rewrite Hpc.
    rewrite (decide_True (P := i = i)) by done.
    pose proof (parent_lt k ltac:(lia)) as Hpk'.
    rewrite (decide_False (P := k = i)) by lia.
    rewrite (decide_False (P := k = j)) by lia.
    rewrite <- Hpk. apply Ha; [done|lia].
Qed.

(** Where no child comes before [i], [down] leaves the heap alone. *)
Lemma down_loop_stays h i n :
  wf h → n ≤ Len h → i < n →
  (∀ k, 0 < k < n → parent k = i → le (key h i) (key h k)) →
  down_loop h i n = (h, i).
Proof.
  intros Hwf Hn Hi Hc. rewrite down_loop_eq.
  destruct (decide (2 * i + 1 < n)) as [Hlt|]; [|done].
  assert (parent (child_of h i n) = i ∧ i < child_of h i n < n) as [Hpc Hcn].
  { destruct (child_of_cases h i n Hlt) as [[E _]|[E [Hlt2 _]]]; rewrite E;
      [rewrite parent_left|rewrite parent_right]; lia. }
  rewrite Less_key by (done || lia).
  rewrite (Hc (child_of h i n)) by (done || lia). done.
Qed.
End order.
End theory.

End container_heap_theory.

(** ** The heap of retrievals: well-formedness and order *)

Lemma retrieval_less_key a b : retrieval_less a b = key_lt (sort_key a) (sort_key b).
Proof. reflexivity. Qed.

Lemma key_lt_asym a b : key_lt a b = true → key_lt b a = false.
Proof.
  unfold key_lt. destruct a as [p1 o1], b as [p2 o2]. simpl.
  destruct (p1 >? p2) eqn:E1, (p1 <? p2) eqn:E2, (p2 >? p1) eqn:E3,
    (p2 <? p1) eqn:E4, (o1 <? o2) eqn:E5, (o2 <? o1) eqn:E6; try done; lia.
Qed.

Lemma key_le_trans a b c :
  container_heap.le key_lt a b → container_heap.le key_lt b c →
  container_heap.le key_lt a c.
Proof.
  unfold container_heap.le, key_lt.
  destruct a as [p1 o1], b as [p2 o2], c as [p3 o3]. simpl.
  destruct (p2 >? p1) eqn:E1, (p2 <? p1) eqn:E2, (p3 >? p2) eqn:E3,
    (p3 <? p2) eqn:E4, (p3 >? p1) eqn:E5, (p3 <? p1) eqn:E6,
    (o2 <? o1) eqn:E7, (o3 <? o2) eqn:E8, (o3 <? o1) eqn:E9; try done; lia.
Qed.

Lemma key_le_refl a : container_heap.le key_lt a a.
Proof.
  unfold container_heap.le, key_lt. destruct a as [p o]. simpl.
  destruct (p >? p) eqn:E1, (p <? p) eqn:E2, (o <? o) eqn:E3; try done; lia.
Qed.

Lemma set_index_set_index i j r : set_index i (set_index j r) = set_index i r.
Proof. reflexivity. Qed.

Lemma heap_wf_inj h i j l :
  heap_wf h → h.2 !! i = Some l → h.2 !! j = Some l → i = j.
Proof.
  intros [W1 _] Hi Hj.
  destruct (W1 _ _ Hi) as (r & Hr & Ei), (W1 _ _ Hj) as (r' & Hr' & Ej).
  simplify_eq. lia.
Qed.

Lemma brh_Len_Swap h i j : brh_Len (brh_Swap h i j) = brh_Len h.
Proof.
  unfold brh_Len, brh_Swap.
  destruct (h.2 !! i), (h.2 !! j); simpl; by rewrite ?length_insert.
Qed.

(** [brh_Swap] exchanges the two pointers and rewrites the two indices. *)
Lemma brh_Swap_slice h i j a b k :
  h.2 !! i = Some a → h.2 !! j = Some b →
  (brh_Swap h i j).2 !! k =
    if decide (k = i) then Some b else if decide (k = j) then Some a else h.2 !! k.
Proof.
  intros Hi Hj. unfold brh_Swap. rewrite Hi, Hj. simpl.
  pose proof (lookup_lt_Some _ _ _ Hi). pose proof (lookup_lt_Some _ _ _ Hj).
  rewrite !list_lookup_insert, !length_insert.
  repeat case_decide; destruct_and?; simplify_eq; try done; lia.
Qed.

Lemma brh_Swap_mem h i j a b l :
  h.2 !! i = Some a → h.2 !! j = Some b →
  (brh_Swap h i j).1 !! l =
    if decide (l = a) then set_index (Z.of_nat j) <$> h.1 !! a
    else if decide (l = b) then set_index (Z.of_nat i) <$> h.1 !! b
    else h.1 !! l.
Proof.
  intros Hi Hj. unfold brh_Swap. rewrite Hi, Hj. simpl.
  rewrite !list_lookup_alter.
  repeat case_decide; simplify_eq; try done.
  by destruct (h.1 !! b).
Qed.

Lemma heap_wf_at h i :
  heap_wf h → (i < brh_Len h)%nat →
  ∃ l r, h.2 !! i = Some l ∧ h.1 !! l = Some r ∧ index r = Z.of_nat i.
Proof.
  intros [W1 _] Hi. destruct (lookup_lt_is_Some_2 h.2 i Hi) as [l Hl].
  destruct (W1 _ _ Hl) as (r & Hr & E). eauto.
Qed.

Lemma brh_Swap_wf h i j :
  heap_wf h → (i < brh_Len h)%nat → (j < brh_Len h)%nat → heap_wf (brh_Swap h i j).
Proof.
  intros Hwf Hi Hj.
  destruct (heap_wf_at h i Hwf Hi) as (a & ra & Ha & Hra & Eia).
  destruct (heap_wf_at h j Hwf Hj) as (b & rb & Hb & Hrb & Eib).
  split.
  - intros k l. rewrite (brh_Swap_slice h i j a b k Ha Hb).
    rewrite (brh_Swap_mem h i j a b l Ha Hb). intros Hk.
    destruct (decide (k = i)) as [->|Hki].
    + injection Hk as <-. destruct (decide (b = a)) as [->|].
      * rewrite Hra. eexists; split; [done|]. simpl.
        f_equal. eapply heap_wf_inj; eauto.
      * rewrite decide_True by done. rewrite Hrb. eexists; split; done.
    + destruct (decide (k = j)) as [->|Hkj].
      * injection Hk as <-. rewrite decide_True by done. rewrite Hra.
        eexists; split; done.
      * rewrite decide_False by (intros ->; apply Hki; eapply heap_wf_inj; eauto).
        rewrite decide_False by (intros ->; apply Hkj; eapply heap_wf_inj; eauto).
        by apply Hwf.
  - intros l r. rewrite (brh_Swap_mem h i j a b l Ha Hb).
    destruct (decide (l = a)) as [->|Hla].
    + rewrite Hra. intros [= <-] _. simpl. split; [lia|].
      rewrite Nat2Z.id, (brh_Swap_slice h i j a b j Ha Hb).
      destruct (decide (j = i)) as [->|]; [|by rewrite decide_True].
      congruence.
    + destruct (decide (l = b)) as [->|Hlb].
      * rewrite Hrb. intros [= <-] _. simpl. split; [lia|].
        rewrite Nat2Z.id, (brh_Swap_slice h i j a b i Ha Hb).
        by rewrite decide_True.
      * intros Hr Hx. destruct Hwf as [W1 W2].
        destruct (W2 _ _ Hr Hx) as [H0 Hp]. split; [done|].
        rewrite (brh_Swap_slice h i j a b _ Ha Hb).
        rewrite decide_False by (intros E; rewrite E in Hp; congruence).
        rewrite decide_False by (intros E; rewrite E in Hp; congruence).
        done.
Qed.

Lemma brh_Less_key h i j :
  heap_wf h → (i < brh_Len h)%nat → (j < brh_Len h)%nat →
  brh_Less h i j = key_lt (brh_key h i) (brh_key h j).
Proof.
  intros Hwf Hi Hj.
  destruct (heap_wf_at h i Hwf Hi) as (a & ra & Ha & Hra & _).
  destruct (heap_wf_at h j Hwf Hj) as (b & rb & Hb & Hrb & _).
  unfold brh_Less, brh_key, brh_at. rewrite Ha, Hb. simpl. by rewrite Hra, Hrb.
Qed.

Lemma brh_key_Swap h i j k :
  heap_wf h → (i < brh_Len h)%nat → (j < brh_Len h)%nat →
  brh_key (brh_Swap h i j) k =
    brh_key h (if decide (k = i) then j else if decide (k = j) then i else k).
Proof.
  intros Hwf Hi Hj.
  destruct (heap_wf_at h i Hwf Hi) as (a & ra & Ha & Hra & _).
  destruct (heap_wf_at h j Hwf Hj) as (b & rb & Hb & Hrb & _).
  unfold brh_key, brh_at. rewrite (brh_Swap_slice h i j a b k Ha Hb).
  destruct (decide (k = i)) as [->|Hki].
  - rewrite Hb. simpl. rewrite (brh_Swap_mem h i j a b b Ha Hb), Hrb.
    destruct (decide (b = a)) as [->|]; [by rewrite Hra in *; simplify_eq|].
    by rewrite decide_True.
  - destruct (decide (k = j)) as [->|Hkj].
    + rewrite Ha. simpl. rewrite (brh_Swap_mem h i j a b a Ha Hb), Hra.
      by rewrite decide_True.
    + destruct (h.2 !! k) as [l|] eqn:Hk; [|done]. simpl.
      rewrite (brh_Swap_mem h i j a b l Ha Hb).
      rewrite decide_False by (intros ->; apply Hki; eapply heap_wf_inj; eauto).
      rewrite decide_False by (intros ->; apply Hkj; eapply heap_wf_inj; eauto).
      done.
Qed.

Lemma brh_Swap_shape h i j :
  heap_wf h → (i < brh_Len h)%nat → (j < brh_Len h)%nat →
  shape (brh_Swap h i j).1 = shape h.1.
Proof.
  intros Hwf Hi Hj.
  destruct (heap_wf_at h i Hwf Hi) as (a & ra & Ha & Hra & Eia).
  destruct (heap_wf_at h j Hwf Hj) as (b & rb & Hb & Hrb & Eib).
  apply list_eq. intros l. unfold shape. rewrite !list_lookup_fmap.
  rewrite (brh_Swap_mem h i j a b l Ha Hb).
  destruct (decide (l = a)) as [->|].
  - rewrite Hra. simpl. f_equal. unfold erase. simpl. f_equal.
    rewrite !bool_decide_eq_false_2 by lia. done.
  - destruct (decide (l = b)) as [->|]; [|done].
    rewrite Hrb. simpl. f_equal. unfold erase. simpl. f_equal.
    rewrite !bool_decide_eq_false_2 by lia. done.
Qed.

Lemma heap_same_refl n h : heap_wf h → heap_same n h h.
Proof. intros. by split; [|split; [|split]]. Qed.

Lemma heap_same_Swap n h0 h i j :
  heap_same n h0 h → (i < n)%nat → (j < n)%nat → (n ≤ brh_Len h)%nat →
  heap_same n h0 (brh_Swap h i j).
Proof.
  intros (Hwf & Hs & Hl & Hk) Hi Hj Hn. unfold brh_Len in Hn.
  assert (i < brh_Len h)%nat by (unfold brh_Len; lia).
  assert (j < brh_Len h)%nat by (unfold brh_Len; lia).
  destruct (heap_wf_at h i Hwf) as (a & ra & Ha & _); [done|].
  destruct (heap_wf_at h j Hwf) as (b & rb & Hb & _); [done|].
  split; [|split; [|split]].
  - by apply brh_Swap_wf.
  - by rewrite brh_Swap_shape.
  - pose proof (brh_Len_Swap h i j) as E. unfold brh_Len in E. lia.
  - intros k Hnk. rewrite (brh_Swap_slice h i j a b k Ha Hb).
    rewrite !decide_False by lia. by apply Hk.
Qed.

Lemma brh_up_same h j :
  heap_wf h → (j < brh_Len h)%nat → heap_same (S j) h (container_heap.up h j).
Proof.
  intros Hwf Hj.
  apply (container_heap_theory.up_preserves (heap_same (S j) h) (S j)); try lia.
  - apply brh_Len_Swap.
  - intros h' i k HP Hi Hk Hb. by apply heap_same_Swap.
  - by apply heap_same_refl.
  - simpl. lia.
Qed.

Lemma brh_down_same h i n :
  heap_wf h → (n ≤ brh_Len h)%nat →
  heap_same n h (container_heap.down_loop h i n).1.
Proof.
  intros Hwf Hn.
  eapply (container_heap_theory.down_loop_preserves (heap_same n h) n).
  - apply brh_Len_Swap.
  - intros h' a b HP Ha Hb Hl. by apply heap_same_Swap.
  - reflexivity.
  - by apply heap_same_refl.
  - lia.
  - exact Hn.
Qed.

Lemma brh_up_ordered h j n :
  heap_wf h → (n ≤ brh_Len h)%nat → (j < n)%nat →
  container_heap.ordered_but_up brh_key key_lt h n j →
  container_heap.ordered brh_key key_lt (container_heap.up h j) n.
Proof.
  intros. eapply (container_heap_theory.up_ordered brh_key key_lt heap_wf); eauto.
  - apply key_lt_asym.
  - apply key_le_trans.
  - apply brh_Len_Swap.
  - apply brh_Swap_wf.
  - apply brh_Less_key.
  - intros. by apply brh_key_Swap.
Qed.

Lemma brh_down_ordered h i n :
  heap_wf h → (n ≤ brh_Len h)%nat → (i < n)%nat →
  container_heap.ordered_but_down brh_key key_lt h n i →
  container_heap.ordered brh_key key_lt (container_heap.down_loop h i n).1 n.
Proof.
  intros. eapply (container_heap_theory.down_loop_ordered brh_key key_lt heap_wf); eauto.
  - apply key_lt_asym.
  - apply key_le_trans.
  - apply brh_Len_Swap.
  - apply brh_Swap_wf.
  - apply brh_Less_key.
  - intros. by apply brh_key_Swap.
Qed.

Lemma brh_down_stays h i n :
  heap_wf h → (n ≤ brh_Len h)%nat → (i < n)%nat →
  (∀ k, (0 < k < n)%nat → parent k = i →
        container_heap.le key_lt (brh_key h i) (brh_key h k)) →
  container_heap.down_loop h i n = (h, i).
Proof.
  intros. eapply (container_heap_theory.down_loop_stays brh_key key_lt heap_wf); eauto.
  apply brh_Less_key.
Qed.

(** The key at a position depends on the pointer there and on the sort
    keys of the objects. *)
Lemma brh_key_ext h h' k :
  h.2 !! k = h'.2 !! k →
  (∀ l, h.2 !! k = Some l → sort_key <$> h.1 !! l = sort_key <$> h'.1 !! l) →
  brh_key h k = brh_key h' k.
Proof.
  intros E Hm. unfold brh_key, brh_at. rewrite <- E.
  destruct (h.2 !! k) as [l|] eqn:Hl; [|done]. simpl.
  specialize (Hm l eq_refl).
  destruct (h.1 !! l), (h'.1 !! l); simpl in *; congruence.
Qed.

Lemma shape_lookup m m' l r' :
  shape m' = shape m → m' !! l = Some r' →
  ∃ r, m !! l = Some r ∧ set_index 0 r' = set_index 0 r ∧ (index r' = -1 ↔ index r = -1).
Proof.
  intros Hs Hl. assert (shape m' !! l = shape m !! l) as E by (by rewrite Hs).
  unfold shape in E. rewrite !list_lookup_fmap, Hl in E.
  destruct (m !! l) as [r|]; [|done]. simpl in E.
  assert (erase r' = erase r) as E' by congruence.
  pose proof (f_equal fst E') as E1. pose proof (f_equal snd E') as E2.
  simpl in E1, E2. clear E E'.
  exists r. split; [done|]. split; [done|].
  destruct (decide (index r' = -1)) as [e1|n1], (decide (index r = -1)) as [e2|n2];
    try tauto.
  - rewrite bool_decide_eq_true_2, (bool_decide_eq_false_2 _ n2) in E2; done.
  - rewrite (bool_decide_eq_false_2 _ n1), bool_decide_eq_true_2 in E2; done.
Qed.

Lemma shape_sort_key m m' l :
  shape m' = shape m → sort_key <$> m' !! l = sort_key <$> m !! l.
Proof.
  intros Hs. assert (shape m' !! l = shape m !! l) as E by (by rewrite Hs).
  unfold shape in E. rewrite !list_lookup_fmap in E.
  destruct (m' !! l) as [r'|], (m !! l) as [r|]; try done. simpl in E.
  assert (erase r' = erase r) as E' by congruence.
  pose proof (f_equal fst E') as E1. simpl in E1.
  simpl. f_equal. unfold sort_key.
  change (priority r') with (priority (set_index 0 r')).
  change (insertionOrder r') with (insertionOrder (set_index 0 r')).
  by rewrite E1.
Qed.

Lemma shape_length m m' : shape m' = shape m → length m' = length m.
Proof. intros E. apply (f_equal length) in E. unfold shape in E. by rewrite !length_fmap in E. Qed.

Lemma alter_index_sort_key (m : list blockRetrieval) (x : nat) i (l : nat) :
  sort_key <$> alter (set_index i) x m !! l = sort_key <$> m !! l.
Proof.
  rewrite list_lookup_alter. case_decide; [subst|done]. by destruct (m !! l).
Qed.

Lemma alter_index_shape (m : list blockRetrieval) (x : nat) i r :
  m !! x = Some r → (i = -1 ↔ index r = -1) →
  shape (alter (set_index i) x m) = shape m.
Proof.
  intros Hx Hi. apply list_eq. intros l. unfold shape.
  rewrite !list_lookup_fmap, list_lookup_alter. case_decide; [subst|done].
  rewrite Hx. simpl. f_equal. unfold erase. simpl. f_equal.
  destruct (decide (i = -1)), (decide (index r = -1)); try tauto.
  - by rewrite !bool_decide_eq_true_2.
  - by rewrite !bool_decide_eq_false_2.
Qed.

Lemma alter_index_shape2 (m : list blockRetrieval) (x : nat) i j :
  (i = -1 ↔ j = -1) →
  shape (alter (set_index i) x m) = shape (alter (set_index j) x m).
Proof.
  intros Hi. apply list_eq. intros l. unfold shape.
  rewrite !list_lookup_fmap, !list_lookup_alter. case_decide; [subst|done].
  destruct (m !! l) as [r|]; [|done]. simpl. f_equal. unfold erase. simpl. f_equal.
  destruct (decide (i = -1)), (decide (j = -1)); try tauto.
  - by rewrite !bool_decide_eq_true_2.
  - by rewrite !bool_decide_eq_false_2.
Qed.

Lemma heap_wf_elem h (l : nat) :
  heap_wf h → l ∈ h.2 ↔ ∃ r, h.1 !! l = Some r ∧ index r ≠ -1.
Proof.
  intros [W1 W2]. rewrite list_elem_of_lookup. split.
  - intros [i Hi]. destruct (W1 _ _ Hi) as (r & Hr & E). exists r. split; [done|lia].
  - intros (r & Hr & Hx). destruct (W2 _ _ Hr Hx) as [_ Hp]. eauto.
Qed.

Lemma brh_Push_wf h (x : nat) r :
  heap_wf h → h.1 !! x = Some r → index r = -1 → heap_wf (brh_Push h x).
Proof.
  intros Hwf Hx Hi. pose proof Hwf as [W1 W2]. unfold brh_Push. split; simpl.
  - intros i l Hl. apply lookup_snoc_Some in Hl as [[Hlt Hl]|[-> <-]].
    + destruct (W1 _ _ Hl) as (r' & Hr' & E).
      rewrite list_lookup_alter_ne by (intros ->; simplify_eq; lia). eauto.
    + rewrite list_lookup_alter_eq, Hx. eexists; split; done.
  - intros l r'. rewrite list_lookup_alter. case_decide as E.
    + subst l. rewrite Hx. intros [= <-] _. simpl. split; [lia|].
      rewrite Nat2Z.id. apply list_lookup_middle. done.
    + intros Hr' Hne. destruct (W2 _ _ Hr' Hne) as [H0 Hp]. split; [done|].
      by apply lookup_app_l_Some.
Qed.

(** heap.Push of an object that is not in the heap. *)
Lemma Push_spec h (x : nat) r :
  heap_wf h → heap_ordered h → h.1 !! x = Some r → index r = -1 →
  heap_wf (container_heap.Push h x) ∧
  heap_ordered (container_heap.Push h x) ∧
  shape (container_heap.Push h x).1 = shape (alter (set_index 0) x h.1) ∧
  length (container_heap.Push h x).2 = S (length h.2).
Proof.
  intros Hwf Ho Hx Hi.
  pose proof (brh_Push_wf h x r Hwf Hx Hi) as Hwf1.
  unfold container_heap.Push. simpl.
  set (h1 := brh_Push h x) in *.
  assert (brh_Len h1 = S (length h.2)) as HL.
  { unfold brh_Len, h1, brh_Push. simpl. rewrite length_app. simpl. lia. }
  rewrite HL. replace (S (length h.2) - 1)%nat with (length h.2) by lia.
  destruct (brh_up_same h1 (length h.2) Hwf1 ltac:(lia)) as (Hwf2 & Hs & Hl & _).
  split; [done|]. split; [|split].
  - unfold heap_ordered. rewrite Hl. fold (brh_Len h1). rewrite HL.
    apply brh_up_ordered; [done|lia|lia|]. split.
    + intros k Hk Hne.
      assert (∀ k', (k' < length h.2)%nat → brh_key h1 k' = brh_key h k') as Hkey.
      { intros k' Hk'. apply brh_key_ext.
        - unfold h1, brh_Push. simpl. by rewrite lookup_app_l.
        - intros l _. unfold h1, brh_Push. simpl. apply alter_index_sort_key. }
      pose proof (parent_lt k ltac:(lia)).
      rewrite !Hkey by lia. apply Ho. lia.
    + intros k Hk _ Hp. pose proof (parent_lt k ltac:(lia)). lia.
  - rewrite Hs. unfold h1, brh_Push. simpl. apply alter_index_shape2. lia.
  - rewrite Hl. exact HL.
Qed.

Lemma shape_alter_index (m m' : list blockRetrieval) (x : nat) i :
  shape m' = shape m →
  shape (alter (set_index i) x m') = shape (alter (set_index i) x m).
Proof.
  intros Hs. apply list_eq. intros l.
  assert (shape m' !! l = shape m !! l) as E by (by rewrite Hs).
  unfold shape in *. rewrite !list_lookup_fmap in *. rewrite !list_lookup_alter.
  case_decide; [subst|done].
  destruct (m' !! l) as [r'|], (m !! l) as [r|]; try done. simpl in *.
  assert (erase r' = erase r) as E' by congruence.
  pose proof (f_equal fst E') as E1. simpl in E1.
  f_equal. unfold erase. f_equal. exact E1.
Qed.

(** heap.Pop of a non-empty heap returns the element at the root. *)
Lemma Pop_spec h :
  heap_wf h → heap_ordered h → (0 < brh_Len h)%nat →
  ∃ h' x r,
    container_heap.Pop h = Some (h', x) ∧
    h.2 !! 0%nat = Some x ∧ h.1 !! x = Some r ∧
    heap_wf h' ∧ heap_ordered h' ∧
    shape h'.1 = shape (alter (set_index (-1)) x h.1) ∧
    S (length h'.2) = length h.2.
Proof.
  intros Hwf Ho Hlen. unfold brh_Len in Hlen.
  set (n := (length h.2 - 1)%nat).
  destruct (heap_wf_at h 0 Hwf) as (x & r & Hx & Hr & Ex); [done|].
  destruct (heap_wf_at h n Hwf) as (y & ry & Hy & Hry & Ey); [unfold brh_Len; lia|].
  set (h1 := brh_Swap h 0 n).
  assert (heap_wf h1) as Hwf1 by (apply brh_Swap_wf; (done || unfold brh_Len; lia)).
  assert (length h1.2 = length h.2) as Hl1 by apply brh_Len_Swap.
  assert (shape h1.1 = shape h.1) as Hs1
    by (apply brh_Swap_shape; (done || unfold brh_Len; lia)).
  assert (h1.2 !! n = Some x) as Hx1.
  { unfold h1. rewrite (brh_Swap_slice h 0 n x y n Hx Hy).
    destruct (decide (n = 0%nat)) as [E|]; [|by rewrite decide_True].
    rewrite E in Hy. congruence. }
  set (h2 := (container_heap.down_loop h1 0 n).1).
  destruct (brh_down_same h1 0 n Hwf1) as (Hwf2 & Hs2 & Hl2 & Hk2);
    [unfold brh_Len; lia|]. fold h2 in Hwf2, Hs2, Hl2, Hk2.
  assert (h2.2 !! n = Some x) as Hx2 by (rewrite Hk2; [done|lia]).
  assert (container_heap.ordered brh_key key_lt h2 n) as Ho2.
  { destruct (decide (n = 0%nat)) as [E|Hn0]; [intros k Hk; lia|].
    apply brh_down_ordered; [done|unfold brh_Len; lia|lia|]. split.
    - intros k Hk Hp. pose proof (parent_lt k ltac:(lia)).
      unfold h1. rewrite !brh_key_Swap by (done || unfold brh_Len; lia).
      rewrite !decide_False by lia. apply Ho. lia.
    - intros; lia. }
  exists (alter (set_index (-1)) x h2.1, take n h2.2), x, r.
  assert (take n h2.2 = take (length h2.2 - 1) h2.2) as Etake
    by (f_equal; lia).
  split.
  { unfold container_heap.Pop, container_heap.down. simpl.
    change (brh_Len h - 1)%nat with n. fold h1. fold h2. unfold brh_Pop.
    rewrite last_lookup. replace (pred (length h2.2)) with n by lia.
    rewrite Hx2. by rewrite Etake. }
  split; [done|]. split; [done|].
  pose proof Hwf2 as [W1 W2].
  assert (∀ i l, take n h2.2 !! i = Some l → (i < n)%nat ∧ h2.2 !! i = Some l ∧ l ≠ x)
    as Htk.
  { intros i l Hi. apply lookup_take_Some in Hi as [Hi Hlt].
    split; [done|]. split; [done|]. intros ->.
    assert (i = n) by (eapply heap_wf_inj; eauto). lia. }
  split; [|split; [|split]].
  - split; simpl.
    + intros i l Hi. destruct (Htk _ _ Hi) as (Hlt & Hi2 & Hne).
      rewrite list_lookup_alter_ne by done. by apply W1.
    + intros l r'. rewrite list_lookup_alter. case_decide as E.
      * subst l. destruct (h2.1 !! x); [|done]. intros [= <-]. simpl. done.
      * intros Hr' Hne. destruct (W2 _ _ Hr' Hne) as [H0 Hp]. split; [done|].
        apply lookup_take_Some. split; [done|].
        pose proof (lookup_lt_Some _ _ _ Hp).
        assert (Z.to_nat (index r') ≠ n) by (intros E'; rewrite E' in Hp; congruence).
        lia.
  - unfold heap_ordered. simpl. rewrite length_take_le by lia.
    intros k Hk. pose proof (parent_lt k ltac:(lia)).
    assert (∀ k', (k' < n)%nat →
              brh_key (alter (set_index (-1)) x h2.1, take n h2.2) k' = brh_key h2 k')
      as Hkey.
    { intros k' Hk'. apply brh_key_ext; simpl.
      - by rewrite lookup_take_lt.
      - intros l _. apply alter_index_sort_key. }
    rewrite !Hkey by lia. by apply Ho2.
  - simpl. apply shape_alter_index. by rewrite Hs2.
  - simpl. rewrite length_take_le by lia. lia.
Qed.

Lemma set_priority_wf h (x : nat) p :
  heap_wf h → heap_wf (alter (set_priority p) x h.1, h.2).
Proof.
  intros [W1 W2]. split; simpl.
  - intros i l Hl. destruct (W1 _ _ Hl) as (r & Hr & E).
    rewrite list_lookup_alter. case_decide; [subst|eauto].
    rewrite Hr. eexists; split; done.
  - intros l r. rewrite list_lookup_alter. case_decide; [subst|by apply W2].
    destruct (h.1 !! l) as [r0|] eqn:Hr0; [|done]. intros [= <-]. simpl.
    by apply W2.
Qed.

(** heap.Fix after the priority of a queued retrieval has been raised. *)
Lemma Fix_raise h (x : nat) r p :
  heap_wf h → heap_ordered h → h.1 !! x = Some r → index r ≠ -1 → priority r < p →
  let h0 := (alter (set_priority p) x h.1, h.2) in
  let h' := container_heap.Fix h0 (Z.to_nat (index r)) in
  heap_wf h' ∧ heap_ordered h' ∧ shape h'.1 = shape h0.1 ∧ length h'.2 = length h.2.
Proof.
  intros Hwf Ho Hx Hi Hp h0 h'.
  pose proof Hwf as [W1 W2]. destruct (W2 _ _ Hx Hi) as [Hi0 Hpos].
  set (i := Z.to_nat (index r)) in *. set (n := length h.2).
  assert (i < n)%nat as Hin by (eapply lookup_lt_Some; eauto).
  pose proof (set_priority_wf h x p Hwf) as Hwf0. fold h0 in Hwf0.
  assert (∀ k, k ≠ i → brh_key h0 k = brh_key h k) as Hkey.
  { intros k Hk. apply brh_key_ext; [done|]. intros l Hl. simpl.
    rewrite list_lookup_alter_ne; [done|]. intros ->. apply Hk.
    eapply heap_wf_inj; eauto. }
  assert (container_heap.le key_lt (brh_key h0 i) (brh_key h i)) as Hle.
  { unfold container_heap.le, brh_key, brh_at, h0. simpl. rewrite Hpos. simpl.
    rewrite list_lookup_alter_eq, Hx. simpl. unfold key_lt. simpl.
    destruct (priority r >? p) eqn:E1; [lia|].
    destruct (priority r <? p) eqn:E2; [done|lia]. }
  assert (∀ k, (0 < k < n)%nat → parent k = i →
            container_heap.le key_lt (brh_key h0 i) (brh_key h k)) as Hch.
  { intros k Hk Hpk. eapply key_le_trans; [exact Hle|]. rewrite <- Hpk. by apply Ho. }
  assert (container_heap.down_loop h0 i n = (h0, i)) as Hdown.
  { apply brh_down_stays; [done|done|done|].
    intros k Hk Hpk. pose proof (parent_lt k ltac:(lia)).
    rewrite (Hkey k) by lia. by apply Hch. }
  assert (h' = container_heap.up h0 i) as ->.
  { unfold h', container_heap.Fix, container_heap.down. simpl.
    change (brh_Len h0) with n. rewrite Hdown. simpl.
    by rewrite bool_decide_eq_false_2 by lia. }
  destruct (brh_up_same h0 i Hwf0 Hin) as (Hwf' & Hs' & Hl' & _).
  split; [done|]. split; [|by split].
  unfold heap_ordered. rewrite Hl'. simpl. fold n.
  apply brh_up_ordered; [done|done|done|]. split.
  - intros k Hk Hne. pose proof (parent_lt k ltac:(lia)).
    rewrite (Hkey k) by done.
    destruct (decide (parent k = i)) as [Hpk|Hpk].
    + rewrite Hpk. by apply Hch.
    + rewrite (Hkey _ Hpk). by apply Ho.
  - intros k Hk Hi1 Hpk. pose proof (parent_lt k ltac:(lia)).
    pose proof (parent_lt i Hi1).
    rewrite (Hkey k), (Hkey (parent i)) by lia.
    eapply key_le_trans; [apply (Ho i); lia|]. rewrite <- Hpk. by apply Ho.
Qed.

Lemma view_lookup {A B} (f : A → B) (m m' : list A) (l : nat) r' :
  f <$> m' = f <$> m → m' !! l = Some r' → ∃ r, m !! l = Some r ∧ f r = f r'.
Proof.
  intros E Hl. assert ((f <$> m') !! l = (f <$> m) !! l) as E' by (by rewrite E).
  rewrite !list_lookup_fmap, Hl in E'. destruct (m !! l) as [r|]; [|done].
  exists r. split; [done|]. simpl in E'. congruence.
Qed.

Lemma view_alter {A B} (f : A → B) (g : A → A) (m : list A) (x : nat) :
  (∀ r, f (g r) = f r) → f <$> alter g x m = f <$> m.
Proof.
  intros Hg. apply list_eq. intros l. rewrite !list_lookup_fmap, list_lookup_alter.
  case_decide; [subst|done]. destruct (m !! l); [|done]. simpl. by rewrite Hg.
Qed.

Lemma view_length {A B} (f : A → B) (m m' : list A) :
  f <$> m' = f <$> m → length m' = length m.
Proof. intros E. apply (f_equal length) in E. by rewrite !length_fmap in E. Qed.

Lemma shape_payload m m' : shape m' = shape m → payload <$> m' = payload <$> m.
Proof.
  intros Hs. apply list_eq. intros l.
  assert (shape m' !! l = shape m !! l) as E by (by rewrite Hs).
  unfold shape in E. rewrite !list_lookup_fmap in *.
  destruct (m' !! l) as [r'|], (m !! l) as [r|]; try done. simpl in *.
  assert (erase r' = erase r) as E' by congruence.
  pose proof (f_equal fst E') as E1. simpl in E1. f_equal.
  change (payload r') with (payload (set_index 0 r')). by rewrite E1.
Qed.

Lemma heap_wf_ext (m m' : list blockRetrieval) (h : list nat) :
  qview <$> m' = qview <$> m → heap_wf (m, h) → heap_wf (m', h).
Proof.
  intros E [W1 W2]. split; simpl in *.
  - intros i l Hl. destruct (W1 _ _ Hl) as (r & Hr & Ei).
    destruct (view_lookup qview m' m l r (eq_sym E) Hr) as (r' & Hr' & Ev).
    exists r'. split; [done|]. injection Ev as Ev _ _. congruence.
  - intros l r' Hr' Hne.
    destruct (view_lookup qview m m' l r' E Hr') as (r & Hr & Ev).
    injection Ev as Ev _ _. rewrite <- Ev. apply W2; [done|congruence].
Qed.

Lemma heap_ordered_ext (m m' : list blockRetrieval) (h : list nat) :
  qview <$> m' = qview <$> m → heap_ordered (m, h) → heap_ordered (m', h).
Proof.
  intros E Ho k Hk. simpl in *.
  assert (∀ k', brh_key (m', h) k' = brh_key (m, h) k') as Hkey.
  { intros k'. apply brh_key_ext; [done|]. intros l _. simpl.
    assert ((qview <$> m') !! l = (qview <$> m) !! l) as E' by (by rewrite E).
    rewrite !list_lookup_fmap in E'.
    destruct (m' !! l) as [r'|], (m !! l) as [r|]; try done. simpl in *.
    unfold sort_key. injection E' as _ -> ->. done. }
  rewrite !Hkey. by apply Ho.
Qed.

(** ** Invariants of the queue *)

Lemma all_chans_ext m m' :
  requests <$> m' = requests <$> m → all_chans m' = all_chans m.
Proof. unfold all_chans. by intros ->. Qed.

Lemma all_chans_elem m ch :
  ch ∈ all_chans m ↔ ∃ l r w, m !! l = Some r ∧ w ∈ requests r ∧ doneCh w = ch.
Proof.
  unfold all_chans. rewrite <- list_fmap_compose. rewrite list_elem_of_join. split.
  - intros (cs & Hch & Hcs). apply list_elem_of_fmap in Hcs as (r & -> & Hr).
    apply list_elem_of_lookup in Hr as [l Hl]. simpl in Hch.
    apply list_elem_of_fmap in Hch as (w & -> & Hw). eauto 10.
  - intros (l & r & w & Hl & Hw & <-). exists (doneCh <$> requests r). split.
    + apply list_elem_of_fmap. eauto.
    + apply list_elem_of_fmap. exists r. split; [done|].
      apply list_elem_of_lookup. eauto.
Qed.

Lemma mview_fields r r' :
  mview r = mview r' →
  blockPtr r = blockPtr r' ∧ finalized r = finalized r' ∧ requests r = requests r' ∧
  insertionOrder r = insertionOrder r' ∧ (queued r ↔ queued r').
Proof.
  unfold mview, queued. intros E. injection E as E1 E2 E3 E4 E5.
  assert (index r = -1 ↔ index r' = -1) as Hi.
  { rewrite <- (bool_decide_eq_true (index r = -1)), E5. apply bool_decide_eq_true. }
  repeat split; try done; tauto.
Qed.

Lemma mview_requests (m m' : list blockRetrieval) :
  mview <$> m' = mview <$> m → requests <$> m' = requests <$> m.
Proof.
  intros E. apply (f_equal (fmap (λ v : nat * bool * list blockRetrievalRequest * Z * bool,
                                    v.1.1.2))) in E.
  by rewrite <- !list_fmap_compose in E.
Qed.

Lemma MemInv_ext p m m' c :
  mview <$> m' = mview <$> m → MemInv p m c → MemInv p m' c.
Proof.
  intros Hv [R Q N V E O].
  assert (∀ l r', m' !! l = Some r' → ∃ r, m !! l = Some r ∧ mview r = mview r') as Hback
    by (intros; by eapply view_lookup).
  assert (∀ l r, m !! l = Some r → ∃ r', m' !! l = Some r' ∧ mview r' = mview r) as Hforth
    by (intros; by eapply view_lookup).
  pose proof (all_chans_ext m m' (mview_requests m m' Hv)) as Hch.
  split.
  - intros k l Hk. destruct (R _ _ Hk) as (r & Hr & Eb & Ef).
    destruct (Hforth _ _ Hr) as (r' & Hr' & Ev).
    destruct (mview_fields _ _ Ev) as (? & ? & ? & ? & ?).
    exists r'. repeat split; congruence.
  - intros l r' Hr' Hq. destruct (Hback _ _ Hr') as (r & Hr & Ev).
    destruct (mview_fields _ _ Ev) as (? & <- & ? & ? & Hqq). apply (Q l r Hr). tauto.
  - by rewrite Hch.
  - intros ch. rewrite Hch. apply V.
  - intros l r' w Hr' Hf Hw. destruct (Hback _ _ Hr') as (r & Hr & Ev).
    destruct (mview_fields _ _ Ev) as (? & ? & ? & ? & ?).
    apply (E l r w Hr); congruence.
  - intros l r' Hr'. destruct (Hback _ _ Hr') as (r & Hr & Ev).
    destruct (mview_fields _ _ Ev) as (? & ? & ? & <- & ?). by apply O.
Qed.

Lemma shape_mview (m m' : list blockRetrieval) :
  shape m' = shape m → mview <$> m' = mview <$> m.
Proof.
  intros Hs. apply list_eq. intros l.
  assert (shape m' !! l = shape m !! l) as E by (by rewrite Hs).
  unfold shape in E. rewrite !list_lookup_fmap in *.
  destruct (m' !! l) as [r'|], (m !! l) as [r|]; try done. simpl in *.
  assert (erase r' = erase r) as E' by congruence.
  pose proof (f_equal fst E') as E1. pose proof (f_equal snd E') as E2.
  simpl in E1, E2. f_equal. unfold mview. rewrite E2.
  change (blockPtr r') with (blockPtr (set_index 0 r')).
  change (finalized r') with (finalized (set_index 0 r')).
  change (requests r') with (requests (set_index 0 r')).
  change (insertionOrder r') with (insertionOrder (set_index 0 r')).
  by rewrite E1.
Qed.

Lemma MemInv_shape p m m' c :
  shape m' = shape m → MemInv p m c → MemInv p m' c.
Proof. intros Hs. apply MemInv_ext. by apply shape_mview. Qed.

Lemma shape_fields m m' l r' :
  shape m' = shape m → m' !! l = Some r' →
  ∃ r, m !! l = Some r ∧ payload r = payload r' ∧
       priority r = priority r' ∧ insertionOrder r = insertionOrder r' ∧
       (index r' = -1 ↔ index r = -1).
Proof.
  intros Hs Hl. destruct (shape_lookup m m' l r' Hs Hl) as (r & Hr & E & Hi).
  exists r. split; [done|].
  change (payload r) with (payload (set_index 0 r)).
  change (priority r) with (priority (set_index 0 r)).
  change (insertionOrder r) with (insertionOrder (set_index 0 r)).
  rewrite <- E. done.
Qed.

(** A write to one object that keeps what the registry and the waiters
    depend on. *)
Lemma MemInv_alter p (m : list blockRetrieval) c (x : nat) (g : blockRetrieval → blockRetrieval) :
  (∀ r, m !! x = Some r →
     blockPtr (g r) = blockPtr r ∧ finalized (g r) = finalized r ∧
     requests (g r) = requests r ∧ insertionOrder (g r) = insertionOrder r ∧
     (queued (g r) → queued r ∨ finalized r = false)) →
  MemInv p m c → MemInv p (alter g x m) c.
Proof.
  intros Hg [R Q N V E O].
  assert (requests <$> alter g x m = requests <$> m) as Hreq.
  { apply list_eq. intros l. rewrite !list_lookup_fmap, list_lookup_alter.
    case_decide; [subst|done]. destruct (m !! l) as [r|] eqn:Hr; [|done]. simpl.
    destruct (Hg r eq_refl) as (_ & _ & -> & _). done. }
  pose proof (all_chans_ext _ _ Hreq) as Hch.
  assert (∀ l r', alter g x m !! l = Some r' →
            ∃ r, m !! l = Some r ∧ blockPtr r' = blockPtr r ∧
                 finalized r' = finalized r ∧ requests r' = requests r ∧
                 insertionOrder r' = insertionOrder r ∧
                 (queued r' → queued r ∨ finalized r = false)) as Hback.
  { intros l r'. rewrite list_lookup_alter. case_decide; [subst|].
    - destruct (m !! l) as [r|] eqn:Hr; [|done]. intros [= <-].
      exists r. split; [done|]. by apply Hg.
    - intros Hr. exists r'. repeat split; auto. }
  split.
  - intros k l Hk. destruct (R _ _ Hk) as (r & Hr & Eb & Ef).
    rewrite list_lookup_alter. case_decide; [subst|eauto].
    rewrite Hr. simpl. destruct (Hg r Hr) as (? & ? & _).
    eexists; split; [done|]. split; congruence.
  - intros l r' Hr' Hq. destruct (Hback _ _ Hr') as (r & Hr & _ & -> & _ & _ & Hqq).
    destruct (Hqq Hq); [by eapply Q|done].
  - by rewrite Hch.
  - intros ch. rewrite Hch. apply V.
  - intros l r' w Hr' Hf Hw. destruct (Hback _ _ Hr') as (r & Hr & _ & Ef & Er & _).
    apply (E l r w Hr); congruence.
  - intros l r' Hr'. destruct (Hback _ _ Hr') as (r & Hr & _ & _ & _ & -> & _). by apply O.
Qed.

(** popIfNotEmpty: nothing on an empty heap, the root otherwise. *)
Lemma popIfNotEmpty_spec s :
  Inv s →
  (heap s = [] ∧ popIfNotEmpty s = (s, None)) ∨
  (∃ x r h',
     heap s !! 0%nat = Some x ∧ retrievals s !! x = Some r ∧
     popIfNotEmpty s = (set_heap h' s, Some x) ∧ Inv (set_heap h' s) ∧
     shape h'.1 = shape (alter (set_index (-1)) x (retrievals s)) ∧
     S (length h'.2) = length (heap s)).
Proof.
  intros [Hwf Ho Hm Hc Hq1 Hq2]. unfold popIfNotEmpty.
  change (container_heap.Len (the_heap s)) with (length (heap s)).
  destruct (decide (0 < length (heap s))%nat) as [Hlen|Hlen].
  2:{ left. split; [|done]. destruct (heap s); [done|simpl in Hlen; lia]. }
  right. destruct (Pop_spec (the_heap s) Hwf Ho Hlen)
    as (h' & x & r & HP & Hx & Hr & Hwf' & Ho' & Hs' & Hl').
  exists x, r, h'. rewrite HP. destruct h' as [m' hl'].
  split; [done|]. split; [done|]. split; [done|]. split; [|by split].
  constructor; simpl; try done.
  - eapply MemInv_shape; [exact Hs'|]. apply MemInv_alter; [|done].
    intros r0 _. repeat split. unfold queued. simpl. done.
  - pose proof (shape_length _ _ Hs') as E. simpl in E.
    by rewrite E, length_alter.
Qed.

Lemma NoDup_join_lookup {A} (ls : list (list A)) (i : nat) a :
  NoDup (mjoin ls) → ls !! i = Some a → NoDup a.
Proof.
  revert i. induction ls as [|b ls IH]; intros i Hn Hi; [done|].
  simpl in Hn. apply NoDup_app in Hn as (Hb & _ & Hls).
  destruct i as [|i]; simpl in Hi; [by simplify_eq|]. by eapply IH.
Qed.

Lemma NoDup_join_disjoint {A} (ls : list (list A)) (i j : nat) a b x :
  NoDup (mjoin ls) → i ≠ j → ls !! i = Some a → ls !! j = Some b →
  x ∈ a → x ∈ b → False.
Proof.
  revert i j. induction ls as [|c ls IH]; intros i j Hn Hij Hi Hj Ha Hb; [done|].
  simpl in Hn. apply NoDup_app in Hn as (Hc & Hd & Hls).
  destruct i as [|i], j as [|j]; simpl in *; simplify_eq.
  - apply (Hd x Ha). apply list_elem_of_join. exists b. split; [done|].
    by eapply list_elem_of_lookup_2.
  - apply (Hd x Hb). apply list_elem_of_join. exists a. split; [done|].
    by eapply list_elem_of_lookup_2.
  - eapply (IH i j); eauto.
Qed.

Lemma all_chans_lookup (m : list blockRetrieval) (l : nat) r :
  m !! l = Some r →
  ((λ q, doneCh <$> q) <$> (requests <$> m)) !! l = Some (doneCh <$> requests r).
Proof. intros Hl. by rewrite !list_lookup_fmap, Hl. Qed.

Lemma chans_NoDup m (l : nat) r :
  NoDup (all_chans m) → m !! l = Some r → NoDup (doneCh <$> requests r).
Proof.
  intros Hn Hl. eapply NoDup_join_lookup; [exact Hn|]. by apply all_chans_lookup.
Qed.

Lemma chans_disjoint m (l l' : nat) r r' w w' :
  NoDup (all_chans m) → l ≠ l' → m !! l = Some r → m !! l' = Some r' →
  w ∈ requests r → w' ∈ requests r' → doneCh w ≠ doneCh w'.
Proof.
  intros Hn Hne Hl Hl' Hw Hw' E.
  eapply (NoDup_join_disjoint _ l l' _ _ (doneCh w) Hn Hne);
    [by apply all_chans_lookup|by apply all_chans_lookup| |].
  - by apply list_elem_of_fmap_2.
  - rewrite E. by apply list_elem_of_fmap_2.
Qed.

(** ** FinalizeRequest *)

Lemma deliver_length chs : ∀ c err, length (deliver c chs err) = length c.
Proof.
  induction chs as [|ch chs IH]; intros c err; simpl; [done|].
  by rewrite IH, length_insert.
Qed.

Lemma deliver_lookup_ne chs : ∀ c err (ch : nat),
  ch ∉ chs → deliver c chs err !! ch = c !! ch.
Proof.
  induction chs as [|x chs IH]; intros c err ch Hch; simpl; [done|].
  apply not_elem_of_cons in Hch as [Hne Hch].
  rewrite IH by done. by rewrite list_lookup_insert_ne.
Qed.

Lemma deliver_lookup chs : ∀ c err (ch : nat),
  NoDup chs → ch ∈ chs → (ch < length c)%nat → deliver c chs err !! ch = Some [err].
Proof.
  induction chs as [|x chs IH]; intros c err ch Hn Hch Hlt; simpl.
  { by apply elem_of_nil in Hch. }
  apply NoDup_cons in Hn as [Hx Hn].
  apply elem_of_cons in Hch as [->|Hch].
  - rewrite deliver_lookup_ne by done. by apply list_lookup_insert_eq.
  - apply IH; [done|done|]. by rewrite length_insert.
Qed.

Lemma notify_requests_spec reqs blk err : ∀ s,
  NoDup (doneCh <$> reqs) →
  (∀ w, w ∈ reqs → errChans s !! doneCh w = Some []) →
  notify_requests reqs blk err s =
    Some (set_targets (populate (targets s) reqs blk)
            (set_errChans (deliver (errChans s) (doneCh <$> reqs) err) s),
          notify_events reqs blk err).
Proof.
  induction reqs as [|w reqs IH]; intros s Hn He.
  { simpl. destruct s, blk; reflexivity. }
  rewrite fmap_cons in Hn. apply NoDup_cons in Hn as [Hw Hn].
  assert (errChans s !! doneCh w = Some []) as Hch by (apply He; left).
  simpl.
  assert (∀ s1, errChans s1 = errChans s →
            send (errChans s1) (doneCh w) err = Some (<[doneCh w := [err]]> (errChans s)))
    as Hsend.
  { intros s1 ->. unfold send. rewrite Hch. simpl. done. }
  assert (∀ w', w' ∈ reqs → <[doneCh w := [err]]> (errChans s) !! doneCh w' = Some [])
    as He'.
  { intros w' Hw'. rewrite list_lookup_insert_ne; [apply He; by right|].
    intros E. apply Hw. rewrite E. by apply list_elem_of_fmap_2. }
  destruct blk as [b|].
  - rewrite (Hsend (set_targets _ s) eq_refl).
    rewrite IH by done. simpl. destruct s; reflexivity.
  - rewrite (Hsend s eq_refl).
    rewrite IH by done. simpl. destruct s; reflexivity.
Qed.

Lemma FinalizeRequest_spec l blk err s r :
  Inv s → retrievals s !! l = Some r → index r = -1 → finalized r = false →
  FinalizeRequest l blk err s =
    Some (finalize_state l blk err r s, notify_events (requests r) blk err) ∧
  Inv (finalize_state l blk err r s).
Proof.
  intros [Hwf Ho Hm Hc Hq1 Hq2] Hl Hi Hf. pose proof Hm as [R Q N V E O]. split.
  - unfold FinalizeRequest. rewrite Hl.
    rewrite notify_requests_spec.
    + reflexivity.
    + by eapply chans_NoDup.
    + intros w Hw. simpl. by eapply E.
  - set (g := λ r : blockRetrieval, set_ctx (cancelFunc (ctx r)) r).
    assert (qview <$> alter g l (retrievals s) = qview <$> retrievals s) as Hqv
      by (by apply view_alter).
    assert (requests <$> alter g l (retrievals s) = requests <$> retrievals s) as Hrq
      by (by apply view_alter).
    constructor; simpl; fold g.
    + by apply (heap_wf_ext _ _ _ Hqv).
    + by apply (heap_ordered_ext _ _ _ Hqv).
    + split.
      * intros k l' Hk. apply lookup_delete_Some in Hk as [Hne Hk].
        destruct (R _ _ Hk) as (r' & Hr' & Eb & Ef).
        rewrite list_lookup_alter_ne; [eauto|].
        intros ->. rewrite Hl in Hr'. injection Hr' as <-. done.
      * intros l' r'. rewrite list_lookup_alter. case_decide; [subst|by apply Q].
        rewrite Hl. intros [= <-]. unfold queued. simpl. done.
      * by rewrite (all_chans_ext _ _ Hrq).
      * intros ch. rewrite (all_chans_ext _ _ Hrq), deliver_length. apply V.
      * intros l' r' w. rewrite list_lookup_alter. case_decide; [subst|].
        { rewrite Hl. intros [= <-]. unfold finalized. simpl. done. }
        intros Hr' Hf' Hw. rewrite deliver_lookup_ne; [by eapply E|].
        intros Hin. apply list_elem_of_fmap in Hin as (w0 & E0 & Hw0).
        eapply (chans_disjoint (retrievals s) l l' r r' w0 w); eauto.
      * intros l' r'. rewrite list_lookup_alter. case_decide; [subst|by apply O].
        rewrite Hl. intros [= <-]. simpl. by apply O.
    + by rewrite length_alter.
    + done.
    + done.
Qed.

(** ** Request *)

Lemma elem_join_alter_snoc {A} (ls : list (list A)) (i : nat) (x y : A) :
  y ∈ mjoin (alter (λ a, a ++ [x]) i ls) → y = x ∨ y ∈ mjoin ls.
Proof.
  revert i. induction ls as [|b ls IH]; intros i Hy; [by right|].
  destruct i as [|i]; simpl in *.
  - rewrite !elem_of_app, list_elem_of_singleton in Hy. rewrite elem_of_app. tauto.
  - rewrite elem_of_app in Hy. rewrite elem_of_app.
    destruct Hy as [?|Hy]; [tauto|]. destruct (IH _ Hy); tauto.
Qed.

Lemma NoDup_join_alter_snoc {A} (ls : list (list A)) (i : nat) (x : A) :
  NoDup (mjoin ls) → x ∉ mjoin ls → NoDup (mjoin (alter (λ a, a ++ [x]) i ls)).
Proof.
  revert i. induction ls as [|b ls IH]; intros i Hn Hx; [done|].
  simpl in Hn, Hx. apply NoDup_app in Hn as (Hb & Hd & Hls).
  rewrite elem_of_app in Hx.
  destruct i as [|i]; simpl; apply NoDup_app.
  - split; [|split; [|done]].
    + apply NoDup_app. split; [done|]. split; [|apply NoDup_singleton].
      intros y Hy. rewrite list_elem_of_singleton. intros ->. tauto.
    + intros y. rewrite elem_of_app, list_elem_of_singleton.
      intros [Hy| ->]; [by apply Hd|tauto].
  - split; [done|]. split; [|apply IH; tauto].
    intros y Hy Hy'. destruct (elem_join_alter_snoc _ _ _ _ Hy') as [->|?]; [tauto|].
    by apply (Hd y).
Qed.

Lemma all_chans_attach (m : list blockRetrieval) (br : nat) w :
  all_chans (alter (λ r, set_requests (requests r ++ [w]) r) br m) =
  mjoin (alter (λ a, a ++ [doneCh w]) br ((λ q, doneCh <$> q) <$> (requests <$> m))).
Proof.
  unfold all_chans. f_equal. rewrite <- !list_fmap_compose.
  apply list_fmap_alter. apply Forall_forall. intros r _. simpl. by rewrite fmap_app.
Qed.

Lemma MemInv_attach p (m : list blockRetrieval) c (br : nat) r blk :
  MemInv p m c → m !! br = Some r → finalized r = false →
  MemInv p (alter (λ r, set_requests (requests r ++ [mkRequest blk (length c)]) r) br m)
    (c ++ [[]]).
Proof.
  intros [R Q N V E O] Hbr Hf.
  set (g := λ r : blockRetrieval, set_requests (requests r ++ [mkRequest blk (length c)]) r).
  assert (length c ∉ all_chans m) as Hfresh by (intros Hin; apply V in Hin; lia).
  split.
  - intros k l Hk. destruct (R _ _ Hk) as (r' & Hr' & Eb & Ef).
    rewrite list_lookup_alter. case_decide; [subst|eauto].
    rewrite Hr'. eexists; split; done.
  - intros l r'. rewrite list_lookup_alter. case_decide; [subst|by apply Q].
    rewrite Hbr. intros [= <-]. apply (Q _ _ Hbr).
  - unfold g. rewrite all_chans_attach. by apply NoDup_join_alter_snoc.
  - intros ch. unfold g. rewrite all_chans_attach, length_app. simpl.
    intros Hch. destruct (elem_join_alter_snoc _ _ _ _ Hch) as [->|Hch'].
    + simpl. lia.
    + apply V in Hch'. lia.
  - intros l r' w. rewrite list_lookup_alter. case_decide; [subst|].
    + rewrite Hbr. intros [= <-]. simpl. intros Hf'.
      rewrite elem_of_app, list_elem_of_singleton. intros [Hw| ->].
      * apply lookup_app_l_Some. by eapply E.
      * simpl. by apply list_lookup_middle.
    + intros Hr' Hf' Hw. apply lookup_app_l_Some. by eapply E.
  - intros l r'. rewrite list_lookup_alter. case_decide; [subst|by apply O].
    rewrite Hbr. intros [= <-]. simpl. by apply O.
Qed.

Lemma Request_attach_spec br prio blk s r :
  Inv s → retrievals s !! br = Some r → finalized r = false →
  ∃ s', Request_attach br prio blk s = Some (s', length (errChans s)) ∧ Inv s' ∧
    ptrs s' = ptrs s ∧ insertionCount s' = insertionCount s ∧
    attempts s' = attempts s ∧ length (heap s') = length (heap s) ∧
    errChans s' = errChans s ++ [[]] ∧ same_workers s s' ∧
    shape (retrievals s') =
      shape (alter (attach_update prio (mkRequest blk (length (errChans s)))) br
               (retrievals s)).
Proof.
  intros [Hwf Ho Hm Hc Hq1 Hq2] Hbr Hf.
  set (w := mkRequest blk (length (errChans s))).
  set (g := λ r : blockRetrieval, set_requests (requests r ++ [w]) r).
  set (m2 := alter g br (retrievals s)).
  assert (qview <$> m2 = qview <$> retrievals s) as Hqv by (by apply view_alter).
  assert (m2 !! br = Some (g r)) as Hbr2
    by (unfold m2; by rewrite list_lookup_alter_eq, Hbr).
  pose proof (MemInv_attach _ _ _ br r blk Hm Hbr Hf) as Hm2. fold w g m2 in Hm2.
  pose proof (heap_wf_ext _ _ _ Hqv Hwf) as Hwf2.
  pose proof (heap_ordered_ext _ _ _ Hqv Ho) as Ho2.
  unfold Request_attach. simpl. fold w g m2. rewrite Hbr2.
  destruct (bool_decide (index (g r) ≠ -1) && (prio >? priority (g r))) eqn:Eraise.
  - apply andb_true_iff in Eraise as [Ei Ep].
    apply bool_decide_eq_true in Ei. apply Z.gtb_lt in Ep.
    pose proof (Fix_raise (m2, heap s) br (g r) prio Hwf2 Ho2 Hbr2 Ei Ep) as HF.
    cbv zeta in HF.
    eexists. split; [reflexivity|].
    change (the_heap _) with (alter (set_priority prio) br m2, heap s).
    set (h' := container_heap.Fix _ _) in *.
    destruct HF as (Hwf' & Ho' & Hs' & Hl').
    destruct h' as [m' hl']. simpl in *.
    split; [|repeat split; try done].
    + constructor; simpl; try done.
      * eapply MemInv_shape; [exact Hs'|]. apply MemInv_alter; [|done].
        intros r0 _. repeat split; auto.
      * pose proof (shape_length _ _ Hs') as E.
        rewrite E. unfold m2. by rewrite !length_alter.
    + rewrite Hs'. f_equal. unfold m2. rewrite list_alter_alter_eq.
      apply list_alter_ext; [|done]. intros r0 Hr0. rewrite Hbr in Hr0.
      injection Hr0 as <-. unfold attach_update. simpl. fold w.
      change (set_requests (requests r ++ [w]) r) with (g r).
      rewrite bool_decide_eq_true_2 by done.
      by rewrite (proj2 (Z.gtb_lt _ _) Ep).
  - eexists. split; [reflexivity|]. simpl.
    split; [|repeat split; try done].
    + constructor; simpl; try done.
      unfold m2. by rewrite length_alter.
    + f_equal. unfold m2. apply list_alter_ext; [|done]. intros r0 Hr0.
      rewrite Hbr in Hr0. injection Hr0 as <-. unfold attach_update. fold w.
      change (set_requests (requests r ++ [w]) r) with (g r).
      by rewrite Eraise.
Qed.

Lemma all_chans_snoc (m : list blockRetrieval) r :
  all_chans (m ++ [r]) = all_chans m ++ (doneCh <$> requests r).
Proof.
  unfold all_chans. rewrite !fmap_app, join_app. simpl. by rewrite app_nil_r.
Qed.

Lemma MemInv_alloc p (m : list blockRetrieval) c (ptr : nat) r :
  MemInv p m c → requests r = [] → finalized r = false → blockPtr r = ptr →
  insertionOrder r = Z.of_nat (length m) mod uint64_modulus →
  MemInv (<[ptr := length m]> p) (m ++ [r]) c.
Proof.
  intros [R Q N V E O] Hreq Hf Hb Hio.
  split.
  - intros k l Hk. apply lookup_insert_Some in Hk as [[<- <-]|[Hne Hk]].
    + exists r. split; [by apply list_lookup_middle|done].
    + destruct (R _ _ Hk) as (r' & Hr' & ? & ?). exists r'.
      split; [by apply lookup_app_l_Some|done].
  - intros l r' Hl. apply lookup_snoc_Some in Hl as [[_ Hl]|[_ <-]]; [by eapply Q|done].
  - by rewrite all_chans_snoc, Hreq, app_nil_r.
  - intros ch. rewrite all_chans_snoc, Hreq, app_nil_r. apply V.
  - intros l r' w Hl. apply lookup_snoc_Some in Hl as [[_ Hl]|[_ <-]]; [by eapply E|].
    rewrite Hreq. intros _ Hw. by apply elem_of_nil in Hw.
  - intros l r' Hl. apply lookup_snoc_Some in Hl as [[_ Hl]|[-> <-]]; [by eapply O|done].
Qed.

Lemma heap_wf_alloc (m : list blockRetrieval) (h : list nat) r :
  heap_wf (m, h) → index r = -1 → heap_wf (m ++ [r], h).
Proof.
  intros [W1 W2] Hi. split; simpl in *.
  - intros i l Hl. destruct (W1 _ _ Hl) as (r' & Hr' & E). exists r'.
    split; [by apply lookup_app_l_Some|done].
  - intros l r' Hl. apply lookup_snoc_Some in Hl as [[_ Hl]|[_ <-]]; [by apply W2|done].
Qed.

Lemma heap_ordered_alloc (m : list blockRetrieval) (h : list nat) r :
  heap_wf (m, h) → heap_ordered (m, h) → heap_ordered (m ++ [r], h).
Proof.
  intros [W1 _] Ho k Hk. simpl in *.
  assert (∀ k', brh_key (m ++ [r], h) k' = brh_key (m, h) k') as Hkey.
  { intros k'. apply brh_key_ext; [done|]. simpl. intros l Hl.
    destruct (W1 _ _ Hl) as (r' & Hr' & _).
    by rewrite (lookup_app_l_Some _ _ _ _ Hr'), Hr'. }
  rewrite !Hkey. by apply Ho.
Qed.

Lemma shape_alter (m m' : list blockRetrieval) (x : nat) g :
  (∀ r r', erase r' = erase r → erase (g r') = erase (g r)) →
  shape m' = shape m → shape (alter g x m') = shape (alter g x m).
Proof.
  intros Hg Hs. apply list_eq. intros l.
  assert (shape m' !! l = shape m !! l) as E by (by rewrite Hs).
  unfold shape in *. rewrite !list_lookup_fmap in *. rewrite !list_lookup_alter.
  case_decide; [subst|done].
  destruct (m' !! l) as [r'|], (m !! l) as [r|]; try done. simpl in *.
  f_equal. apply Hg. congruence.
Qed.

Lemma erase_attach_update prio w r r' :
  erase r' = erase r → erase (attach_update prio w r') = erase (attach_update prio w r).
Proof.
  intros E. pose proof (f_equal fst E) as E1. pose proof (f_equal snd E) as E2.
  simpl in E1, E2.
  assert (priority r' = priority r) as Ep.
  { change (priority (set_index 0 r') = priority (set_index 0 r)). by rewrite E1. }
  assert (requests r' = requests r) as Er.
  { change (requests (set_index 0 r') = requests (set_index 0 r)). by rewrite E1. }
  assert (bool_decide (index r' ≠ -1) = bool_decide (index r ≠ -1)) as Eb.
  { destruct (decide (index r' = -1)) as [e|n], (decide (index r = -1)) as [e'|n'].
    - by rewrite !bool_decide_eq_false_2 by tauto.
    - rewrite (bool_decide_eq_true_2 _ e), (bool_decide_eq_false_2 _ n') in E2. done.
    - rewrite (bool_decide_eq_false_2 _ n), (bool_decide_eq_true_2 _ e') in E2. done.
    - by rewrite !bool_decide_eq_true_2 by tauto. }
  unfold attach_update. simpl. rewrite Eb, Ep, Er.
  destruct (bool_decide (index r ≠ -1) && (prio >? priority r)); unfold erase; simpl;
    f_equal; try done.
  - change (set_priority prio (set_requests (requests r ++ [w]) (set_index 0 r')) =
            set_priority prio (set_requests (requests r ++ [w]) (set_index 0 r))).
    by rewrite E1.
  - change (set_requests (requests r ++ [w]) (set_index 0 r') =
            set_requests (requests r ++ [w]) (set_index 0 r)).
    by rewrite E1.
Qed.

Lemma Request_loop_create fuel canceled pass c prio md ptr blk s :
  Inv s → ptrs s !! ptr = None →
  ∃ s', Request_loop (S fuel) canceled pass c prio md ptr blk s
          = Some (s', length (errChans s), S pass) ∧ Inv s' ∧
    ptrs s' = <[ptr := length (retrievals s)]> (ptrs s) ∧
    insertionCount s' = (insertionCount s + 1) mod uint64_modulus ∧
    attempts s' = S (attempts s) ∧ length (heap s') = S (length (heap s)) ∧
    errChans s' = errChans s ++ [[]] ∧ same_workers s s' ∧
    shape (retrievals s') =
      shape (retrievals s ++
               [new_retrieval c prio md ptr (mkRequest blk (length (errChans s)))
                  (insertionCount s)]).
Proof.
  intros [Hwf Ho Hm Hc Hq1 Hq2] Hnone. simpl. rewrite Hnone.
  set (br := length (retrievals s)).
  set (r := {| blockPtr := ptr; kmd := md; ctx := NewCoalescingContext c;
               requests := []; index := -1; priority := prio;
               insertionOrder := insertionCount s |}).
  set (s3 := set_ptrs <[ptr:=br]>
               (set_insertionCount _ (set_retrievals (retrievals s ++ [r]) s))).
  assert ((the_heap s3).1 !! br = Some r) as Hbr by (by apply list_lookup_middle).
  destruct (Push_spec (the_heap s3) br r) as (Hwf4 & Ho4 & Hs4 & Hl4); try done.
  { by apply heap_wf_alloc. }
  { by apply heap_ordered_alloc. }
  set (h4 := container_heap.Push (the_heap s3) br) in *.
  assert (alter (set_index 0) br (retrievals s ++ [r]) = retrievals s ++ [set_index 0 r])
    as Ealt.
  { unfold br. replace (length (retrievals s)) with (length (retrievals s) + 0)%nat by lia.
    by rewrite alter_app_r. }
  simpl in Hs4. rewrite Ealt in Hs4.
  assert (Inv (set_heap h4 s3)) as Hinv4.
  { destruct h4 as [m4 hl4]. constructor; simpl in *; try done.
    - eapply MemInv_shape; [exact Hs4|]. by apply MemInv_alloc.
    - rewrite (shape_length _ _ Hs4), !length_app. simpl.
      rewrite Hc, Nat2Z.inj_add. simpl. by rewrite Zplus_mod_idemp_l. }
  destruct (shape_lookup h4.1 (retrievals s ++ [set_index 0 r]) br (set_index 0 r))
    as (r4 & Hr4 & E4 & Hi4).
  { by symmetry. }
  { by apply list_lookup_middle. }
  destruct (Request_attach_spec br prio blk (set_heap h4 s3) r4 Hinv4)
    as (s5 & Hatt & Hinv5 & Hp5 & Hc5 & Ha5 & Hl5 & He5 & Hw5 & Hs5).
  { done. }
  { change (finalized r4) with (finalized (set_index 0 r4)). by rewrite <- E4. }
  simpl in Hatt. rewrite Hatt. exists (notifyWorker s5).
  split; [done|]. split.
  { destruct Hinv5. constructor; done. }
  simpl. simpl in Hp5, Hc5, Ha5, Hl5, He5. rewrite Hp5, Hc5, Ha5, Hl5, He5.
  repeat split; try done; try apply Hw5.
  simpl in Hs5. rewrite Hs5.
  rewrite (shape_alter _ _ br _ (erase_attach_update prio _) Hs4).
  f_equal. unfold br.
  replace (length (retrievals s)) with (length (retrievals s) + 0)%nat at 1 by lia.
  rewrite alter_app_r. simpl. f_equal. f_equal.
  unfold attach_update, new_retrieval. simpl.
  by rewrite Z.gtb_ltb, Z.ltb_irrefl.
Qed.

Lemma Inv_deregister s k :
  Inv s → Inv (set_ptrs (delete k) s).
Proof.
  intros [Hwf Ho [R Q N V E O] Hc Hq1 Hq2]. constructor; simpl; try done.
  split; try done.
  intros k' l Hk. apply lookup_delete_Some in Hk as [_ Hk]. by apply R.
Qed.

Lemma Inv_registered s (ptr br : nat) :
  Inv s → ptrs s !! ptr = Some br →
  ∃ r, retrievals s !! br = Some r ∧ blockPtr r = ptr ∧ finalized r = false.
Proof. intros [_ _ [R _ _ _ _ _] _ _ _] Hp. by apply R. Qed.

(** The pass of the loop that finds a retrieval and merges the context. *)
Lemma Request_loop_attach fuel canceled pass c prio md ptr blk s br :
  Inv s → ptrs s !! ptr = Some br → canceled pass = false →
  ∃ s' r, retrievals s !! br = Some r ∧
    Request_loop (S fuel) canceled pass c prio md ptr blk s
      = Some (s', length (errChans s), S pass) ∧ Inv s' ∧
    ptrs s' = ptrs s ∧ insertionCount s' = insertionCount s ∧
    attempts s' = attempts s ∧ length (heap s') = length (heap s) ∧
    errChans s' = errChans s ++ [[]] ∧ same_workers s s' ∧
    shape (retrievals s') =
      shape (alter (λ r, attach_update prio (mkRequest blk (length (errChans s)))
                           (set_ctx (AddContext (ctx r) c) r)) br (retrievals s)).
Proof.
  intros Hinv Hp Hcan.
  destruct (Inv_registered s ptr br Hinv Hp) as (r & Hr & Hb & Hf).
  destruct Hinv as [Hwf Ho Hm Hc Hq1 Hq2].
  simpl. rewrite Hp, Hr, Hcan.
  set (g := λ r : blockRetrieval, set_ctx (AddContext (ctx r) c) r).
  set (s1 := set_retrievals (alter g br (retrievals s)) s).
  assert (qview <$> alter g br (retrievals s) = qview <$> retrievals s) as Hqv
    by (by apply view_alter).
  assert (Inv s1) as Hinv1.
  { constructor; simpl; try done.
    - by apply (heap_wf_ext _ _ _ Hqv).
    - by apply (heap_ordered_ext _ _ _ Hqv).
    - apply MemInv_alter; [|done]. intros r0 _. repeat split; auto.
    - by rewrite length_alter. }
  destruct (Request_attach_spec br prio blk s1 (g r) Hinv1)
    as (s2 & Hatt & Hinv2 & Hp2 & Hc2 & Ha2 & Hl2 & He2 & Hw2 & Hs2).
  { simpl. by rewrite list_lookup_alter_eq, Hr. }
  { done. }
  simpl in Hatt. rewrite Hatt. exists s2, r.
  split; [done|]. split; [done|]. split; [done|].
  repeat split; try done; try apply Hw2.
  simpl in Hs2. rewrite Hs2. f_equal. by rewrite list_alter_alter_eq.
Qed.

Lemma Request_loop_canceled fuel canceled pass c prio md ptr blk s (br : nat) r :
  ptrs s !! ptr = Some br → retrievals s !! br = Some r → canceled pass = true →
  Request_loop (S fuel) canceled pass c prio md ptr blk s =
    Request_loop fuel canceled (S pass) c prio md ptr blk
      (set_ptrs (delete (blockPtr r)) s).
Proof. intros Hp Hr Hcan. simpl. by rewrite Hp, Hr, Hcan. Qed.

(** The pass that finds a retrieval whose context is already canceled:
    the locator is deregistered and the next pass creates a retrieval. *)
Lemma Request_loop_retry fuel canceled pass c prio md ptr blk s br :
  Inv s → ptrs s !! ptr = Some br → canceled pass = true →
  Request_loop (S fuel) canceled pass c prio md ptr blk s =
    Request_loop fuel canceled (S pass) c prio md ptr blk (set_ptrs (delete ptr) s) ∧
  Inv (set_ptrs (delete ptr) s) ∧ ptrs (set_ptrs (delete ptr) s) !! ptr = None.
Proof.
  intros Hinv Hp Hcan.
  destruct (Inv_registered s ptr br Hinv Hp) as (r & Hr & Hb & Hf).
  split; [|split].
  - rewrite (Request_loop_canceled _ _ _ _ _ _ _ _ _ br r) by done. by rewrite Hb.
  - by apply Inv_deregister.
  - simpl. apply lookup_delete_eq.
Qed.

(** ** How objects evolve *)

Lemma retrieval_le_refl r : retrieval_le r r.
Proof. repeat split; (done || lia). Qed.

Lemma retrieval_le_trans r1 r2 r3 :
  retrieval_le r1 r2 → retrieval_le r2 r3 → retrieval_le r1 r3.
Proof.
  intros (?&?&?&?&?) (?&?&?&?&?). repeat split; try congruence; try lia.
  by etrans.
Qed.

Lemma mem_le_refl m : mem_le m m.
Proof. intros l r Hl. exists r. split; [done|apply retrieval_le_refl]. Qed.

Lemma mem_le_trans m1 m2 m3 : mem_le m1 m2 → mem_le m2 m3 → mem_le m1 m3.
Proof.
  intros H12 H23 l r Hl. destruct (H12 _ _ Hl) as (r2 & Hl2 & Hle2).
  destruct (H23 _ _ Hl2) as (r3 & Hl3 & Hle3). exists r3.
  split; [done|by eapply retrieval_le_trans].
Qed.

Lemma mem_le_shape m m' : shape m' = shape m → mem_le m m'.
Proof.
  intros Hs l r Hl.
  destruct (shape_fields m' m l r (eq_sym Hs) Hl) as (r' & Hl' & Ep & Epr & Eio & _).
  exists r'. split; [done|]. unfold payload in Ep. injection Ep as ? ? ? Er.
  repeat split; try done; try lia. by rewrite Er.
Qed.

Lemma mem_le_alter (m : list blockRetrieval) (x : nat) g :
  (∀ r, retrieval_le r (g r)) → mem_le m (alter g x m).
Proof.
  intros Hg l r Hl. rewrite list_lookup_alter. case_decide; [subst|].
  - rewrite Hl. eexists; split; [done|apply Hg].
  - exists r. split; [done|apply retrieval_le_refl].
Qed.

Lemma mem_le_app m k : mem_le m (m ++ k).
Proof.
  intros l r Hl. exists r. split; [by apply lookup_app_l_Some|apply retrieval_le_refl].
Qed.

Lemma retrieval_le_attach prio w c r :
  retrieval_le r (attach_update prio w (set_ctx c r)).
Proof.
  unfold attach_update. simpl.
  destruct (bool_decide (index r ≠ -1) && (prio >? priority r)) eqn:E.
  - apply andb_true_iff in E as [_ E]. apply Z.gtb_lt in E.
    repeat split; simpl; try done; try lia. by apply prefix_app_r.
  - repeat split; simpl; try done; try lia. by apply prefix_app_r.
Qed.

(** ** The rest of the operations *)

Lemma popIfNotEmpty_claimed s s' x :
  Inv s → popIfNotEmpty s = (s', Some x) →
  Inv s' ∧ heap s !! 0%nat = Some x ∧ S (length (heap s')) = length (heap s) ∧
  shape (retrievals s') = shape (alter (set_index (-1)) x (retrievals s)) ∧
  (∃ r, retrievals s !! x = Some r ∧ queued r) ∧
  (∃ r', retrievals s' !! x = Some r' ∧ index r' = -1 ∧ finalized r' = false) ∧
  ptrs s' = ptrs s ∧ errChans s' = errChans s ∧ attempts s' = attempts s ∧
  insertionCount s' = insertionCount s ∧ same_workers s s'.
Proof.
  intros Hinv Hpop.
  destruct (popIfNotEmpty_spec s Hinv) as [[_ E]|(x' & r & h' & Hx & Hr & E & Hinv' & Hs & Hl)];
    rewrite E in Hpop; [done|]. injection Hpop as <- <-.
  pose proof (inv_wf s Hinv) as [W1 _]. destruct (W1 _ _ Hx) as (r0 & Hr0 & Ei).
  simpl in Hr0. rewrite Hr in Hr0. injection Hr0 as <-.
  assert (queued r) as Hq by (unfold queued; lia).
  split; [done|]. split; [done|]. split; [done|]. split; [done|].
  split; [by eauto|]. split; [|by repeat split].
  destruct (shape_fields h'.1 (alter (set_index (-1)) x' (retrievals s)) x'
              (set_index (-1) r)) as (r' & Hr' & Ep & _ & _ & Hi).
  { by symmetry. }
  { by rewrite list_lookup_alter_eq, Hr. }
  exists r'. split; [done|]. split; [simpl in Hi; tauto|].
  unfold payload in Ep. injection Ep as _ _ Ec _. unfold finalized. rewrite Ec.
  simpl. apply (inv_queued _ _ _ (inv_mem s Hinv) x' r Hr Hq).
Qed.

Lemma popIfNotEmpty_none s s' :
  Inv s → popIfNotEmpty s = (s', None) → s' = s ∧ heap s = [].
Proof.
  intros Hinv Hpop.
  destruct (popIfNotEmpty_spec s Hinv) as [[Hh E]|(x' & r & h' & Hx & Hr & E & _)];
    rewrite E in Hpop; [|done]. by injection Hpop as <-.
Qed.

Lemma Inv_workers s s' :
  Inv s → ptrs s' = ptrs s → heap s' = heap s → retrievals s' = retrievals s →
  errChans s' = errChans s → insertionCount s' = insertionCount s →
  NoDup (workerQueue s') → (∀ ch, ch ∈ workerQueue s' → workChans s' !! ch = Some []) →
  Inv s'.
Proof.
  intros [Hwf Ho Hm Hc Hq1 Hq2] Ep Eh Er Ee Ec Hn He.
  constructor; unfold the_heap; rewrite ?Ep, ?Eh, ?Er, ?Ee, ?Ec; done.
Qed.

Lemma WorkOnRequest_Inv s s' ch :
  Inv s → WorkOnRequest s = Some (s', ch) → Inv s'.
Proof.
  intros Hinv. unfold WorkOnRequest. simpl.
  destruct (decide _); [|done]. intros [= <- <-].
  apply (Inv_workers s); simpl; try done.
  - apply NoDup_app. split; [apply Hinv|]. split; [|apply NoDup_singleton].
    intros x Hx. rewrite list_elem_of_singleton. intros ->.
    apply (inv_wq_empty s Hinv) in Hx. apply lookup_lt_Some in Hx. lia.
  - intros x. rewrite elem_of_app, list_elem_of_singleton. intros [Hx| ->].
    + apply lookup_app_l_Some. by apply (inv_wq_empty s Hinv).
    + by apply list_lookup_middle.
Qed.

(** The worker branch of a matching attempt: the head of [workerQueue]
    receives what popIfNotEmpty returns. *)
Lemma notifyWorker_run_worker s ch rest :
  Inv s → workerQueue s = ch :: rest →
  ∃ s1 x, popIfNotEmpty (set_workerQueue rest s) = (s1, x) ∧
    notifyWorker_run case_workerQueue s =
      Some (set_workChans (<[ch := [x]]> (workChans s)) s1, []) ∧
    Inv (set_workChans (<[ch := [x]]> (workChans s)) s1).
Proof.
  intros Hinv Hwq.
  assert (NoDup (ch :: rest)) as Hnd by (rewrite <- Hwq; apply Hinv).
  apply NoDup_cons in Hnd as [Hch Hnd].
  assert (workChans s !! ch = Some []) as Hempty
    by (apply (inv_wq_empty s Hinv); rewrite Hwq; left).
  assert (Inv (set_workerQueue rest s)) as Hinv1.
  { apply (Inv_workers s); simpl; try done.
    intros x Hx. apply (inv_wq_empty s Hinv). rewrite Hwq. by right. }
  destruct (popIfNotEmpty (set_workerQueue rest s)) as [s1 x] eqn:Hpop.
  exists s1, x. split; [done|].
  assert (Inv s1 ∧ workChans s1 = workChans s ∧ workerQueue s1 = rest) as (Hinv2 & Ew & Eq).
  { destruct x as [x|].
    - destruct (popIfNotEmpty_claimed _ _ _ Hinv1 Hpop)
        as (H1 & _ & _ & _ & _ & _ & _ & _ & _ & _ & Hw).
      destruct Hw as (? & ? & ? & ? & ?). done.
    - destruct (popIfNotEmpty_none _ _ Hinv1 Hpop) as [-> _]. done. }
  split.
  - unfold notifyWorker_run. rewrite Hwq, Hpop. unfold send. rewrite Ew, Hempty. done.
  - apply (Inv_workers s1); simpl; try done.
    + by rewrite Eq.
    + rewrite Eq. intros y Hy. rewrite list_lookup_insert_ne by (intros ->; done).
      rewrite <- Ew. apply (inv_wq_empty s1 Hinv2). by rewrite Eq.
Qed.

(** The shutdown branch of a matching attempt: what popIfNotEmpty
    returns is finalized with io.EOF. *)
Lemma notifyWorker_run_done s :
  Inv s → brq_doneCh s = true →
  (heap s = [] ∧ notifyWorker_run case_doneCh s = Some (s, [])) ∨
  (∃ s1 x r1,
     popIfNotEmpty s = (s1, Some x) ∧ retrievals s1 !! x = Some r1 ∧
     index r1 = -1 ∧ finalized r1 = false ∧
     notifyWorker_run case_doneCh s =
       Some (finalize_state x None io_EOF r1 s1,
             notify_events (requests r1) None io_EOF) ∧
     Inv s1 ∧ Inv (finalize_state x None io_EOF r1 s1)).
Proof.
  intros Hinv Hclosed. unfold notifyWorker_run. rewrite Hclosed.
  destruct (popIfNotEmpty s) as [s1 [x|]] eqn:Hpop.
  - right. destruct (popIfNotEmpty_claimed _ _ _ Hinv Hpop)
      as (Hinv1 & _ & _ & _ & _ & (r1 & Hr1 & Hi1 & Hf1) & _).
    destruct (FinalizeRequest_spec x None io_EOF s1 r1 Hinv1 Hr1 Hi1 Hf1) as [HF HI].
    exists s1, x, r1. rewrite HF. done.
  - left. destruct (popIfNotEmpty_none _ _ Hinv Hpop) as [-> Hh]. done.
Qed.

Lemma Shutdown_spec s :
  Shutdown s = Some (set_doneCh true s, if brq_doneCh s then [] else [EvClose]).
Proof.
  unfold Shutdown, close_chan. destruct s as [? ? ? ? ? []]; reflexivity.
Qed.

Lemma Shutdown_split s :
  Shutdown s = if Shutdown_select s then Shutdown_close s else Some (s, []).
Proof. unfold Shutdown, Shutdown_select, Shutdown_close. by destruct (brq_doneCh s). Qed.

(** A call of Shutdown that no other close interrupts is one action:
    its [select] when [doneCh] is closed, its [close] otherwise. *)
Lemma step_Shutdown s s' ev : Shutdown s = Some (s', ev) → step s ev s'.
Proof.
  rewrite Shutdown_split. destruct (Shutdown_select s) eqn:E.
  - apply step_Shutdown_close.
  - intros [= <- <-]. by apply step_Shutdown_select.
Qed.

Lemma Shutdown_close_spec s s' ev :
  Shutdown_close s = Some (s', ev) →
  brq_doneCh s = false ∧ s' = set_doneCh true s ∧ ev = [EvClose].
Proof.
  unfold Shutdown_close, close_chan. destruct (brq_doneCh s); [done|].
  by intros [= <- <-].
Qed.

(** The worker branch of a matching attempt that holds the channel of a
    worker. *)
Lemma notifyWorker_serve_spec s (ch : nat) :
  Inv s → workChans s !! ch = Some [] → ch ∉ workerQueue s →
  ∃ s1 x, popIfNotEmpty s = (s1, x) ∧
    notifyWorker_serve ch s = Some (set_workChans (<[ch := [x]]> (workChans s)) s1, []) ∧
    Inv (set_workChans (<[ch := [x]]> (workChans s)) s1).
Proof.
  intros Hinv Hempty Hch.
  destruct (popIfNotEmpty s) as [s1 x] eqn:Hpop.
  exists s1, x. split; [done|].
  assert (Inv s1 ∧ workChans s1 = workChans s ∧ workerQueue s1 = workerQueue s)
    as (Hinv1 & Ew & Eq).
  { destruct x as [x|].
    - destruct (popIfNotEmpty_claimed _ _ _ Hinv Hpop)
        as (H1 & _ & _ & _ & _ & _ & _ & _ & _ & _ & Hw).
      destruct Hw as (? & ? & ? & ? & ?). done.
    - destruct (popIfNotEmpty_none _ _ Hinv Hpop) as [-> _]. done. }
  split.
  - unfold notifyWorker_serve. rewrite Hpop. unfold send. rewrite Ew, Hempty. done.
  - apply (Inv_workers s1); simpl; try done.
    + apply Hinv1.
    + intros y Hy. rewrite list_lookup_insert_ne by (intros ->; by rewrite Eq in Hy).
      rewrite <- Ew. by apply (inv_wq_empty s1 Hinv1).
Qed.

(** The state in which WorkOnRequest has made its channel. *)
Lemma WorkOnRequest_direct_Inv s :
  Inv s → Inv (WorkOnRequest_direct s).1 ∧
  workChans (WorkOnRequest_direct s).1 !! (WorkOnRequest_direct s).2 = Some [] ∧
  ((WorkOnRequest_direct s).2 ∉ workerQueue (WorkOnRequest_direct s).1).
Proof.
  intros Hinv. unfold WorkOnRequest_direct. simpl. split; [|split].
  - apply (Inv_workers s); simpl; try done; try apply Hinv.
    intros y Hy. apply lookup_app_l_Some. by apply (inv_wq_empty s Hinv).
  - by apply list_lookup_middle.
  - intros Hin. apply (inv_wq_empty s Hinv) in Hin. apply lookup_lt_Some in Hin. lia.
Qed.

(** Every result of the loop of Request. *)
Lemma Request_loop_facts fuel canceled pass c prio md ptr blk s s' ch n :
  Inv s → Request_loop fuel canceled pass c prio md ptr blk s = Some (s', ch, n) →
  Inv s' ∧ same_workers s s' ∧ mem_le (retrievals s) (retrievals s') ∧
  (length (heap s') + attempts s = length (heap s) + attempts s')%nat ∧
  ch = length (errChans s) ∧ errChans s' = errChans s ++ [[]] ∧
  (pass < n ≤ pass + 2)%nat.
Proof.
  intros Hinv Hreq. destruct fuel as [|fuel]; [done|].
  destruct (ptrs s !! ptr) as [br|] eqn:Hp.
  - destruct (canceled pass) eqn:Hcan.
    + destruct (Request_loop_retry fuel canceled pass c prio md ptr blk s br Hinv Hp Hcan)
        as (E & Hinv1 & Hp1).
      rewrite E in Hreq. destruct fuel as [|fuel]; [done|].
      destruct (Request_loop_create fuel canceled (S pass) c prio md ptr blk _ Hinv1 Hp1)
        as (s2 & E2 & Hinv2 & _ & _ & Ha & Hl & He & Hw & Hs).
      rewrite E2 in Hreq. injection Hreq as <- <- <-. simpl in *.
      split; [done|]. split; [done|]. split.
      { eapply mem_le_trans; [apply mem_le_app|]. by apply mem_le_shape. }
      repeat split; try done; lia.
    + destruct (Request_loop_attach fuel canceled pass c prio md ptr blk s br Hinv Hp Hcan)
        as (s2 & r & Hr & E2 & Hinv2 & _ & _ & Ha & Hl & He & Hw & Hs).
      rewrite E2 in Hreq. injection Hreq as <- <- <-.
      split; [done|]. split; [done|]. split.
      { eapply mem_le_trans; [|apply mem_le_shape; exact Hs].
        apply mem_le_alter. intros r0. apply retrieval_le_attach. }
      repeat split; try done; lia.
  - destruct (Request_loop_create fuel canceled pass c prio md ptr blk s Hinv Hp)
      as (s2 & E2 & Hinv2 & _ & _ & Ha & Hl & He & Hw & Hs).
    rewrite E2 in Hreq. injection Hreq as <- <- <-.
    split; [done|]. split; [done|]. split.
    { eapply mem_le_trans; [apply mem_le_app|]. by apply mem_le_shape. }
    repeat split; try done; lia.
Qed.

Lemma Inv_set_attempts s n : Inv s → Inv (set_attempts n s).
Proof. intros [? ? ? ? ? ?]. by constructor. Qed.

Lemma Inv_new_chan s buf : Inv s → Inv (set_errChans (errChans s ++ [buf]) s).
Proof.
  intros [Hwf Ho [R Q N V E O] Hc Hq1 Hq2]. constructor; simpl; try done.
  split; try done.
  - intros ch Hch. rewrite length_app. apply V in Hch. lia.
  - intros l r w Hl Hf Hw. apply lookup_app_l_Some. by eapply E.
Qed.

Lemma Inv_receive s (ch : nat) v buf :
  Inv s → errChans s !! ch = Some (v :: buf) →
  Inv (set_errChans (<[ch := buf]> (errChans s)) s).
Proof.
  intros [Hwf Ho [R Q N V E O] Hc Hq1 Hq2] Hch. constructor; simpl; try done.
  split; try done.
  - intros ch' Hch'. rewrite length_insert. by apply V.
  - intros l r w Hl Hf Hw. rewrite list_lookup_insert_ne; [by eapply E|].
    intros ->. rewrite (E _ _ _ Hl Hf Hw) in Hch. done.
Qed.

Lemma Inv_worker_receive s (ch : nat) v buf :
  Inv s → workChans s !! ch = Some (v :: buf) →
  Inv (set_workChans (<[ch := buf]> (workChans s)) s).
Proof.
  intros Hinv Hch. apply (Inv_workers s); simpl; try done; try apply Hinv.
  intros ch' Hch'. pose proof (inv_wq_empty s Hinv ch' Hch') as He.
  rewrite list_lookup_insert_ne; [done|]. intros ->. rewrite He in Hch. done.
Qed.

Lemma retrieval_le_set_index i r : retrieval_le r (set_index i r).
Proof. repeat split; simpl; (done || lia). Qed.

Lemma retrieval_le_set_ctx c r : retrieval_le r (set_ctx c r).
Proof. repeat split; simpl; (done || lia). Qed.

Lemma popIfNotEmpty_facts s s' x :
  Inv s → popIfNotEmpty s = (s', x) →
  Inv s' ∧ mem_le (retrievals s) (retrievals s') ∧ same_workers s s' ∧
  attempts s' = attempts s ∧
  (length (heap s') = length (heap s) - 1)%nat.
Proof.
  intros Hinv Hpop. destruct x as [x|].
  - destruct (popIfNotEmpty_claimed _ _ _ Hinv Hpop)
      as (Hinv' & _ & Hl & Hs & _ & _ & _ & _ & Ha & _ & Hw).
    split; [done|]. split; [|split; [done|split; [done|lia]]].
    eapply mem_le_trans; [|apply mem_le_shape; exact Hs].
    apply mem_le_alter. intros r. apply retrieval_le_set_index.
  - destruct (popIfNotEmpty_none _ _ Hinv Hpop) as [-> Hh].
    split; [done|]. split; [apply mem_le_refl|]. split; [by repeat split|].
    split; [done|]. rewrite Hh. done.
Qed.

Lemma closes_nil : closes [] = 0%nat.
Proof. reflexivity. Qed.

Lemma closes_app a b : closes (a ++ b) = (closes a + closes b)%nat.
Proof. unfold closes. by rewrite filter_app, length_app. Qed.

Lemma notify_events_closes reqs blk err : closes (notify_events reqs blk err) = 0%nat.
Proof.
  induction reqs as [|w reqs IH]; [done|].
  change (notify_events (w :: reqs) blk err) with
    ((match blk with Some b => [EvSet (block w) b] | None => [] end
      ++ [EvSend (doneCh w) err]) ++ notify_events reqs blk err).
  rewrite closes_app, IH. by destruct blk.
Qed.

Local Ltac keeps_split := split; [|split; [|split; [|split; [|split]]]].
Local Ltac keeps_auto :=
  first [ done | apply mem_le_refl | (intros; simpl in *; lia)
        | match goal with |- context [brq_doneCh ?s] => by destruct (brq_doneCh s) end ].

Lemma step_facts s ev s' : Inv s → step s ev s' → step_keeps s ev s'.
Proof.
  intros Hinv Hstep. unfold step_keeps, attempts_ok.
  destruct Hstep as
    [fuel canceled c prio md ptr blk s s' ch n Hreq
    |fuel canceled c prio md ptr blk s s' ch n Hreq
    |s s' ch Hw
    |s n s1 ch s' ev Ha Hwq Hdir Hserve
    |sel s n s' ev Ha Hrun
    |s n s' x Ha Hpop
    |l blk err s r s' ev Hr Hi Hf HF
    |s Hsel
    |s s' ev Hsh
    |ch v buf s Hch
    |ch v buf s Hch].
  - unfold Request in Hreq. destruct (brq_doneCh s) eqn:Hd.
    + injection Hreq as <- <- <-. simpl. rewrite Hd.
      keeps_split; try keeps_auto. by apply Inv_new_chan.
    + destruct (Request_loop_facts _ _ _ _ _ _ _ _ _ _ _ _ Hinv Hreq)
        as (Hinv' & (_ & Hn & Hd' & _) & Hle & Hl & _).
      rewrite Hd', Hd. keeps_split; keeps_auto.
  - destruct (Request_loop_facts _ _ _ _ _ _ _ _ _ _ _ _ Hinv Hreq)
      as (Hinv' & (_ & Hn & Hd' & _) & Hle & Hl & _).
    rewrite Hd'. keeps_split; keeps_auto.
  - pose proof (WorkOnRequest_Inv _ _ _ Hinv Hw) as Hinv'.
    unfold WorkOnRequest in Hw. simpl in Hw. destruct (decide _); [|done].
    injection Hw as <- <-. simpl.
    keeps_split; keeps_auto.
  - pose proof (Inv_set_attempts s n Hinv) as Hinv0.
    destruct (WorkOnRequest_direct_Inv _ Hinv0) as (Hinv1 & Hempty & Hfresh).
    rewrite Hdir in Hinv1, Hempty, Hfresh. simpl in Hinv1, Hempty, Hfresh.
    destruct (notifyWorker_serve_spec s1 ch Hinv1 Hempty Hfresh)
      as (s2 & x & Hpop & E & Hinv2).
    rewrite E in Hserve. injection Hserve as <- <-.
    destruct (popIfNotEmpty_facts _ _ _ Hinv1 Hpop)
      as (_ & Hle & (_ & Hn & Hd' & _) & Ha1 & Hl1).
    unfold WorkOnRequest_direct in Hdir. injection Hdir as <- <-.
    simpl in *. rewrite Hd'.
    keeps_split; keeps_auto.
  - pose proof (Inv_set_attempts s n Hinv) as Hinv0. destruct sel.
    + destruct (brq_doneCh s) eqn:Hd; [|by (unfold notifyWorker_run in Hrun; simpl in Hrun;
                                            rewrite Hd in Hrun)].
      destruct (notifyWorker_run_done _ Hinv0 Hd)
        as [[Hh E]|(s1 & x & r1 & Hpop & Hr1 & Hi1 & Hf1 & E & Hinv1 & Hinv2)];
        rewrite E in Hrun; injection Hrun as <- <-.
      * simpl in *. rewrite Hd, Hh. keeps_split; keeps_auto.
      * destruct (popIfNotEmpty_facts _ _ _ Hinv0 Hpop)
          as (_ & Hle & (_ & Hn & Hd' & _) & Ha1 & Hl1).
        simpl in *. rewrite Hd', Hd, notify_events_closes.
        keeps_split; try keeps_auto.
        eapply mem_le_trans; [exact Hle|]. apply mem_le_alter.
        intros r0. apply retrieval_le_set_ctx.
    + destruct (workerQueue s) as [|ch rest] eqn:Hwq;
        [by (unfold notifyWorker_run in Hrun; simpl in Hrun; rewrite Hwq in Hrun)|].
      destruct (notifyWorker_run_worker (set_attempts n s) ch rest Hinv0 Hwq)
        as (s1 & x & Hpop & E & Hinv2).
      rewrite E in Hrun. injection Hrun as <- <-.
      assert (Inv (set_workerQueue rest (set_attempts n s))) as Hinv1.
      { apply (Inv_workers s); simpl; try done; try apply Hinv.
        - assert (NoDup (ch :: rest)) as Hnd by (rewrite <- Hwq; apply Hinv).
          by apply NoDup_cons in Hnd as [_ ?].
        - intros y Hy. apply (inv_wq_empty s Hinv). rewrite Hwq. by right. }
      destruct (popIfNotEmpty_facts _ _ _ Hinv1 Hpop)
        as (_ & Hle & (_ & Hn & Hd' & _) & Ha1 & Hl1).
      simpl in *. rewrite Hd'.
      keeps_split; keeps_auto.
  - pose proof (Inv_set_attempts s n Hinv) as Hinv0.
    destruct (popIfNotEmpty_facts _ _ _ Hinv0 Hpop)
      as (Hinv' & Hle & (_ & Hn & Hd' & _) & Ha1 & Hl1).
    simpl in *. rewrite Hd'.
    keeps_split; keeps_auto.
  - destruct (FinalizeRequest_spec l blk err s r Hinv Hr Hi Hf) as [E Hinv'].
    rewrite E in HF. injection HF as <- <-. simpl.
    rewrite notify_events_closes.
    keeps_split; try keeps_auto.
    apply mem_le_alter. intros r0. apply retrieval_le_set_ctx.
  - keeps_split; keeps_auto.
  - apply Shutdown_close_spec in Hsh as (Hd & -> & ->). simpl. rewrite Hd.
    keeps_split; try keeps_auto. by destruct Hinv; constructor.
  - simpl. keeps_split; try keeps_auto. by eapply Inv_receive.
  - simpl. keeps_split; try keeps_auto. by eapply Inv_worker_receive.
Qed.

Lemma Inv_new n tg : Inv (newBlockRetrievalQueue n tg).
Proof.
  constructor; simpl.
  - split; simpl; [intros i l Hl|intros l r Hl]; by rewrite lookup_nil in Hl.
  - intros k Hk. simpl in Hk. lia.
  - split; simpl.
    + intros k l Hk. by rewrite lookup_empty in Hk.
    + intros l r Hl. by rewrite lookup_nil in Hl.
    + apply NoDup_nil_2.
    + intros ch Hch. by apply elem_of_nil in Hch.
    + intros l r w Hl. by rewrite lookup_nil in Hl.
    + intros l r Hl. by rewrite lookup_nil in Hl.
  - done.
  - apply NoDup_nil_2.
  - intros ch Hch. by apply elem_of_nil in Hch.
Qed.

Lemma steps_facts s tr s' :
  Inv s → steps s tr s' →
  Inv s' ∧ (attempts_ok s → attempts_ok s') ∧
  mem_le (retrievals s) (retrievals s') ∧
  (brq_doneCh s = true → brq_doneCh s' = true) ∧
  numWorkers s' = numWorkers s ∧
  (closes tr + (if brq_doneCh s then 1 else 0) = if brq_doneCh s' then 1 else 0)%nat.
Proof.
  intros Hinv Hsteps. induction Hsteps as [s|s tr s1 ev s2 H1 IH H2].
  - split; [done|]. split; [done|]. split; [apply mem_le_refl|].
    split; [done|]. split; [done|]. by destruct (brq_doneCh s).
  - destruct (IH Hinv) as (Hinv1 & Ha1 & Hle1 & Hd1 & Hn1 & Hc1).
    destruct (step_facts _ _ _ Hinv1 H2) as (Hinv2 & Ha2 & Hle2 & Hd2 & Hn2 & Hc2).
    split; [done|]. split; [auto|]. split; [by eapply mem_le_trans|].
    split; [auto|]. split; [congruence|]. rewrite closes_app. lia.
Qed.

Lemma steps_trans s tr1 s1 tr2 s2 :
  steps s tr1 s1 → steps s1 tr2 s2 → steps s (tr1 ++ tr2) s2.
Proof.
  intros H1 H2. induction H2 as [|s1 tr s2 ev s3 H2 IH H3].
  - by rewrite app_nil_r.
  - rewrite app_assoc. eapply steps_snoc; [by apply IH|done].
Qed.

Lemma steps_one s ev s' : step s ev s' → steps s ev s'.
Proof. intros H. apply (steps_snoc s [] s ev s'); [apply steps_refl|done]. Qed.

Lemma reachable_new n tg : reachable (newBlockRetrievalQueue n tg).
Proof. exists n, tg, []. apply steps_refl. Qed.

Lemma reachable_step s ev s' : reachable s → step s ev s' → reachable s'.
Proof.
  intros (n & tg & tr & H) Hs. exists n, tg, (tr ++ ev). by eapply steps_snoc.
Qed.

Lemma reachable_steps s tr s' : reachable s → steps s tr s' → reachable s'.
Proof.
  intros (n & tg & tr0 & H) Hs. exists n, tg, (tr0 ++ tr). by eapply steps_trans.
Qed.

Lemma reachable_Inv s : reachable s → Inv s ∧ attempts_ok s.
Proof.
  intros (n & tg & tr & H).
  destruct (steps_facts _ _ _ (Inv_new n tg) H) as (Hinv & Ha & _).
  split; [done|]. apply Ha. unfold attempts_ok. simpl. lia.
Qed.

(** ** The scenarios are reachable *)

Lemma reachable_after_Request canceled c prio md ptr blk s :
  reachable s → reachable (after_Request canceled c prio md ptr blk s).
Proof.
  intros Hr. unfold after_Request.
  destruct (Request 2 canceled c prio md ptr blk s) as [[[s' ch] n]|] eqn:E; [|done].
  eapply reachable_step; [done|]. eapply step_Request. exact E.
Qed.

Lemma reachable_after_WorkOnRequest s :
  reachable s → reachable (after_WorkOnRequest s).
Proof.
  intros Hr. unfold after_WorkOnRequest.
  destruct (WorkOnRequest s) as [[s' ch]|] eqn:E; [|done].
  eapply reachable_step; [done|]. eapply step_WorkOnRequest. exact E.
Qed.

Lemma reachable_after_attempt sel s :
  reachable s → reachable (after_attempt sel s).
Proof.
  intros Hr. unfold after_attempt. destruct (attempts s) as [|n] eqn:Ha; [done|].
  destruct (notifyWorker_run sel (set_attempts n s)) as [[s' ev]|] eqn:E; [|done].
  eapply reachable_step; [done|]. eapply step_attempt; [exact Ha|exact E].
Qed.


Lemma two_waiters_queued_reachable : reachable two_waiters_queued.
Proof. repeat apply reachable_after_Request. apply reachable_new. Qed.

Lemma two_waiters_claimed_reachable : reachable two_waiters_claimed.
Proof.
  apply reachable_after_attempt, reachable_after_WorkOnRequest,
    two_waiters_queued_reachable.
Qed.

(** ** The life of a retrieval *)

Lemma life_refl r : life r r.
Proof. split; done. Qed.

Lemma life_trans r1 r2 r3 : life r1 r2 → life r2 r3 → life r1 r3.
Proof.
  intros [A1 B1] [A2 B2]. split; [auto|].
  intros Hf. pose proof (B1 Hf) as E. subst r2. by apply B2.
Qed.

Lemma erase_eq r r' :
  set_index 0 r' = set_index 0 r → index r' = index r → r' = r.
Proof.
  destruct r, r'. unfold set_index. simpl. intros E Hi.
  injection E as -> -> -> -> -> ->. by rewrite Hi.
Qed.

Lemma shape_forward (m m' : list blockRetrieval) (l : nat) r :
  shape m' = shape m → m !! l = Some r →
  ∃ r', m' !! l = Some r' ∧ set_index 0 r' = set_index 0 r ∧
        (index r' = -1 ↔ index r = -1).
Proof.
  intros Hs Hl. destruct (m' !! l) as [r'|] eqn:Hl'.
  - destruct (shape_lookup m m' l r' Hs Hl') as (r0 & Hr0 & E & Hi).
    rewrite Hl in Hr0. injection Hr0 as <-. eauto.
  - apply lookup_ge_None in Hl'. apply lookup_lt_Some in Hl.
    rewrite (shape_length _ _ Hs) in Hl'. lia.
Qed.

Lemma erase_requests r r' : set_index 0 r' = set_index 0 r → requests r' = requests r.
Proof. intros E. change (requests (set_index 0 r') = requests (set_index 0 r)). by rewrite E. Qed.

Lemma erase_priority r r' : set_index 0 r' = set_index 0 r → priority r' = priority r.
Proof. intros E. change (priority (set_index 0 r') = priority (set_index 0 r)). by rewrite E. Qed.

Lemma erase_finalized r r' : set_index 0 r' = set_index 0 r → finalized r' = finalized r.
Proof. intros E. change (finalized (set_index 0 r') = finalized (set_index 0 r)). by rewrite E. Qed.

(** A write to one object that is not finalized, followed by heap
    operations. *)
Lemma life_alter_shape (m m' : list blockRetrieval) (x : nat) g :
  shape m' = shape (alter g x m) →
  (∀ (l : nat) r, m !! l = Some r → finalized r = true → index r = -1) →
  (∀ r, m !! x = Some r → finalized r = false ∧ (index r = -1 → index (g r) = -1)) →
  ∀ (l : nat) r, m !! l = Some r →
    ∃ r', m' !! l = Some r' ∧ life r r' ∧
      set_index 0 r' = set_index 0 (if decide (l = x) then g r else r) ∧
      (index r' = -1 ↔ index (if decide (l = x) then g r else r) = -1).
Proof.
  intros Hs Hq Hg l r Hl.
  destruct (shape_forward (alter g x m) m' l (if decide (l = x) then g r else r) Hs)
    as (r' & Hr' & E & Hi).
  { destruct (decide (l = x)) as [->|Hne].
    - by rewrite list_lookup_alter_eq, Hl.
    - by rewrite list_lookup_alter_ne by congruence. }
  exists r'. split; [done|]. split; [|by split].
  destruct (decide (l = x)) as [->|Hne].
  - destruct (Hg r Hl) as [Hf Hidx]. split.
    + intros Hi0. apply Hi. by apply Hidx.
    + intros Hf'. congruence.
  - split.
    + intros Hi0. by apply Hi.
    + intros Hf. apply erase_eq; [done|].
      pose proof (Hq _ _ Hl Hf) as Hi0. rewrite Hi0. by apply Hi.
Qed.

Lemma Inv_settled s (l : nat) r :
  Inv s → retrievals s !! l = Some r → finalized r = true → index r = -1.
Proof.
  intros Hinv Hl Hf. destruct (decide (index r = -1)) as [|Hne]; [done|].
  pose proof (inv_queued _ _ _ (inv_mem s Hinv) l r Hl Hne). congruence.
Qed.

(** What popIfNotEmpty does to the objects. *)
Lemma popIfNotEmpty_life s s' x :
  Inv s → popIfNotEmpty s = (s', x) →
  length (retrievals s') = length (retrievals s) ∧
  ∀ (l : nat) r, retrievals s !! l = Some r →
    ∃ r', retrievals s' !! l = Some r' ∧ life r r' ∧ requests r' = requests r.
Proof.
  intros Hinv Hpop. destruct x as [x|].
  - destruct (popIfNotEmpty_claimed _ _ _ Hinv Hpop)
      as (_ & _ & _ & Hs & (rx & Hrx & Hqx) & _).
    split; [by rewrite (shape_length _ _ Hs), length_alter|].
    intros l r Hl.
    destruct (life_alter_shape (retrievals s) (retrievals s') x (set_index (-1)) Hs
                (λ l r, Inv_settled s l r Hinv)) with (l := l) (r := r)
      as (r' & Hr' & Hlife & E & _); [|done|].
    { intros r0 Hr0. rewrite Hrx in Hr0. injection Hr0 as <-. split; [|done].
      by apply (inv_queued _ _ _ (inv_mem s Hinv) x rx). }
    exists r'. split; [done|]. split; [done|].
    rewrite (erase_requests _ _ E). by destruct (decide (l = x)).
  - destruct (popIfNotEmpty_none _ _ Hinv Hpop) as [-> _]. split; [done|].
    intros l r Hl. exists r. split; [done|]. split; [apply life_refl|done].
Qed.

(** The result of FinalizeRequest on a retrieval that is not finalized. *)
Lemma FinalizeRequest_run l blk err s r :
  Inv s → retrievals s !! l = Some r → finalized r = false →
  FinalizeRequest l blk err s =
    Some (finalize_state l blk err r s, notify_events (requests r) blk err).
Proof.
  intros Hinv Hl Hf. pose proof (inv_mem s Hinv) as [R Q N V E O].
  unfold FinalizeRequest. rewrite Hl. rewrite notify_requests_spec.
  - reflexivity.
  - by eapply chans_NoDup.
  - intros w Hw. simpl. by eapply E.
Qed.

Lemma finalize_state_life l blk err r s :
  retrievals s !! l = Some r → finalized r = false →
  ∀ (l0 : nat) r0, retrievals s !! l0 = Some r0 →
    ∃ r', retrievals (finalize_state l blk err r s) !! l0 = Some r' ∧ life r0 r' ∧
          requests r' = requests r0.
Proof.
  intros Hl Hf l0 r0 Hl0. simpl.
  destruct (decide (l0 = l)) as [->|Hne].
  - rewrite list_lookup_alter_eq, Hl0. simpl. eexists. split; [done|].
    rewrite Hl in Hl0. injection Hl0 as <-. split; [|done].
    split; [done|]. intros Hf'. congruence.
  - rewrite list_lookup_alter_ne by congruence.
    exists r0. split; [done|]. split; [apply life_refl|done].
Qed.

(** The retrieval that a creating pass leaves, and what becomes of the
    others. *)
Lemma Request_loop_create_life fuel canceled pass c prio md ptr blk s s' ch n :
  Inv s → ptrs s !! ptr = None →
  Request_loop (S fuel) canceled pass c prio md ptr blk s = Some (s', ch, n) →
  (∃ r', ptrs s' !! ptr = Some (length (retrievals s)) ∧
     retrievals s' !! length (retrievals s) = Some r' ∧
     requests r' = [mkRequest blk ch] ∧ finalized r' = false ∧ queued r' ∧
     priority r' = prio) ∧
  length (retrievals s') = S (length (retrievals s)) ∧
  (∀ (l : nat) r, retrievals s !! l = Some r →
     ∃ r', retrievals s' !! l = Some r' ∧ life r r' ∧ priority r' = priority r ∧
           (index r' = -1 ↔ index r = -1)).
Proof.
  intros Hinv Hp Hreq.
  destruct (Request_loop_create fuel canceled pass c prio md ptr blk s Hinv Hp)
    as (s2 & E2 & Hinv2 & Hp2 & _ & _ & _ & _ & _ & Hs).
  rewrite E2 in Hreq. injection Hreq as <- <- <-.
  set (w := mkRequest blk (length (errChans s))) in *.
  set (new := new_retrieval c prio md ptr w (insertionCount s)) in *.
  assert (length (retrievals s2) = S (length (retrievals s))) as Hlen.
  { rewrite (shape_length _ _ Hs), length_app. simpl. lia. }
  split; [|split; [done|]].
  - destruct (shape_forward (retrievals s ++ [new]) (retrievals s2)
                (length (retrievals s)) new Hs) as (r' & Hr' & E & Hi).
    { by apply list_lookup_middle. }
    exists r'. split; [by rewrite Hp2, lookup_insert_eq|]. split; [done|].
    split; [by rewrite (erase_requests _ _ E)|].
    split; [by rewrite (erase_finalized _ _ E)|].
    split; [|by rewrite (erase_priority _ _ E)].
    unfold queued. intros Hi0. apply Hi in Hi0. done.
  - intros l r Hl.
    destruct (shape_forward (retrievals s ++ [new]) (retrievals s2) l r Hs)
      as (r' & Hr' & E & Hi).
    { by apply lookup_app_l_Some. }
    exists r'. split; [done|]. split; [|split; [by apply erase_priority|done]].
    split; [by apply Hi|].
    intros Hf. apply erase_eq; [done|].
    pose proof (Inv_settled s l r Hinv Hl Hf) as Hi0. rewrite Hi0. by apply Hi.
Qed.

(** The retrieval that an attaching pass finds, and what becomes of the
    others. *)
Lemma Request_loop_attach_life fuel canceled pass c prio md ptr blk s (br : nat) s' ch n :
  Inv s → ptrs s !! ptr = Some br → canceled pass = false →
  Request_loop (S fuel) canceled pass c prio md ptr blk s = Some (s', ch, n) →
  (∃ r r', retrievals s !! br = Some r ∧ ptrs s' !! ptr = Some br ∧
     retrievals s' !! br = Some r' ∧
     requests r' = requests r ++ [mkRequest blk ch] ∧ finalized r' = false ∧
     priority r' = (if bool_decide (index r ≠ -1) && (prio >? priority r)
                    then prio else priority r) ∧
     (index r' = -1 ↔ index r = -1)) ∧
  length (retrievals s') = length (retrievals s) ∧
  (∀ (l : nat) r, retrievals s !! l = Some r →
     ∃ r', retrievals s' !! l = Some r' ∧ life r r' ∧
           (l ≠ br → priority r' = priority r) ∧ (index r' = -1 ↔ index r = -1)).
Proof.
  intros Hinv Hp Hcan Hreq.
  destruct (Request_loop_attach fuel canceled pass c prio md ptr blk s br Hinv Hp Hcan)
    as (s2 & r & Hr & E2 & Hinv2 & Hp2 & _ & _ & _ & _ & _ & Hs).
  rewrite E2 in Hreq. injection Hreq as <- <- <-.
  destruct (Inv_registered s ptr br Hinv Hp) as (r0 & Hr0 & Hb & Hf).
  rewrite Hr in Hr0. injection Hr0 as <-.
  set (w := mkRequest blk (length (errChans s))) in *.
  set (g := λ r : blockRetrieval, attach_update prio w (set_ctx (AddContext (ctx r) c) r)) in *.
  assert (∀ r0, index (g r0) = index r0) as Hgi.
  { intros r0. unfold g, attach_update. simpl. by destruct (_ && _). }
  pose proof (life_alter_shape (retrievals s) (retrievals s2) br g Hs
                (λ l r, Inv_settled s l r Hinv)) as Hlife.
  assert (∀ r0, retrievals s !! br = Some r0 →
            finalized r0 = false ∧ (index r0 = -1 → index (g r0) = -1)) as Hg.
  { intros r0 Hr0. rewrite Hr in Hr0. injection Hr0 as <-. split; [done|].
    by rewrite Hgi. }
  specialize (Hlife Hg).
  split; [|split].
  - destruct (Hlife br r Hr) as (r' & Hr' & _ & E & Hi).
    rewrite decide_True in E, Hi by done.
    exists r, r'. split; [done|]. split; [by rewrite Hp2|]. split; [done|].
    split; [|split; [|split]].
    + rewrite (erase_requests _ _ E). unfold g, attach_update. simpl.
      by destruct (_ && _).
    + rewrite (erase_finalized _ _ E). unfold g, attach_update. simpl.
      by destruct (_ && _).
    + rewrite (erase_priority _ _ E). unfold g, attach_update. simpl.
      by destruct (_ && _).
    + by rewrite Hi, Hgi.
  - by rewrite (shape_length _ _ Hs), length_alter.
  - intros l r0 Hl. destruct (Hlife l r0 Hl) as (r' & Hr' & HL & E & Hi).
    exists r'. split; [done|]. split; [done|]. split.
    + intros Hne. rewrite decide_False in E by done. by apply erase_priority.
    + destruct (decide (l = br)); [by rewrite Hi, Hgi|done].
Qed.

(** Every result of the loop of Request: the retrieval registered for the
    locator carries the new request, and the other objects live on. *)
Lemma Request_loop_life fuel canceled pass c prio md ptr blk s s' ch n :
  Inv s → Request_loop fuel canceled pass c prio md ptr blk s = Some (s', ch, n) →
  (∃ (br : nat) r', ptrs s' !! ptr = Some br ∧ retrievals s' !! br = Some r' ∧
     mkRequest blk ch ∈ requests r' ∧ finalized r' = false) ∧
  (∀ (l : nat) r, retrievals s !! l = Some r →
     ∃ r', retrievals s' !! l = Some r' ∧ life r r') ∧
  (∀ (l : nat) r', retrievals s' !! l = Some r' →
     (length (retrievals s) ≤ l)%nat → requests r' ≠ []).
Proof.
  intros Hinv Hreq. destruct fuel as [|fuel]; [done|].
  assert (∀ s0, Inv s0 → retrievals s0 = retrievals s → ptrs s0 !! ptr = None →
            Request_loop (S fuel) canceled pass c prio md ptr blk s0 = Some (s', ch, n) ∨
            (∃ fuel', Request_loop (S fuel') canceled (S pass) c prio md ptr blk s0
                        = Some (s', ch, n)) →
            (∃ (br : nat) r', ptrs s' !! ptr = Some br ∧ retrievals s' !! br = Some r' ∧
               mkRequest blk ch ∈ requests r' ∧ finalized r' = false) ∧
            (∀ (l : nat) r, retrievals s !! l = Some r →
               ∃ r', retrievals s' !! l = Some r' ∧ life r r') ∧
            (∀ (l : nat) r', retrievals s' !! l = Some r' →
               (length (retrievals s) ≤ l)%nat → requests r' ≠ [])) as Hcreate.
  { intros s0 Hinv0 Em Hp0 Hrun.
    assert (∃ fuel0 pass0, Request_loop (S fuel0) canceled pass0 c prio md ptr blk s0
                             = Some (s', ch, n)) as (fuel0 & pass0 & Hrun0).
    { destruct Hrun as [?|[fuel' ?]]; eauto. }
    destruct (Request_loop_create_life _ _ _ _ _ _ _ _ _ _ _ _ Hinv0 Hp0 Hrun0)
      as ((r' & Hp' & Hr' & Hq' & Hf' & _ & _) & Hlen & Hold).
    rewrite Em in *. split; [|split].
    - exists (length (retrievals s)), r'. split; [done|]. split; [done|].
      split; [|done]. rewrite Hq'. by left.
    - intros l r Hl. destruct (Hold l r Hl) as (r1 & Hr1 & HL & _). eauto.
    - intros l r1 Hr1 Hge. pose proof (lookup_lt_Some _ _ _ Hr1) as Hlt.
      assert (l = length (retrievals s)) as -> by lia.
      rewrite Hr' in Hr1. injection Hr1 as <-. by rewrite Hq'. }
  destruct (ptrs s !! ptr) as [br|] eqn:Hp.
  - destruct (canceled pass) eqn:Hcan.
    + destruct (Request_loop_retry fuel canceled pass c prio md ptr blk s br Hinv Hp Hcan)
        as (E & Hinv1 & Hp1).
      rewrite E in Hreq. destruct fuel as [|fuel]; [done|].
      apply (Hcreate (set_ptrs (delete ptr) s)); [done|done|done|]. right. eauto.
    + destruct (Request_loop_attach_life _ _ _ _ _ _ _ _ _ _ _ _ _ Hinv Hp Hcan Hreq)
        as ((r & r' & Hr & Hp' & Hr' & Hq' & Hf' & _) & Hlen & Hold).
      split; [|split].
      * exists br, r'. split; [done|]. split; [done|]. split; [|done].
        rewrite Hq'. apply elem_of_app. right. by left.
      * intros l r0 Hl. destruct (Hold l r0 Hl) as (r1 & Hr1 & HL & _). eauto.
      * intros l r1 Hr1 Hge. pose proof (lookup_lt_Some _ _ _ Hr1). lia.
  - apply (Hcreate s); [done|done|done|]. by left.
Qed.

(** What a transition does to the objects in memory. *)
Lemma step_life s ev s' :
  Inv s → step s ev s' →
  (∀ (l : nat) r, retrievals s !! l = Some r →
     ∃ r', retrievals s' !! l = Some r' ∧ life r r') ∧
  (∀ (l : nat) r', retrievals s' !! l = Some r' →
     (length (retrievals s) ≤ l)%nat → requests r' ≠ []).
Proof.
  intros Hinv Hstep.
  assert (∀ s0, retrievals s0 = retrievals s →
            (∀ (l : nat) r, retrievals s !! l = Some r →
               ∃ r', retrievals s0 !! l = Some r' ∧ life r r') ∧
            (∀ (l : nat) r', retrievals s0 !! l = Some r' →
               (length (retrievals s) ≤ l)%nat → requests r' ≠ [])) as Hsame.
  { intros s0 E. rewrite E. split.
    - intros l r Hl. exists r. split; [done|apply life_refl].
    - intros l r Hl Hge. pose proof (lookup_lt_Some _ _ _ Hl). lia. }
  assert (∀ s0, length (retrievals s0) = length (retrievals s) →
            (∀ (l : nat) r, retrievals s !! l = Some r →
               ∃ r', retrievals s0 !! l = Some r' ∧ life r r') →
            (∀ (l : nat) r, retrievals s !! l = Some r →
               ∃ r', retrievals s0 !! l = Some r' ∧ life r r') ∧
            (∀ (l : nat) r', retrievals s0 !! l = Some r' →
               (length (retrievals s) ≤ l)%nat → requests r' ≠ [])) as Hlen.
  { intros s0 E Hold. split; [done|].
    intros l r Hl Hge. pose proof (lookup_lt_Some _ _ _ Hl). lia. }
  destruct Hstep as
    [fuel canceled c prio md ptr blk s s' ch n Hreq
    |fuel canceled c prio md ptr blk s s' ch n Hreq
    |s s' ch Hw
    |s n s1 ch s' ev Ha Hwq Hdir Hserve
    |sel s n s' ev Ha Hrun
    |s n s' x Ha Hpop
    |l blk err s r s' ev Hr Hi Hf HF
    |s Hsel
    |s s' ev Hsh
    |ch v buf s Hch
    |ch v buf s Hch].
  - unfold Request in Hreq. destruct (brq_doneCh s).
    + injection Hreq as <- <- <-. by apply Hsame.
    + destruct (Request_loop_life _ _ _ _ _ _ _ _ _ _ _ _ Hinv Hreq) as (_ & H1 & H2).
      by split.
  - destruct (Request_loop_life _ _ _ _ _ _ _ _ _ _ _ _ Hinv Hreq) as (_ & H1 & H2).
    by split.
  - unfold WorkOnRequest in Hw. simpl in Hw. destruct (decide _); [|done].
    injection Hw as <- <-. by apply Hsame.
  - pose proof (Inv_set_attempts s n Hinv) as Hinv0.
    destruct (WorkOnRequest_direct_Inv _ Hinv0) as (Hinv1 & Hempty & Hfresh).
    rewrite Hdir in Hinv1, Hempty, Hfresh. simpl in Hinv1, Hempty, Hfresh.
    destruct (notifyWorker_serve_spec s1 ch Hinv1 Hempty Hfresh)
      as (s2 & x & Hpop & E & Hinv2).
    rewrite E in Hserve. injection Hserve as <- <-.
    destruct (popIfNotEmpty_life _ _ _ Hinv1 Hpop) as [Hl1 Hold1].
    unfold WorkOnRequest_direct in Hdir. injection Hdir as <- <-.
    apply Hlen; [done|].
    intros l r Hl. destruct (Hold1 l r Hl) as (r' & Hr' & HL & _). eauto.
  - pose proof (Inv_set_attempts s n Hinv) as Hinv0. destruct sel.
    + destruct (brq_doneCh s) eqn:Hd; [|by (unfold notifyWorker_run in Hrun; simpl in Hrun;
                                            rewrite Hd in Hrun)].
      destruct (notifyWorker_run_done _ Hinv0 Hd)
        as [[Hh E]|(s1 & x & r1 & Hpop & Hr1 & Hi1 & Hf1 & E & Hinv1 & Hinv2)];
        rewrite E in Hrun; injection Hrun as <- <-.
      * by apply Hsame.
      * destruct (popIfNotEmpty_life _ _ _ Hinv0 Hpop) as [Hl1 Hold1].
        apply Hlen; [simpl; by rewrite length_alter|].
        intros l r Hl. destruct (Hold1 l r Hl) as (r' & Hr' & HL & _).
        destruct (finalize_state_life x None io_EOF r1 s1 Hr1 Hf1 l r' Hr')
          as (r2 & Hr2 & HL2 & _).
        exists r2. split; [done|]. by eapply life_trans.
    + destruct (workerQueue s) as [|ch rest] eqn:Hwq;
        [by (unfold notifyWorker_run in Hrun; simpl in Hrun; rewrite Hwq in Hrun)|].
      destruct (notifyWorker_run_worker (set_attempts n s) ch rest Hinv0 Hwq)
        as (s1 & x & Hpop & E & Hinv2).
      rewrite E in Hrun. injection Hrun as <- <-.
      assert (Inv (set_workerQueue rest (set_attempts n s))) as Hinv1.
      { apply (Inv_workers s); simpl; try done; try apply Hinv.
        - assert (NoDup (ch :: rest)) as Hnd by (rewrite <- Hwq; apply Hinv).
          by apply NoDup_cons in Hnd as [_ ?].
        - intros y Hy. apply (inv_wq_empty s Hinv). rewrite Hwq. by right. }
      destruct (popIfNotEmpty_life _ _ _ Hinv1 Hpop) as [Hl1 Hold1].
      apply Hlen; [done|].
      intros l r Hl. destruct (Hold1 l r Hl) as (r' & Hr' & HL & _). eauto.
  - pose proof (Inv_set_attempts s n Hinv) as Hinv0.
    destruct (popIfNotEmpty_life _ _ _ Hinv0 Hpop) as [Hl1 Hold1].
    apply Hlen; [done|].
    intros l r Hl. destruct (Hold1 l r Hl) as (r' & Hr' & HL & _). eauto.
  - rewrite (FinalizeRequest_run l blk err s r Hinv Hr Hf) in HF.
    injection HF as <- <-.
    apply Hlen; [simpl; by rewrite length_alter|].
    intros l0 r0 Hl0.
    destruct (finalize_state_life l blk err r s Hr Hf l0 r0 Hl0) as (r' & Hr' & HL & _).
    eauto.
  - by apply Hsame.
  - apply Shutdown_close_spec in Hsh as (Hd & -> & ->). by apply Hsame.
  - by apply Hsame.
  - by apply Hsame.
Qed.

Lemma steps_life s tr s' :
  Inv s → steps s tr s' →
  ∀ (l : nat) r, retrievals s !! l = Some r →
    ∃ r', retrievals s' !! l = Some r' ∧ life r r'.
Proof.
  intros Hinv Hsteps. induction Hsteps as [s|s tr s1 ev s2 H1 IH H2].
  - intros l r Hl. exists r. split; [done|apply life_refl].
  - intros l r Hl. destruct (IH Hinv l r Hl) as (r1 & Hr1 & HL1).
    destruct (steps_facts _ _ _ Hinv H1) as (Hinv1 & _).
    destruct (step_life _ _ _ Hinv1 H2) as [Hold _].
    destruct (Hold l r1 Hr1) as (r2 & Hr2 & HL2).
    exists r2. split; [done|]. by eapply life_trans.
Qed.

(** Every retrieval has a waiter from the start. *)
Lemma reachable_waiters s (l : nat) r :
  reachable s → retrievals s !! l = Some r → requests r ≠ [].
Proof.
  intros (n & tg & tr & Hsteps). revert l r.
  remember (newBlockRetrievalQueue n tg) as s0 eqn:E0.
  induction Hsteps as [s|s tr s1 ev s2 H1 IH H2]; intros l r Hl.
  - subst s. simpl in Hl. by rewrite lookup_nil in Hl.
  - specialize (IH E0).
    assert (Inv s1) as Hinv1.
    { destruct (steps_facts _ _ _ (Inv_new n tg) ltac:(by rewrite <- E0)) as [? _]. done. }
    destruct (decide (l < length (retrievals s1))%nat) as [Hlt|Hge].
    + destruct (lookup_lt_is_Some_2 _ _ Hlt) as [r1 Hr1].
      destruct (step_facts _ _ _ Hinv1 H2) as (_ & _ & Hle & _).
      destruct (Hle l r1 Hr1) as (r2 & Hr2 & _ & _ & _ & _ & Hpre).
      rewrite Hl in Hr2. injection Hr2 as <-.
      intros Hnil. rewrite Hnil in Hpre. apply prefix_nil_inv in Hpre.
      by apply (IH l r1).
    + destruct (step_life _ _ _ Hinv1 H2) as [_ Hnew].
      apply (Hnew l r Hl). lia.
Qed.

(** ** Claims *)

Lemma cstep_step s ev x s' : cstep s ev x s' → step s ev s'.
Proof.
  intros H. destruct H.
  - by eapply step_Request.
  - by eapply step_Request_locked.
  - by eapply step_WorkOnRequest.
  - by eapply step_rendezvous.
  - by eapply step_attempt.
  - by eapply step_attempt.
  - by eapply step_pop.
  - by eapply step_Finalize.
  - by apply step_Shutdown_select.
  - by apply step_Shutdown_close.
  - by eapply step_receive.
  - by eapply step_worker_receive.
Qed.

Lemma step_cstep s ev s' : step s ev s' → ∃ x, cstep s ev x s'.
Proof.
  intros H. destruct H as
    [fuel canceled c prio md ptr blk s s' ch n Hreq
    |fuel canceled c prio md ptr blk s s' ch n Hreq
    |s s' ch Hw
    |s n s1 ch s' ev Ha Hwq Hdir Hserve
    |sel s n s' ev Ha Hrun
    |s n s' x Ha Hpop
    |l blk err s r s' ev Hr Hi Hf HF
    |s Hsel
    |s s' ev Hsh
    |ch v buf s Hch
    |ch v buf s Hch].
  - eexists. by eapply cstep_Request.
  - eexists. by eapply cstep_Request_locked.
  - eexists. by eapply cstep_WorkOnRequest.
  - eexists. by eapply cstep_rendezvous.
  - destruct sel.
    + eexists. by eapply cstep_attempt_doneCh.
    + destruct (workerQueue s) as [|ch rest] eqn:Hwq.
      { unfold notifyWorker_run in Hrun. simpl in Hrun. by rewrite Hwq in Hrun. }
      eexists. by eapply cstep_attempt_workerQueue.
  - eexists. by eapply cstep_pop.
  - eexists. by eapply cstep_Finalize.
  - eexists. by apply cstep_Shutdown_select.
  - eexists. by apply cstep_Shutdown_close.
  - eexists. by eapply cstep_receive.
  - eexists. by eapply cstep_worker_receive.
Qed.

Lemma csteps_steps s tr cl s' : csteps s tr cl s' → steps s tr s'.
Proof.
  induction 1 as [|s tr cl s1 ev x s2 H1 IH H2]; [apply steps_refl|].
  eapply steps_snoc; [done|by eapply cstep_step].
Qed.

Lemma steps_csteps s tr s' : steps s tr s' → ∃ cl, csteps s tr cl s'.
Proof.
  induction 1 as [|s tr s1 ev s2 H1 [cl IH] H2]; [eexists; apply csteps_refl|].
  destruct (step_cstep _ _ _ H2) as [x Hx].
  eexists. by eapply csteps_snoc.
Qed.

(** What popIfNotEmpty does to the indices. *)
Lemma popIfNotEmpty_index s s' x :
  Inv s → popIfNotEmpty s = (s', x) →
  (∀ l : nat, x = Some l → ∃ r, retrievals s !! l = Some r ∧ index r ≠ -1) ∧
  (∀ l : nat, (∃ r', retrievals s' !! l = Some r' ∧ index r' = -1) ↔
              (∃ r, retrievals s !! l = Some r ∧ index r = -1) ∨ x = Some l).
Proof.
  intros Hinv Hpop. destruct x as [x|].
  - destruct (popIfNotEmpty_claimed _ _ _ Hinv Hpop)
      as (_ & _ & _ & Hs & (rx & Hrx & Hqx) & _).
    split; [intros l [= <-]; eauto|].
    pose proof (life_alter_shape (retrievals s) (retrievals s') x (set_index (-1)) Hs
                  (λ l r, Inv_settled s l r Hinv)) as Hlife.
    assert (∀ r0, retrievals s !! x = Some r0 →
              finalized r0 = false ∧ (index r0 = -1 → index (set_index (-1) r0) = -1))
      as Hg.
    { intros r0 Hr0. rewrite Hrx in Hr0. injection Hr0 as <-. split; [|done].
      by apply (inv_queued _ _ _ (inv_mem s Hinv) x rx). }
    specialize (Hlife Hg). intros l. split.
    + intros (r' & Hr' & Hi').
      destruct (decide (l = x)) as [->|Hne]; [by right|]. left.
      pose proof (lookup_lt_Some _ _ _ Hr') as Hlt.
      rewrite (shape_length _ _ Hs), length_alter in Hlt.
      destruct (lookup_lt_is_Some_2 _ _ Hlt) as [r Hr].
      destruct (Hlife l r Hr) as (r2 & Hr2 & _ & _ & Hi).
      rewrite Hr' in Hr2. injection Hr2 as <-.
      rewrite decide_False in Hi by done. exists r. split; [done|]. by apply Hi.
    + intros [(r & Hr & Hi)|[= <-]].
      * destruct (Hlife l r Hr) as (r' & Hr' & [Hidx _] & _). eauto.
      * destruct (Hlife x rx Hrx) as (r' & Hr' & _ & _ & Hi).
        rewrite decide_True in Hi by done. exists r'. split; [done|]. by apply Hi.
  - destruct (popIfNotEmpty_none _ _ Hinv Hpop) as [-> _]. split; [done|].
    intros l. split; [by left|]. by intros [?|?].
Qed.

(** What the loop of Request does to the indices: those of the objects
    in memory stay, and a new object is queued. *)
Lemma Request_loop_index fuel canceled pass c prio md ptr blk s s' ch n :
  Inv s → Request_loop fuel canceled pass c prio md ptr blk s = Some (s', ch, n) →
  ∀ l : nat, (∃ r', retrievals s' !! l = Some r' ∧ index r' = -1) ↔
             (∃ r, retrievals s !! l = Some r ∧ index r = -1).
Proof.
  intros Hinv Hreq. destruct fuel as [|fuel]; [done|].
  assert (∀ s0, Inv s0 → retrievals s0 = retrievals s → ptrs s0 !! ptr = None →
            (∃ fuel0 pass0, Request_loop (S fuel0) canceled pass0 c prio md ptr blk s0
                              = Some (s', ch, n)) →
            ∀ l : nat, (∃ r', retrievals s' !! l = Some r' ∧ index r' = -1) ↔
                       (∃ r, retrievals s !! l = Some r ∧ index r = -1)) as Hcreate.
  { intros s0 Hinv0 Em Hp0 (fuel0 & pass0 & Hrun0).
    destruct (Request_loop_create_life _ _ _ _ _ _ _ _ _ _ _ _ Hinv0 Hp0 Hrun0)
      as ((r1 & _ & Hr1 & _ & _ & Hq1 & _) & Hlen & Hold).
    rewrite Em in *. intros l. split.
    - intros (r' & Hr' & Hi').
      pose proof (lookup_lt_Some _ _ _ Hr') as Hlt.
      destruct (decide (l = length (retrievals s))) as [->|Hne].
      { rewrite Hr1 in Hr'. injection Hr' as <-. done. }
      destruct (lookup_lt_is_Some_2 (retrievals s) l ltac:(lia)) as [r Hr].
      destruct (Hold l r Hr) as (r2 & Hr2 & _ & _ & Hi).
      rewrite Hr' in Hr2. injection Hr2 as <-. exists r. split; [done|]. by apply Hi.
    - intros (r & Hr & Hi). destruct (Hold l r Hr) as (r' & Hr' & _ & _ & Hi').
      exists r'. split; [done|]. by apply Hi'. }
  destruct (ptrs s !! ptr) as [br|] eqn:Hp.
  - destruct (canceled pass) eqn:Hcan.
    + destruct (Request_loop_retry fuel canceled pass c prio md ptr blk s br Hinv Hp Hcan)
        as (E & Hinv1 & Hp1).
      rewrite E in Hreq. destruct fuel as [|fuel]; [done|].
      apply (Hcreate (set_ptrs (delete ptr) s)); try done. eauto.
    + destruct (Request_loop_attach_life _ _ _ _ _ _ _ _ _ _ _ _ _ Hinv Hp Hcan Hreq)
        as (_ & Hlen & Hold).
      intros l. split.
      * intros (r' & Hr' & Hi').
        pose proof (lookup_lt_Some _ _ _ Hr') as Hlt. rewrite Hlen in Hlt.
        destruct (lookup_lt_is_Some_2 _ _ Hlt) as [r Hr].
        destruct (Hold l r Hr) as (r2 & Hr2 & _ & _ & Hi).
        rewrite Hr' in Hr2. injection Hr2 as <-. exists r. split; [done|]. by apply Hi.
      * intros (r & Hr & Hi). destruct (Hold l r Hr) as (r' & Hr' & _ & _ & Hi').
        exists r'. split; [done|]. by apply Hi'.
  - apply (Hcreate s); try done. eauto.
Qed.

Lemma alter_keeps_index (m : list blockRetrieval) (x : nat) g (l : nat) :
  (∀ r, index (g r) = index r) →
  (∃ r', alter g x m !! l = Some r' ∧ index r' = -1) ↔
  (∃ r, m !! l = Some r ∧ index r = -1).
Proof.
  intros Hg. destruct (decide (l = x)) as [->|Hne].
  - rewrite list_lookup_alter_eq. destruct (m !! x) as [r|]; simpl.
    + split.
      * intros (r' & [= <-] & Hi). rewrite Hg in Hi. eauto.
      * intros (r' & [= <-] & Hi). eexists. split; [done|]. by rewrite Hg.
    + split; intros (? & ? & _); done.
  - by rewrite list_lookup_alter_ne by congruence.
Qed.

(** A transition adds to the retrievals whose index is the sentinel the
    one that its call of popIfNotEmpty returns, which was queued. *)
Lemma cstep_index s ev x s' :
  Inv s → cstep s ev x s' →
  (∀ l : nat, x = Some l → ∃ r, retrievals s !! l = Some r ∧ index r ≠ -1) ∧
  (∀ l : nat, (∃ r', retrievals s' !! l = Some r' ∧ index r' = -1) ↔
              (∃ r, retrievals s !! l = Some r ∧ index r = -1) ∨ x = Some l).
Proof.
  intros Hinv Hstep.
  assert (∀ s0, retrievals s0 = retrievals s →
            (∀ l : nat, @None nat = Some l →
               ∃ r, retrievals s !! l = Some r ∧ index r ≠ -1) ∧
            (∀ l : nat, (∃ r', retrievals s0 !! l = Some r' ∧ index r' = -1) ↔
                        (∃ r, retrievals s !! l = Some r ∧ index r = -1) ∨
                        @None nat = Some l)) as Hsame.
  { intros s0 E. rewrite E. split; [done|]. intros l. split; [by left|]. by intros [?|?]. }
  assert (∀ s0 s1 s2 y, Inv s0 → retrievals s0 = retrievals s →
            popIfNotEmpty s0 = (s1, y) →
            (∀ l : nat, (∃ r', retrievals s2 !! l = Some r' ∧ index r' = -1) ↔
                        (∃ r, retrievals s1 !! l = Some r ∧ index r = -1)) →
            (∀ l : nat, y = Some l → ∃ r, retrievals s !! l = Some r ∧ index r ≠ -1) ∧
            (∀ l : nat, (∃ r', retrievals s2 !! l = Some r' ∧ index r' = -1) ↔
                        (∃ r, retrievals s !! l = Some r ∧ index r = -1) ∨ y = Some l))
    as Hpopped.
  { intros s0 s1 s2 y Hinv0 E0 Hpop E1. rewrite <- E0.
    destruct (popIfNotEmpty_index s0 s1 y Hinv0 Hpop) as [Hq Hidx].
    split; [done|]. intros l. by rewrite (E1 l), (Hidx l). }
  destruct Hstep as
    [fuel canceled c prio md ptr blk s s' ch n Hreq
    |fuel canceled c prio md ptr blk s s' ch n Hreq
    |s s' ch Hw
    |s n s1 ch s' ev Ha Hwq Hdir Hserve
    |s n s' ev Ha Hrun
    |s n ch rest s' ev Ha Hwq Hrun
    |s n s' x Ha Hpop
    |l blk err s r s' ev Hr Hi Hf HF
    |s Hsel
    |s s' ev Hsh
    |ch v buf s Hch
    |ch v buf s Hch].
  - unfold Request in Hreq. destruct (brq_doneCh s).
    + injection Hreq as <- <- <-. by apply Hsame.
    + split; [done|]. intros l.
      rewrite (Request_loop_index _ _ _ _ _ _ _ _ _ _ _ _ Hinv Hreq l).
      split; [by left|]. by intros [?|?].
  - split; [done|]. intros l.
    rewrite (Request_loop_index _ _ _ _ _ _ _ _ _ _ _ _ Hinv Hreq l).
    split; [by left|]. by intros [?|?].
  - unfold WorkOnRequest in Hw. simpl in Hw. destruct (decide _); [|done].
    injection Hw as <- <-. by apply Hsame.
  - pose proof (Inv_set_attempts s n Hinv) as Hinv0.
    destruct (WorkOnRequest_direct_Inv _ Hinv0) as (Hinv1 & Hempty & Hfresh).
    rewrite Hdir in Hinv1, Hempty, Hfresh. simpl in Hinv1, Hempty, Hfresh.
    destruct (notifyWorker_serve_spec s1 ch Hinv1 Hempty Hfresh)
      as (s2 & y & Hpop & E & _).
    rewrite E in Hserve. injection Hserve as <- <-. rewrite Hpop.
    unfold WorkOnRequest_direct in Hdir. injection Hdir as <- <-.
    by apply (Hpopped _ s2 (set_workChans _ s2) y Hinv1 eq_refl Hpop).
  - pose proof (Inv_set_attempts s n Hinv) as Hinv0.
    destruct (brq_doneCh s) eqn:Hd; [|by (unfold notifyWorker_run in Hrun; simpl in Hrun;
                                          rewrite Hd in Hrun)].
    destruct (notifyWorker_run_done _ Hinv0 Hd)
      as [[Hh E]|(s1 & x & r1 & Hpop & Hr1 & Hi1 & Hf1 & E & Hinv1 & Hinv2)];
      rewrite E in Hrun; injection Hrun as <- <-.
    + destruct (popIfNotEmpty_spec _ Hinv0) as [[_ Ep]|(x & rx & h' & Hx & _)];
        [rewrite Ep|by rewrite Hh in Hx].
      by apply Hsame.
    + rewrite Hpop.
      apply (Hpopped (set_attempts n s) s1 (finalize_state x None io_EOF r1 s1)
               (Some x) Hinv0 eq_refl Hpop).
      intros l. simpl. by apply alter_keeps_index.
  - pose proof (Inv_set_attempts s n Hinv) as Hinv0.
    destruct (notifyWorker_run_worker (set_attempts n s) ch rest Hinv0 Hwq)
      as (s1 & y & Hpop & E & Hinv2).
    rewrite E in Hrun. injection Hrun as <- <-. rewrite Hpop.
    assert (Inv (set_workerQueue rest (set_attempts n s))) as Hinv1.
    { apply (Inv_workers s); simpl; try done; try apply Hinv.
      - assert (NoDup (ch :: rest)) as Hnd by (rewrite <- Hwq; apply Hinv).
        by apply NoDup_cons in Hnd as [_ ?].
      - intros z Hz. apply (inv_wq_empty s Hinv). rewrite Hwq. by right. }
    by apply (Hpopped _ s1 (set_workChans _ s1) y Hinv1 eq_refl Hpop).
  - pose proof (Inv_set_attempts s n Hinv) as Hinv0.
    by apply (Hpopped _ s' s' x Hinv0 eq_refl Hpop).
  - rewrite (FinalizeRequest_run l blk err s r Hinv Hr Hf) in HF.
    injection HF as <- <-. split; [done|]. intros l0. simpl.
    rewrite alter_keeps_index by done. split; [by left|]. by intros [?|?].
  - by apply Hsame.
  - apply Shutdown_close_spec in Hsh as (Hd & -> & ->). by apply Hsame.
  - by apply Hsame.
  - by apply Hsame.
Qed.

Lemma csteps_claims n tg tr cl s :
  csteps (newBlockRetrievalQueue n tg) tr cl s → Inv s ∧ claims_ok cl s.
Proof.
  remember (newBlockRetrievalQueue n tg) as s0 eqn:E0.
  induction 1 as [s|s tr cl s1 ev x s2 H1 IH H2].
  - subst s. split; [apply Inv_new|]. split; [apply NoDup_nil_2|].
    intros l. simpl. split.
    + intros Hl. by apply elem_of_nil in Hl.
    + intros (r & Hr & _). by rewrite lookup_nil in Hr.
  - destruct (IH E0) as (Hinv1 & Hnd & Hcl).
    destruct (step_facts _ _ _ Hinv1 (cstep_step _ _ _ _ H2)) as (Hinv2 & _).
    destruct (cstep_index _ _ _ _ Hinv1 H2) as [Hq Hidx].
    split; [done|]. split.
    + apply NoDup_app. split; [done|]. split.
      * intros l Hl Hx. destruct x as [x|]; [|by apply elem_of_nil in Hx].
        apply list_elem_of_singleton in Hx. subst l.
        destruct (Hq x eq_refl) as (r & Hr & Hi).
        apply Hcl in Hl as (r0 & Hr0 & Hi0). rewrite Hr in Hr0.
        injection Hr0 as <-. done.
      * destruct x; [apply NoDup_singleton|apply NoDup_nil_2].
    + intros l. rewrite elem_of_app, (Hidx l), (Hcl l).
      destruct x as [x|]; simpl.
      * rewrite list_elem_of_singleton. split.
        -- intros [?| ->]; [by left|by right].
        -- intros [?|[= ->]]; [by left|by right].
      * split.
        -- intros [?|Hl]; [by left|by apply elem_of_nil in Hl].
        -- intros [?|?]; [by left|done].
Qed.

(** ** C1: FinalizeRequest delivers exactly once to every waiter *)

Lemma sends_notify_events reqs blk err :
  sends (notify_events reqs blk err) = (λ w, (doneCh w, err)) <$> reqs.
Proof.
  induction reqs as [|w reqs IH]; [done|].
  change (notify_events (w :: reqs) blk err) with
    ((match blk with Some b => [EvSet (block w) b] | None => [] end
      ++ [EvSend (doneCh w) err]) ++ notify_events reqs blk err).
  unfold sends in *. rewrite omap_app, IH. by destruct blk.
Qed.

Lemma populate_lookup reqs b : ∀ t w,
  w ∈ reqs → populate t reqs (Some b) !! block w = Some b.
Proof.
  unfold populate.
  assert (∀ reqs (t : gmap nat nat) (a : nat), t !! a = Some b →
            foldl (λ t w, <[block w := b]> t) t reqs !! a = Some b) as Hkeep.
  { clear. induction reqs as [|w' reqs IH]; intros t a Ha; simpl; [done|].
    apply IH. destruct (decide (block w' = a)) as [->|].
    - by rewrite lookup_insert_eq.
    - by rewrite lookup_insert_ne. }
  induction reqs as [|w' reqs IH]; intros t w Hw; simpl.
  { by apply elem_of_nil in Hw. }
  apply elem_of_cons in Hw as [->|Hw]; [|by apply IH].
  apply Hkeep. by rewrite lookup_insert_eq.
Qed.

(** C1. In every reachable state, the (first and only) call of
    FinalizeRequest on a retrieval with K waiters returns, none of its
    sends blocks, and its effects are, for every waiter in list order,
    the copy of the block into the waiter's target when a block is
    present, then the send of the terminal value on the waiter's
    completion channel: K sends in all, one on each waiter's channel,
    which was empty before and holds exactly that value afterwards. *)
Theorem C1_FinalizeRequest_delivers_once s retrieval r blk err :
  reachable s → retrievals s !! retrieval = Some r → finalized r = false →
  ∃ s' ev,
    FinalizeRequest retrieval blk err s = Some (s', ev) ∧
    ev = (requests r ≫= λ w,
            match blk with Some b => [EvSet (block w) b] | None => [] end
            ++ [EvSend (doneCh w) err]) ∧
    sends ev = (λ w, (doneCh w, err)) <$> requests r ∧
    length (sends ev) = length (requests r) ∧
    NoDup (doneCh <$> requests r) ∧
    (∀ w, w ∈ requests r →
       errChans s !! doneCh w = Some [] ∧ errChans s' !! doneCh w = Some [err]) ∧
    (∀ ch : nat, ch ∉ doneCh <$> requests r → errChans s' !! ch = errChans s !! ch) ∧
    (∀ w b, blk = Some b → w ∈ requests r → targets s' !! block w = Some b).
Proof.
  intros Hreach Hr Hf. destruct (reachable_Inv s Hreach) as [Hinv _].
  pose proof (inv_mem s Hinv) as [R Q N V E O].
  pose proof (chans_NoDup _ _ _ N Hr) as Hnd.
  assert (∀ w, w ∈ requests r → errChans s !! doneCh w = Some []) as Hempty
    by (intros w Hw; by eapply E).
  eexists _, _. split.
  { unfold FinalizeRequest. rewrite Hr. apply notify_requests_spec; [done|].
    intros w Hw. simpl. by apply Hempty. }
  split; [reflexivity|]. split; [apply sends_notify_events|].
  split; [by rewrite sends_notify_events, length_fmap|].
  split; [done|]. simpl. split; [|split].
  - intros w Hw. split; [by apply Hempty|].
    apply deliver_lookup; [done|by apply list_elem_of_fmap_2|].
    eapply lookup_lt_Some. by apply Hempty.
  - intros ch Hch. by apply deliver_lookup_ne.
  - intros w b -> Hw. by apply populate_lookup.
Qed.

Lemma C1_witness :
  ∃ s' ev,
    FinalizeRequest 0 (Some 42%nat) nil_error two_waiters_claimed = Some (s', ev) ∧
    sends ev = [(0%nat, nil_error); (1%nat, nil_error)].
Proof.
  destruct (C1_FinalizeRequest_delivers_once two_waiters_claimed 0
              {| blockPtr := 100; kmd := 7;
                 ctx := {| merged := [0%nat; 1%nat]; released := false |};
                 requests := [mkRequest 0 0; mkRequest 1 1];
                 index := -1; priority := 20; insertionOrder := 0 |}
              (Some 42%nat) nil_error two_waiters_claimed_reachable
              ltac:(vm_compute; reflexivity) ltac:(reflexivity))
    as (s' & ev & H1 & _ & H2 & _).
  exists s', ev. split; [exact H1|exact H2].
Defined.

(** ** C2: the heap and the registry *)

Lemma canceled_then_requested_reachable : reachable canceled_then_requested.
Proof. repeat apply reachable_after_Request. apply reachable_new. Qed.

(** Counterexample to C2 as stated: after the cancellation race the first
    retrieval has been removed from the registry and is still in the
    heap, next to the retrieval that replaced it. *)
Lemma C2_counterexample :
  reachable canceled_then_requested ∧
  heap canceled_then_requested = [0%nat; 1%nat] ∧
  map_to_list (ptrs canceled_then_requested) = [(100%nat, 1%nat)] ∧
  ¬ heap_is_registered_unclaimed canceled_then_requested.
Proof.
  split; [apply canceled_then_requested_reachable|].
  assert (heap canceled_then_requested = [0%nat; 1%nat]) as Hh
    by (vm_compute; reflexivity).
  assert (map_to_list (ptrs canceled_then_requested) = [(100%nat, 1%nat)]) as Hp
    by (vm_compute; reflexivity).
  split; [done|]. split; [done|].
  intros Hc. destruct (proj1 (Hc 0%nat)) as [[p Hreg] _].
  { rewrite Hh. left. }
  apply elem_of_map_to_list in Hreg. rewrite Hp in Hreg.
  apply list_elem_of_singleton in Hreg. discriminate.
Qed.

(** Every reachable state is reached by a run with its claims. *)
Lemma reachable_csteps s :
  reachable s ↔ ∃ n tg tr cl, csteps (newBlockRetrievalQueue n tg) tr cl s.
Proof.
  split.
  - intros (n & tg & tr & H). destruct (steps_csteps _ _ _ H) as [cl Hcl]. eauto.
  - intros (n & tg & tr & cl & H). exists n, tg, tr. by eapply csteps_steps.
Qed.

Lemma csteps_snoc_eq s tr cl s1 ev x s2 tr' cl' :
  csteps s tr cl s1 → cstep s1 ev x s2 → tr' = tr ++ ev → cl' = cl ++ option_list x →
  csteps s tr' cl' s2.
Proof. intros H1 H2 -> ->. by eapply csteps_snoc. Qed.

(** The run that leads to [replaced_and_claimed]: retrieval 0 is claimed. *)
Lemma replaced_and_claimed_run :
  csteps (newBlockRetrievalQueue 1 ∅) [] [0%nat] replaced_and_claimed.
Proof.
  eapply (csteps_snoc_eq _ [] [] (after_WorkOnRequest canceled_then_requested) []
            (Some 0%nat)); [| |reflexivity|reflexivity].
  - eapply (csteps_snoc_eq _ [] [] canceled_then_requested [] None);
      [| |reflexivity|reflexivity].
    + eapply (csteps_snoc_eq _ [] [] one_request [] None); [| |reflexivity|reflexivity].
      * eapply (csteps_snoc_eq _ [] [] (newBlockRetrievalQueue 1 ∅) [] None);
          [apply csteps_refl| |reflexivity|reflexivity].
        apply (cstep_Request 2 never 0 10 7 100 0 _ _ 0%nat 1%nat).
        vm_compute. reflexivity.
      * apply (cstep_Request 2 at_first 1 10 7 100 1 _ _ 1%nat 2%nat).
        vm_compute. reflexivity.
    + apply (cstep_WorkOnRequest _ _ 0%nat). vm_compute. reflexivity.
  - assert ((popIfNotEmpty
               (set_workerQueue [] (set_attempts 1 (after_WorkOnRequest
                                                    canceled_then_requested)))).2
            = Some 0%nat) as <- by (vm_compute; reflexivity).
    apply (cstep_attempt_workerQueue _ 1 0%nat []);
      [vm_compute; reflexivity..].
Qed.

(** C2, amended.  A retrieval is claimed when popIfNotEmpty returns it.
    In every run of the queue from its creation, [cl] being the
    retrievals claimed in the run: the heap holds exactly the retrievals
    that have been created and not claimed, each of them once and none
    of them finalized; so a registered retrieval that has not been
    claimed is in the heap, at the position its index names; the index of
    a retrieval is the sentinel exactly when it has been claimed, and no
    retrieval is claimed twice; the registry holds at most one retrieval
    per locator, which carries that locator and is not finalized, so
    that no retrieval is registered under two locators.  (A retrieval in
    the heap need not be registered: the cancellation branch of Request
    deregisters the locator and leaves the retrieval to the workers.)
    By [reachable_csteps] the states of these runs are the reachable
    states. *)
Theorem C2_heap_and_registry n tg tr cl s :
  csteps (newBlockRetrievalQueue n tg) tr cl s →
  (∀ l : nat, l ∈ heap s ↔ (l < length (retrievals s))%nat ∧ l ∉ cl) ∧
  (∀ p l r, ptrs s !! p = Some l → retrievals s !! l = Some r → l ∉ cl →
     0 ≤ index r ∧ heap s !! Z.to_nat (index r) = Some l) ∧
  (∀ (l : nat) r, retrievals s !! l = Some r → (index r = -1 ↔ l ∈ cl)) ∧
  (∀ (l : nat) r, l ∈ heap s → retrievals s !! l = Some r → finalized r = false) ∧
  NoDup (heap s) ∧ NoDup cl ∧
  (∀ p l, ptrs s !! p = Some l →
     ∃ r, retrievals s !! l = Some r ∧ blockPtr r = p ∧ finalized r = false) ∧
  (∀ p p' l, ptrs s !! p = Some l → ptrs s !! p' = Some l → p = p').
Proof.
  intros Hrun. destruct (csteps_claims _ _ _ _ _ Hrun) as (Hinv & Hnd & Hcl).
  pose proof (inv_wf s Hinv) as Hwf. pose proof Hwf as [W1 W2].
  pose proof (inv_mem s Hinv) as [R Q N V E O].
  assert (∀ (l : nat) r, retrievals s !! l = Some r → (index r = -1 ↔ l ∈ cl)) as Hidx.
  { intros l r Hr. rewrite (Hcl l). split.
    - intros Hi. eauto.
    - intros (r' & Hr' & Hi). rewrite Hr in Hr'. by injection Hr' as <-. }
  split; [|split; [|split; [|split; [|split; [|split; [|split]]]]]].
  - intros l. rewrite (heap_wf_elem (the_heap s) l Hwf). simpl. split.
    + intros (r & Hr & Hi). split; [by eapply lookup_lt_Some|].
      intros Hin. by apply (Hidx l r Hr) in Hin.
    + intros [Hlt Hnin]. destruct (lookup_lt_is_Some_2 _ _ Hlt) as [r Hr].
      exists r. split; [done|]. intros Hi. by apply Hnin, (Hidx l r Hr).
  - intros p l r _ Hr Hnin. apply (W2 l r Hr). intros Hi.
    by apply Hnin, (Hidx l r Hr).
  - exact Hidx.
  - intros l r Hl Hr. apply (Q l r Hr).
    apply (heap_wf_elem (the_heap s) l Hwf) in Hl as (r' & Hr' & Hq).
    simpl in Hr'. rewrite Hr in Hr'. by injection Hr' as <-.
  - apply NoDup_alt. intros i j l Hi Hj. by eapply (heap_wf_inj (the_heap s)).
  - exact Hnd.
  - exact R.
  - intros p p' l Hp Hp'. destruct (R _ _ Hp) as (r & Hr & <- & _).
    destruct (R _ _ Hp') as (r' & Hr' & <- & _). congruence.
Qed.

Lemma C2_witness :
  (∀ l : nat, l ∈ heap replaced_and_claimed ↔
     (l < length (retrievals replaced_and_claimed))%nat ∧ l ∉ [0%nat]) ∧
  NoDup (heap replaced_and_claimed) ∧
  (∀ p p' l, ptrs replaced_and_claimed !! p = Some l →
     ptrs replaced_and_claimed !! p' = Some l → p = p').
Proof.
  destruct (C2_heap_and_registry 1 ∅ [] [0%nat] replaced_and_claimed
              replaced_and_claimed_run) as (H1 & _ & _ & _ & H5 & _ & _ & H8).
  split; [exact H1|]. split; [exact H5|exact H8].
Defined.

(** ** C3: priorities *)

(** The retrieval a request attaches to, after the request. *)
Lemma Request_loop_attach_at fuel canceled pass c prio md ptr blk s (br : nat) r :
  Inv s → ptrs s !! ptr = Some br → retrievals s !! br = Some r →
  canceled pass = false →
  ∃ s' r',
    Request_loop (S fuel) canceled pass c prio md ptr blk s
      = Some (s', length (errChans s), S pass) ∧
    Inv s' ∧ ptrs s' = ptrs s ∧ same_workers s s' ∧
    length (heap s') = length (heap s) ∧
    retrievals s' !! br = Some r' ∧
    priority r' = (if bool_decide (queued r) && (prio >? priority r)
                   then prio else priority r) ∧
    (queued r' ↔ queued r) ∧ kmd r' = kmd r ∧ blockPtr r' = blockPtr r ∧
    requests r' = requests r ++ [mkRequest blk (length (errChans s))].
Proof.
  intros Hinv Hp Hr Hcan.
  destruct (Request_loop_attach fuel canceled pass c prio md ptr blk s br Hinv Hp Hcan)
    as (s' & r0 & Hr0 & E & Hinv' & Hp' & _ & _ & Hl & _ & Hw & Hs).
  rewrite Hr in Hr0. injection Hr0 as <-.
  set (w := mkRequest blk (length (errChans s))) in *.
  set (g := λ r : blockRetrieval, attach_update prio w (set_ctx (AddContext (ctx r) c) r))
    in *.
  destruct (shape_fields (retrievals s') (alter g br (retrievals s)) br (g r))
    as (r' & Hr' & Ep & Epr & _ & Hi).
  { by symmetry. }
  { by rewrite list_lookup_alter_eq, Hr. }
  exists s', r'. split; [done|]. split; [done|]. split; [done|]. split; [done|].
  split; [done|]. split; [done|].
  assert (index (g r) = index r) as Eidx.
  { unfold g, attach_update. simpl. by destruct (_ && _). }
  assert (priority (g r) =
          if bool_decide (queued r) && (prio >? priority r) then prio else priority r)
    as Eprio.
  { unfold g, attach_update, queued. simpl. by destruct (_ && _). }
  assert (payload (g r) =
          (blockPtr r, kmd r, AddContext (ctx r) c, requests r ++ [w])) as Epl.
  { unfold g, attach_update. simpl. by destruct (_ && _). }
  rewrite Epl in Ep. unfold payload in Ep. injection Ep as Eb Ek _ Erq.
  split; [by rewrite Epr, Eprio|]. split; [unfold queued; rewrite <- Eidx; tauto|].
  done.
Qed.

(** The retrieval a request creates, after the request. *)
Lemma Request_loop_create_at fuel canceled pass c prio md ptr blk s :
  Inv s → ptrs s !! ptr = None →
  ∃ s' r',
    Request_loop (S fuel) canceled pass c prio md ptr blk s
      = Some (s', length (errChans s), S pass) ∧
    Inv s' ∧ ptrs s' = <[ptr := length (retrievals s)]> (ptrs s) ∧
    same_workers s s' ∧ length (heap s') = S (length (heap s)) ∧
    attempts s' = S (attempts s) ∧
    insertionCount s' = (insertionCount s + 1) mod uint64_modulus ∧
    length (retrievals s') = S (length (retrievals s)) ∧
    retrievals s' !! length (retrievals s) = Some r' ∧
    queued r' ∧ priority r' = prio ∧ kmd r' = md ∧ blockPtr r' = ptr ∧
    insertionOrder r' = insertionCount s ∧
    requests r' = [mkRequest blk (length (errChans s))] ∧
    (∀ (l : nat) r, retrievals s !! l = Some r →
       ∃ r0, retrievals s' !! l = Some r0 ∧ payload r0 = payload r ∧
             priority r0 = priority r ∧ insertionOrder r0 = insertionOrder r ∧
             (queued r0 ↔ queued r)).
Proof.
  intros Hinv Hp.
  destruct (Request_loop_create fuel canceled pass c prio md ptr blk s Hinv Hp)
    as (s' & E & Hinv' & Hp' & Hc' & Ha' & Hl' & He' & Hw' & Hs').
  set (new := new_retrieval c prio md ptr (mkRequest blk (length (errChans s)))
                (insertionCount s)) in *.
  destruct (shape_fields (retrievals s') (retrievals s ++ [new])
              (length (retrievals s)) new) as (r' & Hr' & Epl & Epr & Eio & Hi).
  { by symmetry. }
  { by apply list_lookup_middle. }
  exists s', r'. split; [done|]. split; [done|]. split; [done|]. split; [done|].
  split; [done|]. split; [done|]. split; [done|]. split.
  { rewrite (shape_length _ _ Hs'), length_app. simpl. lia. }
  split; [done|]. unfold payload in Epl. injection Epl as Eb Ek _ Erq.
  split; [unfold queued; simpl in Hi; intros Hx; apply Hi in Hx; done|].
  split; [done|]. split; [done|]. split; [done|]. split; [done|]. split; [done|].
  intros l r Hl.
  destruct (shape_fields (retrievals s') (retrievals s ++ [new]) l r)
    as (r0 & Hr0 & Epl0 & Epr0 & Eio0 & Hi0).
  { by symmetry. }
  { by apply lookup_app_l_Some. }
  exists r0. unfold queued. repeat split; try done; tauto.
Qed.

(** Requests on a locator whose retrieval is registered and queued. *)
Lemma Request_seq_registered ptr reqs : ∀ s (br : nat) r,
  reachable s → brq_doneCh s = false →
  ptrs s !! ptr = Some br → retrievals s !! br = Some r → queued r →
  ∃ s' (br' : nat) r', Request_seq ptr reqs s = Some s' ∧ reachable s' ∧
    ptrs s' !! ptr = Some br' ∧ retrievals s' !! br' = Some r' ∧ queued r' ∧
    priority r' = priority_after (priority r) reqs.
Proof.
  induction reqs as [|[cn c prio md blk] reqs IH]; intros s br r Hreach Hopen Hp Hr Hq.
  { exists s, br, r. simpl. done. }
  destruct (reachable_Inv s Hreach) as [Hinv _].
  assert (∃ s1 ch n (br1 : nat) r1,
            Request 2 cn c prio md ptr blk s = Some (s1, ch, n) ∧
            brq_doneCh s1 = false ∧ ptrs s1 !! ptr = Some br1 ∧
            retrievals s1 !! br1 = Some r1 ∧ queued r1 ∧
            priority r1 = (if cn 0%nat then prio else Z.max (priority r) prio))
    as (s1 & ch & n & br1 & r1 & EReq & Hopen1 & Hp1 & Hr1 & Hq1 & Epr1).
  { unfold Request. rewrite Hopen. destruct (cn 0%nat) eqn:Hcan.
    - destruct (Request_loop_retry 1 cn 0 c prio md ptr blk s br Hinv Hp Hcan)
        as (E & Hinv0 & Hp0).
      destruct (Request_loop_create_at 0 cn 1 c prio md ptr blk _ Hinv0 Hp0)
        as (s1 & r1 & E1 & _ & Hp1 & (_ & _ & Hd1 & _) & _ & _ & _ & _ & Hr1 & Hq1
            & Epr1 & _).
      exists s1, (length (errChans s)), 2%nat, (length (retrievals s)), r1.
      rewrite E. split; [exact E1|]. split; [by rewrite Hd1|].
      split; [by rewrite Hp1, lookup_insert_eq|]. done.
    - destruct (Request_loop_attach_at 1 cn 0 c prio md ptr blk s br r Hinv Hp Hr Hcan)
        as (s1 & r1 & E1 & _ & Hp1 & (_ & _ & Hd1 & _) & _ & Hr1 & Epr & Hq1 & _).
      exists s1, (length (errChans s)), 1%nat, br, r1.
      split; [exact E1|]. split; [by rewrite Hd1|]. split; [by rewrite Hp1|].
      split; [done|]. split; [tauto|].
      rewrite Epr, bool_decide_eq_true_2 by done. simpl.
      destruct (Z.gtb_spec prio (priority r)); lia. }
  destruct (IH s1 br1 r1) as (s' & br' & r' & E' & Hreach' & Hp' & Hr' & Hq' & Epr');
    try done.
  { eapply reachable_step; [exact Hreach|]. eapply step_Request. exact EReq. }
  exists s', br', r'. simpl. rewrite EReq.
  split; [done|]. split; [done|]. split; [done|]. split; [done|]. split; [done|].
  by rewrite Epr', Epr1.
Qed.

Lemma priority_after_live p reqs :
  Forall (λ q, arg_canceled q 0%nat = false) reqs →
  priority_after p reqs = foldl Z.max p (arg_priority <$> reqs).
Proof.
  revert p. induction reqs as [|q reqs IH]; intros p Hall; [done|].
  apply Forall_cons in Hall as [Hq Hall]. unfold priority_after in *. simpl.
  rewrite Hq. by apply IH.
Qed.

Lemma claimed_by_worker_reachable : reachable claimed_by_worker.
Proof.
  apply reachable_after_attempt, reachable_after_WorkOnRequest,
    reachable_after_Request, reachable_new.
Qed.

(** Counterexample to C3 as stated: locator 100 is requested with
    priority 10, a worker claims the retrieval, locator 100 is requested
    with priority 50; the stored priority stays 10 and is not the maximum
    of the requested priorities. *)
Lemma C3_counterexample :
  reachable claimed_by_worker ∧
  qview <$> retrievals claimed_by_worker !! 0%nat = Some (-1, 10, 0) ∧
  map_to_list (ptrs claimed_by_worker) = [(100%nat, 0%nat)] ∧
  ∃ s' ch,
    Request 2 never 1 50 7 100 1 claimed_by_worker = Some (s', ch, 1%nat) ∧
    priority <$> retrievals s' !! 0%nat = Some 10 ∧
    length <$> (requests <$> retrievals s' !! 0%nat) = Some 2%nat ∧
    10 ≠ Z.max 10 50.
Proof.
  split; [apply claimed_by_worker_reachable|].
  split; [vm_compute; reflexivity|]. split; [vm_compute; reflexivity|].
  destruct (Request 2 never 1 50 7 100 1 claimed_by_worker) as [[[s' ch] n]|] eqn:E;
    vm_compute in E; [|discriminate].
  injection E as <- <- <-. eexists _, _. split; [reflexivity|].
  split; [vm_compute; reflexivity|]. split; [vm_compute; reflexivity|]. lia.
Qed.

(** C3, amended.  (a) For requests with priorities p1..pN made one after
    the other on one locator, the first of which creates the retrieval,
    with no worker claim in between: after the N-th request, for every
    N, the retrieval registered for the locator is in the heap, which is
    ordered, and its stored priority is the maximum of the priorities of
    the requests since, and including, the last one that created a
    retrieval; this is the first request or a later one whose AddContext
    reported cancellation, which replaces the registered retrieval by a
    new one of its own priority.  When no request is canceled the stored
    priority is max(p1..pN).  (b) A request that attaches to a retrieval
    updates the stored priority to the maximum of the stored and the
    requested one and re-heapifies when the retrieval is still in the
    heap; when the retrieval has been claimed by a worker (its index is
    the sentinel) the stored priority is left as it is, whatever the
    requested priority.  (c) In every run the stored priority of a
    retrieval never decreases. *)
Theorem C3_priority_max_while_queued :
  (∀ s ptr q reqs,
     reachable s → brq_doneCh s = false → ptrs s !! ptr = None →
     ∃ s' (br : nat) r',
       Request_seq ptr (q :: reqs) s = Some s' ∧ reachable s' ∧
       ptrs s' !! ptr = Some br ∧ retrievals s' !! br = Some r' ∧
       priority r' = priority_after (arg_priority q) reqs ∧
       (Forall (λ q, arg_canceled q 0%nat = false) reqs →
          br = length (retrievals s) ∧
          priority r' = foldl Z.max (arg_priority q) (arg_priority <$> reqs)) ∧
       heap s' !! Z.to_nat (index r') = Some br ∧ heap_ordered (the_heap s')) ∧
  (∀ s fuel canceled c prio md ptr blk (br : nat) r,
     reachable s → ptrs s !! ptr = Some br → retrievals s !! br = Some r →
     canceled 0%nat = false →
     ∃ s' ch r',
       Request_loop (S fuel) canceled 0 c prio md ptr blk s = Some (s', ch, 1%nat) ∧
       retrievals s' !! br = Some r' ∧
       heap_wf (the_heap s') ∧ heap_ordered (the_heap s') ∧
       (queued r →
          priority r' = Z.max (priority r) prio ∧
          heap s' !! Z.to_nat (index r') = Some br) ∧
       (index r = -1 → priority r' = priority r ∧ index r' = -1)) ∧
  (∀ s tr s' (l : nat) r,
     reachable s → steps s tr s' → retrievals s !! l = Some r →
     ∃ r', retrievals s' !! l = Some r' ∧ priority r ≤ priority r').
Proof.
  split; [|split].
  - intros s ptr [cn c prio md blk] reqs Hreach Hopen Hp.
    destruct (reachable_Inv s Hreach) as [Hinv _].
    destruct (Request_loop_create_at 1 cn 0 c prio md ptr blk s Hinv Hp)
      as (s1 & r1 & E & Hinv1 & Hp1 & (_ & _ & Hd1 & _) & _ & _ & _ & _ & Hr1 & Hq1
          & Epr1 & _).
    assert (Request 2 cn c prio md ptr blk s = Some (s1, length (errChans s), 1%nat))
      as EReq by (unfold Request; by rewrite Hopen).
    assert (reachable s1) as Hreach1
      by (eapply reachable_step; [exact Hreach|]; eapply step_Request; exact EReq).
    assert (ptrs s1 !! ptr = Some (length (retrievals s))) as Hp1'
      by (rewrite Hp1; apply lookup_insert_eq).
    destruct (Request_seq_registered ptr reqs s1 (length (retrievals s)) r1)
      as (s' & br' & r' & E' & Hreach' & Hp' & Hr' & Hq' & Epr'); try done.
    { congruence. }
    exists s', br', r'. simpl. rewrite EReq.
    destruct (reachable_Inv s' Hreach') as [Hinv' _].
    split; [done|]. split; [done|]. split; [done|]. split; [done|].
    split; [by rewrite Epr', Epr1|]. split.
    { intros Hlive. split.
      - clear -Hlive E' Hp' Hp1' Hreach1 Hd1 Hopen Hr1 Hq1.
        assert (brq_doneCh s1 = false) as Hopen1 by congruence.
        clear Hd1 Hopen. revert s1 r1 Hreach1 Hopen1 Hp1' Hr1 Hq1 E' Hp'.
        generalize (length (retrievals s)) as br.
        induction reqs as [|[cn c prio md blk] reqs IH];
          intros br s1 r1 Hreach1 Hopen1 Hp1 Hr1 Hq1 E' Hp'.
        { simpl in E'. injection E' as <-. congruence. }
        apply Forall_cons in Hlive as [Hq Hlive]. simpl in Hq.
        destruct (reachable_Inv s1 Hreach1) as [Hinv1 _].
        destruct (Request_loop_attach_at 1 cn 0 c prio md ptr blk s1 br r1
                    Hinv1 Hp1 Hr1 Hq)
          as (s2 & r2 & E2 & _ & Hp2 & (_ & _ & Hd2 & _) & _ & Hr2 & _ & Hq2 & _).
        assert (Request 2 cn c prio md ptr blk s1
                  = Some (s2, length (errChans s1), 1%nat))
          as EReq by (unfold Request; by rewrite Hopen1).
        simpl in E'. rewrite EReq in E'.
        apply (IH Hlive br s2 r2); try done.
        + eapply reachable_step; [exact Hreach1|]. eapply step_Request. exact EReq.
        + congruence.
        + congruence.
        + tauto.
      - rewrite Epr', Epr1. by apply priority_after_live. }
    split; [|apply Hinv'].
    by destruct (proj2 (inv_wf s' Hinv') _ _ Hr' Hq') as [_ H].
  - intros s fuel canceled c prio md ptr blk br r Hreach Hp Hr Hcan.
    destruct (reachable_Inv s Hreach) as [Hinv _].
    destruct (Request_loop_attach_at fuel canceled 0 c prio md ptr blk s br r
                Hinv Hp Hr Hcan)
      as (s' & r' & E & Hinv' & _ & _ & _ & Hr' & Epr & Hq & _).
    exists s', (length (errChans s)), r'.
    split; [done|]. split; [done|]. split; [apply Hinv'|]. split; [apply Hinv'|].
    split.
    + intros Hqr. split.
      * rewrite Epr, bool_decide_eq_true_2 by done. simpl.
        destruct (Z.gtb_spec prio (priority r)); lia.
      * assert (queued r') as Hq' by tauto.
        by destruct (proj2 (inv_wf s' Hinv') _ _ Hr' Hq') as [_ H].
    + intros Hi. split.
      * rewrite Epr, bool_decide_eq_false_2; [done|]. unfold queued. tauto.
      * destruct (decide (index r' = -1)) as [|Hn]; [done|].
        exfalso. apply Hq in Hn. done.
  - intros s tr s' l r Hreach Hsteps Hl.
    destruct (reachable_Inv s Hreach) as [Hinv _].
    destruct (steps_facts _ _ _ Hinv Hsteps) as (_ & _ & Hle & _).
    destruct (Hle l r Hl) as (r' & Hr' & _ & _ & _ & Hp & _). eauto.
Qed.

Lemma C3_witness :
  (∃ s' (br : nat) r',
     Request_seq 100 [mkArgs never 0 10 7 0; mkArgs never 1 50 7 1; mkArgs never 2 30 7 2]
       (newBlockRetrievalQueue 1 ∅) = Some s' ∧
     ptrs s' !! 100%nat = Some br ∧ retrievals s' !! br = Some r' ∧
     br = 0%nat ∧ priority r' = 50) ∧
  (∃ s' (br : nat) r',
     Request_seq 100 [mkArgs never 0 10 7 0; mkArgs at_first 1 60 7 1;
                      mkArgs at_first 2 20 7 2]
       (newBlockRetrievalQueue 1 ∅) = Some s' ∧
     ptrs s' !! 100%nat = Some br ∧ retrievals s' !! br = Some r' ∧
     priority r' = 20) ∧
  (∃ s' ch r',
     Request_loop 1 never 0 1 50 7 100 1 claimed_by_worker = Some (s', ch, 1%nat) ∧
     retrievals s' !! 0%nat = Some r' ∧ priority r' = 10).
Proof.
  destruct C3_priority_max_while_queued as (Ha & Hb & _). split; [|split].
  - destruct (Ha (newBlockRetrievalQueue 1 ∅) 100%nat (mkArgs never 0 10 7 0)
                [mkArgs never 1 50 7 1; mkArgs never 2 30 7 2]
                (reachable_new 1 ∅) eq_refl ltac:(reflexivity))
      as (s' & br & r' & E & _ & Hp & Hr & _ & Hlive & _).
    exists s', br, r'. split; [exact E|]. split; [exact Hp|]. split; [exact Hr|].
    apply Hlive. repeat constructor.
  - destruct (Ha (newBlockRetrievalQueue 1 ∅) 100%nat (mkArgs never 0 10 7 0)
                [mkArgs at_first 1 60 7 1; mkArgs at_first 2 20 7 2]
                (reachable_new 1 ∅) eq_refl ltac:(reflexivity))
      as (s' & br & r' & E & _ & Hp & Hr & Epr & _).
    exists s', br, r'. split; [exact E|]. split; [exact Hp|]. split; [exact Hr|exact Epr].
  - destruct (Hb claimed_by_worker 0%nat never 1%nat 50 7%nat 100%nat 1%nat 0%nat
                {| blockPtr := 100; kmd := 7;
                   ctx := {| merged := [0%nat]; released := false |};
                   requests := [mkRequest 0 0];
                   index := -1; priority := 10; insertionOrder := 0 |}
                claimed_by_worker_reachable
                ltac:(vm_compute; reflexivity) ltac:(vm_compute; reflexivity) eq_refl)
      as (s' & ch & r' & E & Hr & _ & _ & _ & Hc).
    exists s', ch, r'. split; [exact E|]. split; [exact Hr|].
    exact (proj1 (Hc eq_refl)).
Defined.

(** ** C4: the order of service *)

Lemma brh_key_at h (k l : nat) r :
  h.2 !! k = Some l → h.1 !! l = Some r → brh_key h k = sort_key r.
Proof. intros Hk Hl. unfold brh_key, brh_at. rewrite Hk. simpl. by rewrite Hl. Qed.

(** No retrieval in an ordered heap is served before the root. *)
Lemma heap_root_first h (x l : nat) rx rl :
  heap_wf h → heap_ordered h →
  h.2 !! 0%nat = Some x → h.1 !! x = Some rx →
  l ∈ h.2 → h.1 !! l = Some rl → retrieval_less rl rx = false.
Proof.
  intros Hwf Ho Hx Hrx Hl Hrl. apply list_elem_of_lookup in Hl as [k Hk].
  rewrite retrieval_less_key.
  rewrite <- (brh_key_at h 0 x rx Hx Hrx), <- (brh_key_at h k l rl Hk Hrl).
  destruct (container_heap_theory.ordered_root brh_key key_lt key_le_trans h (length h.2) Ho k)
    as [Hle| ->].
  - by eapply lookup_lt_Some.
  - exact Hle.
  - apply key_le_refl.
Qed.

Lemma popIfNotEmpty_first s s' (x l : nat) rx rl :
  Inv s → popIfNotEmpty s = (s', Some x) →
  retrievals s !! x = Some rx → l ∈ heap s → retrievals s !! l = Some rl →
  retrieval_less rl rx = false.
Proof.
  intros Hinv Hpop Hrx Hl Hrl.
  destruct (popIfNotEmpty_claimed _ _ _ Hinv Hpop) as (_ & Hx & _).
  eapply (heap_root_first (the_heap s)); eauto; apply Hinv.
Qed.

Lemma retrieval_less_false a b :
  retrieval_less a b = false ↔
  priority a < priority b ∨
  (priority a = priority b ∧ insertionOrder b ≤ insertionOrder a).
Proof.
  unfold retrieval_less.
  destruct (Z.gtb_spec (priority a) (priority b)),
    (Z.ltb_spec (priority a) (priority b)),
    (Z.ltb_spec (insertionOrder a) (insertionOrder b)); split; intros; (done || lia).
Qed.

Lemma low_then_high_reachable : reachable low_then_high.
Proof. repeat apply reachable_after_Request. apply reachable_new. Qed.

(** Any number of retrievals can have been created: locators 0 .. n-1
    requested once each, with priority 0, and not yet claimed. *)
Lemma many_requests (n : nat) :
  ∃ s, reachable s ∧ brq_doneCh s = false ∧ length (retrievals s) = n ∧
       (∀ k : nat, (n ≤ k)%nat → ptrs s !! k = None) ∧
       (∀ (l : nat) r, retrievals s !! l = Some r → priority r = 0 ∧ queued r).
Proof.
  induction n as [|n (s & Hreach & Hopen & Hlen & Hfree & Hold)].
  { exists (newBlockRetrievalQueue 1 ∅). split; [apply reachable_new|].
    repeat split; try done; intros; by rewrite lookup_nil in *. }
  destruct (reachable_Inv s Hreach) as [Hinv _].
  destruct (Request_loop_create_at 1 never 0 0 0 0 n 0 s Hinv (Hfree n (le_n n)))
    as (s1 & r1 & E & Hinv1 & Hp1 & (_ & _ & Hd1 & _) & _ & _ & _ & Hl1 & Hr1 & Hq1
        & Epr1 & _ & _ & _ & _ & Hprev).
  assert (Request 2 never 0 0 0 n 0 s = Some (s1, length (errChans s), 1%nat))
    as EReq by (unfold Request; by rewrite Hopen).
  exists s1. split.
  { eapply reachable_step; [exact Hreach|]. eapply step_Request. exact EReq. }
  split; [congruence|]. split; [lia|]. split.
  - intros k Hk. rewrite Hp1, lookup_insert_ne by lia. apply Hfree. lia.
  - intros l r Hl. destruct (decide (l = n)) as [->|Hne].
    + rewrite <- Hlen, Hr1 in Hl. injection Hl as <-. done.
    + assert (l < length (retrievals s))%nat as Hlt.
      { apply lookup_lt_Some in Hl. lia. }
      destruct (lookup_lt_is_Some_2 _ _ Hlt) as [r0 Hr0].
      destruct (Hprev l r0 Hr0) as (r0' & Hr0' & _ & Epr & _ & Hq).
      rewrite Hl in Hr0'. injection Hr0' as <-.
      destruct (Hold l r0 Hr0) as [? ?]. split; [congruence|tauto].
Qed.

(** A number of creations after which the 64-bit counter is at its
    largest value. *)
Lemma counter_at_max : ∃ n : nat, Z.of_nat n mod uint64_modulus = uint64_modulus - 1.
Proof.
  exists (Z.to_nat (uint64_modulus - 1)).
  rewrite Z2Nat.id by (unfold uint64_modulus; lia).
  apply Z.mod_small. unfold uint64_modulus. lia.
Qed.

(** The bound on the number of creations in (d) and (e) below is the
    capacity of [insertionCount], a [uint64], which the code documents
    (584 years at a billion requests a second).  In this model, whose
    memory has no bound, a run can go beyond it, and the bound cannot be
    dropped: after 2^64 - 1 creations, two more requests of equal
    priority get the insertion orders 2^64 - 1 and 0, and popIfNotEmpty
    hands out the second. *)
Lemma counter_wraps :
  ∃ s (a b : nat) ra rb s',
    reachable s ∧ (a < b)%nat ∧
    retrievals s !! a = Some ra ∧ retrievals s !! b = Some rb ∧
    queued ra ∧ queued rb ∧ priority ra = priority rb ∧
    insertionOrder ra = uint64_modulus - 1 ∧ insertionOrder rb = 0 ∧
    popIfNotEmpty s = (s', Some b).
Proof.
  destruct counter_at_max as [n Hn].
  destruct (many_requests n) as (s & Hreach & Hopen & Hlen & Hfree & Hold).
  destruct (reachable_Inv s Hreach) as [Hinv _].
  (* the request that gets the last value of the counter *)
  destruct (Request_loop_create_at 1 never 0 0 1 0 n 0 s Hinv (Hfree n (le_n n)))
    as (s1 & r1 & E1 & Hinv1 & Hp1 & (_ & _ & Hd1 & _) & _ & _ & Hc1 & Hl1 & Hr1 & Hq1
        & Epr1 & _ & _ & Eio1 & _ & Hprev1).
  assert (Request 2 never 0 1 0 n 0 s = Some (s1, length (errChans s), 1%nat))
    as EReq1 by (unfold Request; by rewrite Hopen).
  assert (reachable s1) as Hreach1.
  { eapply reachable_step; [exact Hreach|]. eapply step_Request. exact EReq1. }
  (* the request that gets the first value again *)
  assert (ptrs s1 !! S n = None) as Hfree1.
  { rewrite Hp1, lookup_insert_ne by lia. apply Hfree. lia. }
  destruct (Request_loop_create_at 1 never 0 0 1 0 (S n) 0 s1 Hinv1 Hfree1)
    as (s2 & r2 & E2 & Hinv2 & Hp2 & _ & Hh2 & _ & _ & Hl2 & Hr2 & Hq2
        & Epr2 & _ & _ & Eio2 & _ & Hprev2).
  assert (Request 2 never 0 1 0 (S n) 0 s1 = Some (s2, length (errChans s1), 1%nat))
    as EReq2 by (unfold Request; by rewrite Hd1, Hopen).
  assert (reachable s2) as Hreach2.
  { eapply reachable_step; [exact Hreach1|]. eapply step_Request. exact EReq2. }
  rewrite Hlen in *. rewrite Hl1 in *.
  destruct (Hprev2 n r1 Hr1) as (r1' & Hr1' & _ & Epr1' & Eio1' & Hq1').
  assert (insertionCount s = uint64_modulus - 1) as Ecount.
  { rewrite (inv_count s Hinv), Hlen. exact Hn. }
  assert (insertionCount s1 = 0) as Ecount1.
  { rewrite Hc1, Ecount. replace (uint64_modulus - 1 + 1) with uint64_modulus by lia.
    apply Z.mod_same. unfold uint64_modulus. lia. }
  (* what popIfNotEmpty returns *)
  destruct (popIfNotEmpty_spec s2 Hinv2)
    as [[Hempty _]|(x & rx & h' & Hx & Hrx & Epop & _)].
  { rewrite Hempty in Hh2. simpl in Hh2. lia. }
  assert (S n ∈ heap s2) as Hin.
  { apply (heap_wf_elem (the_heap s2)); [apply Hinv2|]. exists r2. split; done. }
  assert (retrieval_less r2 rx = false) as Hbest.
  { eapply (popIfNotEmpty_first s2); eauto. }
  apply retrieval_less_false in Hbest.
  assert (x = S n) as ->.
  { destruct (decide (x = S n)) as [|Hx1]; [done|]. exfalso.
    destruct (decide (x = n)) as [->|Hx2].
    - rewrite Hr1' in Hrx. injection Hrx as <-.
      rewrite Epr2, Eio2, Epr1', Eio1', Epr1, Eio1, Ecount, Ecount1 in Hbest.
      unfold uint64_modulus in Hbest. lia.
    - assert (x < n)%nat as Hlt.
      { apply lookup_lt_Some in Hrx. rewrite Hl2 in Hrx. lia. }
      assert (x < length (retrievals s))%nat as Hlt0 by (rewrite Hlen; lia).
      destruct (lookup_lt_is_Some_2 _ _ Hlt0) as [r0 Hr0].
      destruct (Hprev1 x r0 Hr0) as (r0' & Hr0' & _ & Epr0' & _).
      destruct (Hprev2 x r0' Hr0') as (r0'' & Hr0'' & _ & Epr0'' & _).
      rewrite Hrx in Hr0''. injection Hr0'' as <-.
      destruct (Hold x r0 Hr0) as [Ep0 _].
      rewrite Epr2 in Hbest. lia. }
  rewrite Hr2 in Hrx. injection Hrx as <-.
  exists s2, n, (S n), r1', r2, (set_heap h' s2).
  split; [done|]. split; [lia|]. split; [done|]. split; [done|].
  split; [tauto|]. split; [done|]. split; [congruence|].
  split; [congruence|]. split; [congruence|done].
Qed.

(** The retrieval whose priority is above that of all others in the heap
    is the one that popIfNotEmpty returns. *)
Lemma served_first s (br : nat) r1 :
  Inv s → br ∈ heap s → retrievals s !! br = Some r1 →
  (∀ (l : nat) r', l ≠ br → l ∈ heap s → retrievals s !! l = Some r' →
     priority r' < priority r1) →
  ∃ s2, popIfNotEmpty s = (s2, Some br).
Proof.
  intros Hinv Hin Hr1 Hothers.
  destruct (popIfNotEmpty_spec s Hinv)
    as [[Hnil _]|(x & rx & h' & Hx & Hrx & E & _)].
  { rewrite Hnil in Hin. by apply elem_of_nil in Hin. }
  destruct (decide (x = br)) as [->|Hne]; [eauto|]. exfalso.
  pose proof (heap_root_first (the_heap s) x br rx r1 (inv_wf s Hinv)
                (inv_ordered s Hinv) Hx Hrx Hin Hr1) as Hless.
  assert (priority rx < priority r1) as Hlt.
  { apply (Hothers x rx Hne); [by eapply list_elem_of_lookup_2|done]. }
  unfold retrieval_less in Hless.
  by rewrite (proj2 (Z.gtb_lt _ _) Hlt) in Hless.
Qed.

(** Two locators requested on an empty heap, the second with the higher
    priority: the retrieval of the second is the one to be served. *)
Lemma low_then_high_first s cnx cx px mdx (x : nat) bx cny cy py mdy (y : nat) bY :
  reachable s → brq_doneCh s = false → heap s = [] →
  ptrs s !! x = None → ptrs s !! y = None → x ≠ y → px < py →
  ∃ s1 chx s2 chy ry,
    Request 2 cnx cx px mdx x bx s = Some (s1, chx, 1%nat) ∧
    Request 2 cny cy py mdy y bY s1 = Some (s2, chy, 1%nat) ∧
    Inv s2 ∧ same_workers s s2 ∧ attempts s2 = S (S (attempts s)) ∧
    length (heap s2) = 2%nat ∧
    ptrs s2 !! y = Some (S (length (retrievals s))) ∧
    retrievals s2 !! S (length (retrievals s)) = Some ry ∧ blockPtr ry = y ∧
    (S (length (retrievals s)) ∈ heap s2) ∧
    (∀ (l : nat) r', l ≠ S (length (retrievals s)) → l ∈ heap s2 →
       retrievals s2 !! l = Some r' → priority r' < priority ry).
Proof.
  intros Hreach Hopen Hempty Hpx Hpy Hxy Hlt.
  destruct (reachable_Inv s Hreach) as [Hinv _].
  destruct (Request_loop_create_at 1 cnx 0 cx px mdx x bx s Hinv Hpx)
    as (s1 & r1 & E1 & Hinv1 & Hp1 & Hsw1 & Hh1 & Ha1 & _ & Hl1 & Hr1 & Hq1
        & Epr1 & _ & _ & _ & _ & Hprev1).
  assert (ptrs s1 !! y = None) as Hpy1 by (by rewrite Hp1, lookup_insert_ne).
  destruct (Request_loop_create_at 1 cny 0 cy py mdy y bY s1 Hinv1 Hpy1)
    as (s2 & r2 & E2 & Hinv2 & Hp2 & Hsw2 & Hh2 & Ha2 & _ & Hl2 & Hr2 & Hq2
        & Epr2 & _ & Eb2 & _ & _ & Hprev2).
  destruct Hsw1 as (Hw1 & Hn1 & Hd1 & Hc1 & Ht1).
  destruct Hsw2 as (Hw2 & Hn2 & Hd2 & Hc2 & Ht2).
  rewrite Hl1 in *.
  exists s1, (length (errChans s)), s2, (length (errChans s1)), r2.
  split; [unfold Request; by rewrite Hopen|].
  split; [unfold Request; by rewrite Hd1, Hopen|].
  split; [done|]. split; [repeat split; congruence|].
  split; [congruence|]. split; [rewrite Hh2, Hh1, Hempty; done|].
  split; [by rewrite Hp2, lookup_insert_eq|]. split; [done|]. split; [done|].
  split.
  { apply (heap_wf_elem (the_heap s2)); [apply Hinv2|]. exists r2. done. }
  intros l r' Hne Hin Hr'.
  apply (heap_wf_elem (the_heap s2)) in Hin as (r0 & Hr0 & Hq0); [|apply Hinv2].
  simpl in Hr0. rewrite Hr' in Hr0. injection Hr0 as <-.
  pose proof (lookup_lt_Some _ _ _ Hr') as Hlen. rewrite Hl2 in Hlen.
  destruct (decide (l = length (retrievals s))) as [->|Hne0].
  - destruct (Hprev2 _ r1 Hr1) as (r1' & Hr1' & _ & Epr1' & _).
    rewrite Hr' in Hr1'. injection Hr1' as <-. rewrite Epr1', Epr1, Epr2. done.
  - exfalso.
    destruct (lookup_lt_is_Some_2 (retrievals s) l ltac:(lia)) as [r Hr].
    destruct (Hprev1 l r Hr) as (ra & Hra & _ & _ & _ & Hqa).
    destruct (Hprev2 l ra Hra) as (rb & Hrb & _ & _ & _ & Hqb).
    rewrite Hr' in Hrb. injection Hrb as <-.
    assert (l ∈ heap s) as Hin.
    { apply (heap_wf_elem (the_heap s)); [apply Hinv|]. exists r. split; [done|].
      unfold queued in *. tauto. }
    rewrite Hempty in Hin. by apply elem_of_nil in Hin.
Qed.

(** C4.  (a) popIfNotEmpty hands out the root of the heap, and no
    retrieval in the heap has a higher priority, or the same priority
    and a smaller insertion order.  (b) A retrieval gets its insertion
    order when it is created: the value of the 64-bit counter, which is
    the number of retrievals created so far modulo 2^64 and is then
    incremented modulo 2^64; (c) it never changes afterwards.  (d) Within
    the capacity of the counter, which the code documents, that is as
    long as fewer than 2^64 retrievals have been created, insertion
    orders are strictly increasing in the order of creation, and (e)
    service within a priority is FIFO.  (f) Whatever the locators X and
    Y, the priorities pX < pY and the other arguments: when, on a queue
    that is not shut down, with an empty heap and with room for a worker,
    X is requested with pX and then Y with pY before any worker claims
    work, the next claim of a worker yields the retrieval of Y, whether
    the worker's channel passes through the buffer of [workerQueue] or
    is received directly by a waiting matching attempt; the retrieval of
    X stays in the heap. *)
Theorem C4_order_of_service :
  (∀ s s' (x : nat) rx,
     reachable s → popIfNotEmpty s = (s', Some x) → retrievals s !! x = Some rx →
     heap s !! 0%nat = Some x ∧ (x ∉ heap s') ∧
     (∀ (l : nat) rl, l ∈ heap s → retrievals s !! l = Some rl →
        priority rl < priority rx ∨
        (priority rl = priority rx ∧ insertionOrder rx ≤ insertionOrder rl))) ∧
  (∀ s fuel canceled c prio md ptr blk,
     reachable s → ptrs s !! ptr = None →
     ∃ s' ch r',
       Request_loop (S fuel) canceled 0 c prio md ptr blk s = Some (s', ch, 1%nat) ∧
       retrievals s' !! length (retrievals s) = Some r' ∧
       insertionOrder r' = insertionCount s ∧
       insertionCount s = Z.of_nat (length (retrievals s)) mod uint64_modulus ∧
       insertionCount s' = (insertionCount s + 1) mod uint64_modulus) ∧
  (∀ s tr s' (l : nat) r,
     reachable s → steps s tr s' → retrievals s !! l = Some r →
     ∃ r', retrievals s' !! l = Some r' ∧ insertionOrder r' = insertionOrder r) ∧
  (∀ s (a b : nat) ra rb,
     reachable s → (a < b)%nat → Z.of_nat b < uint64_modulus →
     retrievals s !! a = Some ra → retrievals s !! b = Some rb →
     insertionOrder ra < insertionOrder rb) ∧
  (∀ s (a b : nat) ra rb s',
     reachable s → (a < b)%nat → Z.of_nat b < uint64_modulus →
     retrievals s !! a = Some ra → retrievals s !! b = Some rb →
     a ∈ heap s → priority ra = priority rb →
     popIfNotEmpty s ≠ (s', Some b)) ∧
  (∀ s cnx cx px mdx (x : nat) bx cny cy py mdy (y : nat) bY,
     reachable s → brq_doneCh s = false → heap s = [] →
     ptrs s !! x = None → ptrs s !! y = None → x ≠ y → px < py →
     ∃ s1 chx s2 chy (ly : nat) ry,
       Request 2 cnx cx px mdx x bx s = Some (s1, chx, 1%nat) ∧
       Request 2 cny cy py mdy y bY s1 = Some (s2, chy, 1%nat) ∧
       ptrs s2 !! y = Some ly ∧ retrievals s2 !! ly = Some ry ∧ blockPtr ry = y ∧
       (workerQueue s = [] → (1 ≤ numWorkers s)%nat →
          ∃ s3 chw n s4,
            WorkOnRequest s2 = Some (s3, chw) ∧ attempts s3 = S n ∧
            notifyWorker_run case_workerQueue (set_attempts n s3) = Some (s4, []) ∧
            workChans s4 !! chw = Some [Some ly] ∧
            length (heap s4) = 1%nat ∧ (ly ∉ heap s4)) ∧
       (∃ n s3 chw s4,
          attempts s2 = S n ∧ WorkOnRequest_direct (set_attempts n s2) = (s3, chw) ∧
          notifyWorker_serve chw s3 = Some (s4, []) ∧
          workChans s4 !! chw = Some [Some ly] ∧
          length (heap s4) = 1%nat ∧ (ly ∉ heap s4))).
Proof.
  assert (∀ s (a b : nat) ra rb,
            reachable s → (a < b)%nat → Z.of_nat b < uint64_modulus →
            retrievals s !! a = Some ra → retrievals s !! b = Some rb →
            insertionOrder ra < insertionOrder rb) as Hincr.
  { intros s a b ra rb Hreach Hab Hb Ha Hrb.
    destruct (reachable_Inv s Hreach) as [Hinv _].
    pose proof (inv_order _ _ _ (inv_mem s Hinv)) as O.
    rewrite (O a ra Ha), (O b rb Hrb).
    rewrite !Z.mod_small by (unfold uint64_modulus in *; lia). lia. }
  assert (∀ s s' (x : nat) rx,
     reachable s → popIfNotEmpty s = (s', Some x) → retrievals s !! x = Some rx →
     heap s !! 0%nat = Some x ∧ (x ∉ heap s') ∧
     (∀ (l : nat) rl, l ∈ heap s → retrievals s !! l = Some rl →
        priority rl < priority rx ∨
        (priority rl = priority rx ∧ insertionOrder rx ≤ insertionOrder rl))) as Hpop.
  { intros s s' x rx Hreach Hpop Hrx.
    destruct (reachable_Inv s Hreach) as [Hinv _].
    destruct (popIfNotEmpty_claimed _ _ _ Hinv Hpop)
      as (Hinv' & Hx & _ & _ & _ & (r' & Hr' & Hi' & _) & _).
    split; [done|]. split.
    - intros Hin. apply (heap_wf_elem (the_heap s')) in Hin as (r0 & Hr0 & Hq0);
        [|apply Hinv']. simpl in Hr0. rewrite Hr' in Hr0. injection Hr0 as <-. done.
    - intros l rl Hl Hrl. apply retrieval_less_false.
      by eapply (popIfNotEmpty_first s). }
  split; [exact Hpop|]. split; [|split; [|split; [exact Hincr|split]]].
  - intros s fuel canceled c prio md ptr blk Hreach Hp.
    destruct (reachable_Inv s Hreach) as [Hinv _].
    destruct (Request_loop_create_at fuel canceled 0 c prio md ptr blk s Hinv Hp)
      as (s' & r' & E & _ & _ & _ & _ & _ & Hc & _ & Hr' & _ & _ & _ & _ & Eio & _).
    exists s', (length (errChans s)), r'. repeat split; try done. apply Hinv.
  - intros s tr s' l r Hreach Hsteps Hl.
    destruct (reachable_Inv s Hreach) as [Hinv _].
    destruct (steps_facts _ _ _ Hinv Hsteps) as (_ & _ & Hle & _).
    destruct (Hle l r Hl) as (r' & Hr' & _ & _ & Eio & _). eauto.
  - intros s a b ra rb s' Hreach Hab Hb Ha Hrb Hin Hp Hpopb.
    destruct (Hpop s s' b rb Hreach Hpopb Hrb) as (_ & _ & Hbest).
    specialize (Hbest a ra Hin Ha).
    pose proof (Hincr s a b ra rb Hreach Hab Hb Ha Hrb). lia.
  - intros s cnx cx px mdx x bx cny cy py mdy y bY Hreach Hopen Hempty Hpx Hpy Hxy Hlt.
    destruct (low_then_high_first s cnx cx px mdx x bx cny cy py mdy y bY
                Hreach Hopen Hempty Hpx Hpy Hxy Hlt)
      as (s1 & chx & s2 & chy & ry & E1 & E2 & Hinv2 & Hsw & Ha2 & Hh2 & Hp2 & Hry
          & Eby & Hin & Hothers).
    destruct Hsw as (Hw2 & Hn2 & _).
    set (ly := S (length (retrievals s))) in *.
    assert (∀ st, Inv st → heap st = heap s2 → retrievals st = retrievals s2 →
              ∃ sp, popIfNotEmpty st = (sp, Some ly) ∧
                    length (heap sp) = 1%nat ∧ (ly ∉ heap sp)) as Hserve.
    { intros st Hinvt Eh Er.
      destruct (served_first st ly ry Hinvt) as [sp Hpopt].
      - by rewrite Eh.
      - by rewrite Er.
      - intros l r'. rewrite Eh, Er. apply Hothers.
      - exists sp. split; [done|].
        destruct (popIfNotEmpty_claimed _ _ _ Hinvt Hpopt)
          as (Hinvp & _ & Hlen & _ & _ & (r' & Hr' & Hi' & _) & _).
        split; [rewrite Eh in Hlen; lia|].
        intros Hin'. apply (heap_wf_elem (the_heap sp)) in Hin' as (r0 & Hr0 & Hq0);
          [|apply Hinvp]. simpl in Hr0. rewrite Hr' in Hr0. injection Hr0 as <-. done. }
    exists s1, chx, s2, chy, ly, ry.
    split; [done|]. split; [done|]. split; [done|]. split; [done|]. split; [done|].
    split.
    + intros Hwq Hnw.
      destruct (WorkOnRequest s2) as [[s3 chw]|] eqn:HW.
      2:{ unfold WorkOnRequest in HW. simpl in HW.
          rewrite decide_True in HW by (rewrite Hw2, Hwq, Hn2; simpl; lia). done. }
      pose proof (WorkOnRequest_Inv _ _ _ Hinv2 HW) as Hinv3.
      unfold WorkOnRequest in HW. simpl in HW. destruct (decide _); [|done].
      injection HW as <- <-.
      set (s3 := set_workerQueue _ _) in *.
      exists s3, (length (workChans s2)), (S (attempts s)).
      pose proof (Inv_set_attempts s3 (S (attempts s)) Hinv3) as Hinv0.
      destruct (notifyWorker_run_worker (set_attempts (S (attempts s)) s3)
                  (length (workChans s2)) [] Hinv0)
        as (sp & x0 & Hpop0 & E & _).
      { unfold s3. simpl. by rewrite Hw2, Hwq. }
      destruct (Hserve (set_workerQueue [] (set_attempts (S (attempts s)) s3)))
        as (sp' & Hpop' & Hlen' & Hout'); [|done|done|].
      { apply (Inv_workers s2); simpl; try done; try apply Hinv2.
        - apply NoDup_nil_2.
        - intros z Hz. by apply elem_of_nil in Hz. }
      rewrite Hpop' in Hpop0. injection Hpop0 as <- <-.
      eexists. split; [done|]. split; [done|]. split; [exact E|]. simpl.
      split; [|done].
      apply list_lookup_insert_eq. rewrite length_app. simpl. lia.
    + exists (S (attempts s)).
      pose proof (Inv_set_attempts s2 (S (attempts s)) Hinv2) as Hinv0.
      destruct (WorkOnRequest_direct_Inv _ Hinv0) as (Hinv3 & Hemptyc & Hfresh).
      set (s3 := (WorkOnRequest_direct (set_attempts (S (attempts s)) s2)).1) in *.
      set (chw := (WorkOnRequest_direct (set_attempts (S (attempts s)) s2)).2) in *.
      destruct (notifyWorker_serve_spec s3 chw Hinv3 Hemptyc Hfresh)
        as (sp & x0 & Hpop0 & E & _).
      destruct (Hserve s3 Hinv3) as (sp' & Hpop' & Hlen' & Hout'); [done|done|].
      rewrite Hpop' in Hpop0. injection Hpop0 as <- <-.
      exists s3, chw. eexists. split; [done|]. split; [done|]. split; [exact E|].
      simpl. split; [|done].
      apply list_lookup_insert_eq. eapply lookup_lt_Some. exact Hemptyc.
Qed.

Lemma C4_witness :
  (heap low_then_high !! 0%nat = Some 1%nat ∧
   (∀ (l : nat) rl, l ∈ heap low_then_high → retrievals low_then_high !! l = Some rl →
      priority rl < 50 ∨ (priority rl = 50 ∧ 1 ≤ insertionOrder rl))) ∧
  (∃ s1 chx s2 chy (ly : nat) ry,
     Request 2 never 0 10 7 100 0 (newBlockRetrievalQueue 1 ∅) = Some (s1, chx, 1%nat) ∧
     Request 2 never 1 50 7 200 1 s1 = Some (s2, chy, 1%nat) ∧
     ptrs s2 !! 200%nat = Some ly ∧ retrievals s2 !! ly = Some ry ∧
     blockPtr ry = 200%nat ∧
     ∃ s3 chw n s4,
       WorkOnRequest s2 = Some (s3, chw) ∧ attempts s3 = S n ∧
       notifyWorker_run case_workerQueue (set_attempts n s3) = Some (s4, []) ∧
       workChans s4 !! chw = Some [Some ly]).
Proof.
  destruct C4_order_of_service as (Ha & _ & _ & _ & _ & Hf). split.
  - destruct (popIfNotEmpty low_then_high) as [s' x] eqn:E.
    assert (x = Some 1%nat) as -> by (vm_compute in E; congruence).
    destruct (Ha low_then_high s' 1%nat
                {| blockPtr := 200; kmd := 7;
                   ctx := {| merged := [1%nat]; released := false |};
                   requests := [mkRequest 1 1];
                   index := 0; priority := 50; insertionOrder := 1 |}
                low_then_high_reachable E ltac:(vm_compute; reflexivity))
      as (H0 & _ & Hbest).
    split; [exact H0|exact Hbest].
  - destruct (Hf (newBlockRetrievalQueue 1 ∅) never 0%nat 10 7%nat 100%nat 0%nat
                never 1%nat 50 7%nat 200%nat 1%nat (reachable_new 1 ∅)
                eq_refl eq_refl ltac:(reflexivity) ltac:(reflexivity)
                ltac:(lia) ltac:(lia))
      as (s1 & chx & s2 & chy & ly & ry & E1 & E2 & Hp & Hr & Hb & Hbuf & _).
    exists s1, chx, s2, chy, ly, ry.
    split; [exact E1|]. split; [exact E2|]. split; [exact Hp|]. split; [exact Hr|].
    split; [exact Hb|].
    destruct (Hbuf eq_refl ltac:(simpl; lia)) as (s3 & chw & n & s4 & H1 & H2 & H3 & H4 & _).
    exists s3, chw, n, s4. split; [exact H1|]. split; [exact H2|].
    split; [exact H3|exact H4].
Defined.

(** ** C5: requests after Shutdown *)


(** C5. Once Shutdown has returned, whatever happens next in the queue,
    every call of Request returns, without entering the loop (0 passes),
    a fresh channel that already holds io.EOF, and changes nothing else:
    the registry, the heap, the insertion counter, the retrievals, the
    other channels and the number of matching attempts are as before. *)
Theorem C5_Request_after_Shutdown s0 ev0 s1 tr s fuel canceled c prio md ptr blk :
  reachable s0 → Shutdown s0 = Some (s1, ev0) → steps s1 tr s →
  ∃ s' ch,
    Request fuel canceled c prio md ptr blk s = Some (s', ch, 0%nat) ∧
    ch = length (errChans s) ∧ errChans s' = errChans s ++ [[io_EOF]] ∧
    errChans s' !! ch = Some [io_EOF] ∧
    ptrs s' = ptrs s ∧ heap s' = heap s ∧ insertionCount s' = insertionCount s ∧
    retrievals s' = retrievals s ∧ attempts s' = attempts s ∧
    workerQueue s' = workerQueue s ∧ workChans s' = workChans s ∧
    targets s' = targets s ∧ brq_doneCh s' = true.
Proof.
  intros Hreach Hsh Hsteps.
  assert (reachable s1) as Hreach1
    by (eapply reachable_step; [exact Hreach|by eapply step_Shutdown]).
  destruct (reachable_Inv s1 Hreach1) as [Hinv1 _].
  rewrite Shutdown_spec in Hsh. injection Hsh as <- <-.
  destruct (steps_facts _ _ _ Hinv1 Hsteps) as (_ & _ & _ & Hd & _).
  specialize (Hd eq_refl).
  exists (set_errChans (errChans s ++ [[io_EOF]]) s), (length (errChans s)).
  unfold Request. rewrite Hd. simpl. repeat split; try done.
  by apply list_lookup_middle.
Qed.

Lemma C5_witness :
  ∃ s' ch,
    Request 2 never 1 50 7 200 1 shut_down = Some (s', ch, 0%nat) ∧
    errChans s' !! ch = Some [io_EOF] ∧
    ptrs s' = ptrs shut_down ∧ heap s' = heap shut_down ∧
    insertionCount s' = insertionCount shut_down.
Proof.
  destruct (C5_Request_after_Shutdown
              (after_Request never 0 10 7 100 0 (newBlockRetrievalQueue 1 ∅))
              [EvClose] shut_down [] shut_down 2 never 1%nat 50 7%nat 200%nat 1%nat
              ltac:(apply reachable_after_Request, reachable_new)
              ltac:(vm_compute; reflexivity) (steps_refl shut_down))
    as (s' & ch & E & _ & _ & Hch & Hp & Hh & Hc & _).
  exists s', ch. repeat split; assumption.
Defined.

(** ** C7: the loop of Request makes at most two passes *)

(** A pass that finds no entry neither calls AddContext nor loops. *)
Lemma Request_loop_create_any fuel fuel' canceled canceled' pass c prio md ptr blk s :
  ptrs s !! ptr = None →
  Request_loop (S fuel) canceled pass c prio md ptr blk s =
  Request_loop (S fuel') canceled' pass c prio md ptr blk s.
Proof. intros Hp. simpl. by rewrite Hp. Qed.

(** C7. In every reachable state, for every behaviour of AddContext, the
    loop of Request returns after one or two passes whenever it is given
    room for two: it makes a second pass exactly when the first one finds
    a retrieval whose merged context is already canceled; the first pass
    then deregisters the locator, the second finds no entry for it,
    creates a fresh retrieval, registers it and returns, without calling
    AddContext again.  More fuel does not change the result. *)
Theorem C7_Request_loop_two_passes s fuel canceled c prio md ptr blk :
  reachable s → (2 ≤ fuel)%nat →
  ∃ s' ch n,
    Request_loop fuel canceled 0 c prio md ptr blk s = Some (s', ch, n) ∧
    Request_loop 2 canceled 0 c prio md ptr blk s = Some (s', ch, n) ∧
    (1 ≤ n ≤ 2)%nat ∧
    (n = 2%nat ↔ is_Some (ptrs s !! ptr) ∧ canceled 0%nat = true) ∧
    (n = 2%nat →
       ptrs (set_ptrs (delete ptr) s) !! ptr = None ∧
       Request_loop 1 canceled 1 c prio md ptr blk (set_ptrs (delete ptr) s)
         = Some (s', ch, 2%nat) ∧
       ptrs s' !! ptr = Some (length (retrievals s)) ∧
       length (retrievals s') = S (length (retrievals s))) ∧
    (∀ canceled', canceled' 0%nat = canceled 0%nat →
       Request_loop fuel canceled' 0 c prio md ptr blk s = Some (s', ch, n)).
Proof.
  intros Hreach Hfuel. destruct (reachable_Inv s Hreach) as [Hinv _].
  destruct fuel as [|[|fuel]]; try lia.
  destruct (ptrs s !! ptr) as [br|] eqn:Hp.
  - destruct (canceled 0%nat) eqn:Hcan.
    + assert (∀ f k, k 0%nat = true →
                Request_loop (S (S f)) k 0 c prio md ptr blk s =
                Request_loop 1 canceled 1 c prio md ptr blk (set_ptrs (delete ptr) s)
                ∧ ptrs (set_ptrs (delete ptr) s) !! ptr = None) as Hretry.
      { intros f k Hk.
        destruct (Request_loop_retry (S f) k 0 c prio md ptr blk s br Hinv Hp Hk)
          as (E & Hinv1 & Hp1).
        split; [|done]. rewrite E. by apply Request_loop_create_any. }
      destruct (Request_loop_retry 1 canceled 0 c prio md ptr blk s br Hinv Hp Hcan)
        as (_ & Hinv1 & Hp1).
      destruct (Request_loop_create_at 0 canceled 1 c prio md ptr blk _ Hinv1 Hp1)
        as (s2 & r2 & E2 & _ & Hp2 & _ & _ & _ & _ & Hl2 & _).
      exists s2, (length (errChans s)), 2%nat.
      destruct (Hretry fuel canceled Hcan) as [-> _].
      destruct (Hretry 0%nat canceled Hcan) as [-> _].
      split; [done|]. split; [done|]. split; [lia|]. split; [by split; eauto|].
      split.
      * intros _. split; [done|]. split; [done|]. split; [|done].
        rewrite Hp2. apply lookup_insert_eq.
      * intros k Hk. by destruct (Hretry fuel k Hk) as [-> _].
    + destruct (Request_loop_attach (S fuel) canceled 0 c prio md ptr blk s br Hinv Hp Hcan)
        as (s2 & r & Hr & E & _).
      destruct (Request_loop_attach 1 canceled 0 c prio md ptr blk s br Hinv Hp Hcan)
        as (s3 & r3 & _ & E3 & _).
      assert (Request_loop 2 canceled 0 c prio md ptr blk s =
              Request_loop (S (S fuel)) canceled 0 c prio md ptr blk s) as Esame.
      { simpl. by rewrite Hp, Hr, Hcan. }
      exists s2, (length (errChans s)), 1%nat.
      split; [done|]. split; [by rewrite Esame|]. split; [lia|].
      split; [split; [lia|intros [_ ?]; done]|]. split; [lia|].
      intros k Hk. rewrite <- E. simpl. by rewrite Hp, Hr, Hcan, Hk.
  - destruct (Request_loop_create (S fuel) canceled 0 c prio md ptr blk s Hinv Hp)
      as (s2 & E & _).
    assert (∀ f k, Request_loop (S (S f)) k 0 c prio md ptr blk s =
                   Request_loop (S (S fuel)) canceled 0 c prio md ptr blk s) as Esame.
    { intros f k. simpl. by rewrite Hp. }
    exists s2, (length (errChans s)), 1%nat.
    split; [done|]. split; [by rewrite (Esame 0%nat canceled)|]. split; [lia|].
    split; [split; [lia|intros [[? ?] _]; done]|]. split; [lia|].
    intros k _. by rewrite (Esame fuel k).
Qed.

Lemma C7_witness :
  ∃ s' ch,
    Request_loop 5 at_first 0 1 10 7 100 1 two_waiters_queued = Some (s', ch, 2%nat) ∧
    ptrs s' !! 100%nat = Some 1%nat.
Proof.
  destruct (C7_Request_loop_two_passes two_waiters_queued 5 at_first 1%nat 10 7%nat
              100%nat 1%nat two_waiters_queued_reachable ltac:(lia))
    as (s' & ch & n & E & _ & _ & Hn & Hfresh & _).
  assert (n = 2%nat) as ->.
  { apply Hn. split; [|reflexivity]. exists 0%nat. vm_compute. reflexivity. }
  exists s', ch. split; [exact E|].
  destruct (Hfresh eq_refl) as (_ & _ & Hp & _). exact Hp.
Defined.

(** ** C8: Shutdown is idempotent *)

Lemma Shutdown_again s s1 ev : Shutdown s = Some (s1, ev) → Shutdown s1 = Some (s1, []).
Proof. rewrite Shutdown_spec. intros [= <- <-]. reflexivity. Qed.






(** ** C9: the metadata of a retrieval *)

(** C9. A Request that attaches to the retrieval registered for its
    locator does the same whatever its metadata argument: the result,
    state included, is the same for any two values of it, and the
    retrieval's metadata is the one it had.  The metadata of a retrieval
    is the argument of the request that created it, and no transition of
    the queue ever changes it. *)
Theorem C9_metadata_of_the_creator :
  (∀ s fuel canceled c prio md md' ptr blk (br : nat),
     ptrs s !! ptr = Some br → canceled 0%nat = false →
     Request_loop fuel canceled 0 c prio md ptr blk s =
       Request_loop fuel canceled 0 c prio md' ptr blk s ∧
     Request fuel canceled c prio md ptr blk s =
       Request fuel canceled c prio md' ptr blk s) ∧
  (∀ s fuel canceled c prio md ptr blk (br : nat) r,
     reachable s → ptrs s !! ptr = Some br → retrievals s !! br = Some r →
     canceled 0%nat = false →
     ∃ s' ch r',
       Request_loop (S fuel) canceled 0 c prio md ptr blk s = Some (s', ch, 1%nat) ∧
       retrievals s' !! br = Some r' ∧ kmd r' = kmd r) ∧
  (∀ s fuel canceled c prio md ptr blk,
     reachable s → ptrs s !! ptr = None →
     ∃ s' ch r',
       Request_loop (S fuel) canceled 0 c prio md ptr blk s = Some (s', ch, 1%nat) ∧
       retrievals s' !! length (retrievals s) = Some r' ∧ kmd r' = md) ∧
  (∀ s tr s' (l : nat) r,
     reachable s → steps s tr s' → retrievals s !! l = Some r →
     ∃ r', retrievals s' !! l = Some r' ∧ kmd r' = kmd r).
Proof.
  split; [|split; [|split]].
  - intros s fuel canceled c prio md md' ptr blk br Hp Hcan.
    assert (Request_loop fuel canceled 0 c prio md ptr blk s =
            Request_loop fuel canceled 0 c prio md' ptr blk s) as E.
    { destruct fuel as [|fuel]; [done|]. simpl. by rewrite Hp, Hcan. }
    split; [done|]. unfold Request. by rewrite E.
  - intros s fuel canceled c prio md ptr blk br r Hreach Hp Hr Hcan.
    destruct (reachable_Inv s Hreach) as [Hinv _].
    destruct (Request_loop_attach_at fuel canceled 0 c prio md ptr blk s br r
                Hinv Hp Hr Hcan)
      as (s' & r' & E & _ & _ & _ & _ & Hr' & _ & _ & Ek & _).
    eauto 10.
  - intros s fuel canceled c prio md ptr blk Hreach Hp.
    destruct (reachable_Inv s Hreach) as [Hinv _].
    destruct (Request_loop_create_at fuel canceled 0 c prio md ptr blk s Hinv Hp)
      as (s' & r' & E & _ & _ & _ & _ & _ & _ & _ & Hr' & _ & _ & Ek & _).
    eauto 10.
  - intros s tr s' l r Hreach Hsteps Hl.
    destruct (reachable_Inv s Hreach) as [Hinv _].
    destruct (steps_facts _ _ _ Hinv Hsteps) as (_ & _ & Hle & _).
    destruct (Hle l r Hl) as (r' & Hr' & _ & Ek & _). eauto.
Qed.

Lemma C9_witness :
  Request 2 never 1 20 7 100 1 two_waiters_queued =
    Request 2 never 1 20 99 100 1 two_waiters_queued ∧
  ∃ s' ch r',
    Request_loop 1 never 0 1 20 99 100 1 two_waiters_queued = Some (s', ch, 1%nat) ∧
    retrievals s' !! 0%nat = Some r' ∧ kmd r' = 7%nat.
Proof.
  destruct C9_metadata_of_the_creator as (Ha & Hb & _). split.
  - apply (Ha two_waiters_queued 2%nat never 1%nat 20 7%nat 99%nat 100%nat 1%nat 0%nat).
    + vm_compute. reflexivity.
    + reflexivity.
  - apply (Hb two_waiters_queued 0%nat never 1%nat 20 99%nat 100%nat 1%nat 0%nat
             {| blockPtr := 100; kmd := 7;
                ctx := {| merged := [0%nat; 1%nat]; released := false |};
                requests := [mkRequest 0 0; mkRequest 1 1];
                index := 0; priority := 20; insertionOrder := 0 |}
             two_waiters_queued_reachable).
    + vm_compute. reflexivity.
    + vm_compute. reflexivity.
    + reflexivity.
Defined.

(** ** C6: matching attempts *)









(** * Further properties of the queue *)

(** ** Requests and their answers *)

(** X1. A request is answered by the finalization of its retrieval.
    When Request returns on a queue that is not shut down, the locator is
    registered to a retrieval that carries the new request, and the
    channel returned is empty.  Whatever happens next, the retrieval
    stays in memory with the request among its requests; as long as it is
    not finalized the channel stays empty, and FinalizeRequest on it
    returns without blocking, leaves exactly the terminal value in the
    channel and, when a block is given, copies it into the caller's
    block. *)
Theorem X1_Request_is_answered s fuel canceled c prio md ptr blk s1 ch n :
  reachable s → brq_doneCh s = false →
  Request fuel canceled c prio md ptr blk s = Some (s1, ch, n) →
  ∃ br : nat,
    ptrs s1 !! ptr = Some br ∧ errChans s1 !! ch = Some [] ∧
    ∀ tr s2, steps s1 tr s2 →
      ∃ r2, retrievals s2 !! br = Some r2 ∧ mkRequest blk ch ∈ requests r2 ∧
        (finalized r2 = false →
           errChans s2 !! ch = Some [] ∧
           ∀ b err, ∃ s3 ev,
             FinalizeRequest br b err s2 = Some (s3, ev) ∧
             errChans s3 !! ch = Some [err] ∧
             (∀ d, b = Some d → targets s3 !! blk = Some d)).
Proof.
  intros Hreach Hd Hreq. destruct (reachable_Inv s Hreach) as [Hinv _].
  unfold Request in Hreq. rewrite Hd in Hreq.
  destruct (Request_loop_facts _ _ _ _ _ _ _ _ _ _ _ _ Hinv Hreq) as (Hinv1 & _).
  destruct (Request_loop_life _ _ _ _ _ _ _ _ _ _ _ _ Hinv Hreq)
    as ((br & r1 & Hp1 & Hr1 & Hw1 & Hf1) & _ & _).
  exists br. split; [done|]. split.
  { exact (inv_chan_empty _ _ _ (inv_mem s1 Hinv1) br r1 _ Hr1 Hf1 Hw1). }
  intros tr s2 Hsteps.
  destruct (steps_facts _ _ _ Hinv1 Hsteps) as (Hinv2 & _ & Hle & _).
  destruct (Hle br r1 Hr1) as (r2 & Hr2 & _ & _ & _ & _ & Hpre).
  pose proof (elem_of_prefix _ _ _ Hw1 Hpre) as Hw2.
  exists r2. split; [done|]. split; [done|]. intros Hf2.
  pose proof (inv_mem s2 Hinv2) as [R Q N V E O].
  pose proof (E br r2 _ Hr2 Hf2 Hw2) as Hempty. simpl in Hempty.
  split; [done|]. intros b err.
  rewrite (FinalizeRequest_run br b err s2 r2 Hinv2 Hr2 Hf2).
  eexists _, _. split; [reflexivity|]. simpl. split.
  - apply deliver_lookup.
    + by eapply chans_NoDup.
    + change ch with (doneCh (mkRequest blk ch)). by apply list_elem_of_fmap_2.
    + by eapply lookup_lt_Some.
  - intros d ->. change blk with (block (mkRequest blk ch)). by apply populate_lookup.
Qed.

Lemma X1_witness :
  ∃ br : nat,
    ptrs one_request !! 100%nat = Some br ∧ errChans one_request !! 0%nat = Some [] ∧
    ∃ s3 ev,
      FinalizeRequest br (Some 42%nat) nil_error one_request = Some (s3, ev) ∧
      errChans s3 !! 0%nat = Some [nil_error] ∧ targets s3 !! 0%nat = Some 42%nat.
Proof.
  destruct (X1_Request_is_answered (newBlockRetrievalQueue 1 ∅) 2 never 0 10 7 100 0
              one_request 0 1 (reachable_new 1 ∅) eq_refl
              ltac:(vm_compute; reflexivity))
    as (br & Hp & He & Hrun).
  exists br. split; [exact Hp|]. split; [exact He|].
  destruct (Hrun [] one_request (steps_refl one_request)) as (r2 & Hr2 & _ & HF).
  assert (finalized r2 = false) as Hf.
  { assert (br = 0%nat) as -> by (vm_compute in Hp; congruence).
    vm_compute in Hr2. injection Hr2 as <-. reflexivity. }
  destruct (HF Hf) as [_ HF'].
  destruct (HF' (Some 42%nat) nil_error) as (s3 & ev & H1 & H2 & H3).
  exists s3, ev. split; [exact H1|]. split; [exact H2|]. by apply H3.
Defined.

(** A send on a full channel blocks the loop of FinalizeRequest. *)
Lemma notify_requests_blocked w rest blk err v s :
  errChans s !! doneCh w = Some [v] → notify_requests (w :: rest) blk err s = None.
Proof.
  intros H. simpl. destruct blk; simpl; unfold send; simpl; by rewrite H.
Qed.

(** X2. FinalizeRequest cannot be repeated.  Every retrieval has at least
    one request, so that the first FinalizeRequest on it notifies
    somebody; after it, a further FinalizeRequest on the same retrieval
    blocks at its first send, the one-slot channel of the first waiter
    still holding the first terminal value. *)
Theorem X2_FinalizeRequest_again_blocks s l r blk err s' ev :
  reachable s → retrievals s !! l = Some r → finalized r = false →
  FinalizeRequest l blk err s = Some (s', ev) →
  requests r ≠ [] ∧ ev ≠ [] ∧
  ∀ blk' err', FinalizeRequest l blk' err' s' = None.
Proof.
  intros Hreach Hl Hf HF. destruct (reachable_Inv s Hreach) as [Hinv _].
  pose proof (reachable_waiters s l r Hreach Hl) as Hne.
  rewrite (FinalizeRequest_run l blk err s r Hinv Hl Hf) in HF.
  injection HF as <- <-. split; [done|].
  assert (∃ w rest, requests r = w :: rest) as (w & rest & Hreqs)
    by (destruct (requests r); [done|eauto]).
  split.
  { rewrite Hreqs.
    change (notify_events (w :: rest) blk err) with
      ((match blk with Some b => [EvSet (block w) b] | None => [] end
        ++ [EvSend (doneCh w) err]) ++ notify_events rest blk err).
    by destruct blk. }
  intros blk' err'.
  pose proof (inv_mem s Hinv) as [R Q N V E O].
  assert (w ∈ requests r) as Hw by (rewrite Hreqs; by left).
  assert (errChans (finalize_state l blk err r s) !! doneCh w = Some [err]) as Hfull.
  { simpl. apply deliver_lookup.
    - by eapply chans_NoDup.
    - by apply list_elem_of_fmap_2.
    - eapply lookup_lt_Some. by apply (E l r w Hl Hf). }
  assert (retrievals (finalize_state l blk err r s) !! l
            = Some (set_ctx (cancelFunc (ctx r)) r)) as Hr1.
  { simpl. by rewrite list_lookup_alter_eq, Hl. }
  unfold FinalizeRequest. rewrite Hr1. cbv zeta.
  change (requests (set_ctx (cancelFunc (ctx r)) r)) with (requests r).
  rewrite Hreqs. by apply (notify_requests_blocked w rest blk' err' err).
Qed.

Lemma X2_witness :
  ∃ s' ev,
    FinalizeRequest 0 (Some 42%nat) nil_error two_waiters_claimed = Some (s', ev) ∧
    FinalizeRequest 0 (Some 42%nat) nil_error s' = None.
Proof.
  destruct (FinalizeRequest 0 (Some 42%nat) nil_error two_waiters_claimed)
    as [[s' ev]|] eqn:HF; [|vm_compute in HF; discriminate].
  exists s', ev. split; [reflexivity|].
  exact (proj2 (proj2 (X2_FinalizeRequest_again_blocks two_waiters_claimed 0
            {| blockPtr := 100; kmd := 7;
               ctx := {| merged := [0%nat; 1%nat]; released := false |};
               requests := [mkRequest 0 0; mkRequest 1 1];
               index := -1; priority := 20; insertionOrder := 0 |}
            (Some 42%nat) nil_error s' ev two_waiters_claimed_reachable
            ltac:(vm_compute; reflexivity) ltac:(reflexivity) HF))
          (Some 42%nat) nil_error).
Defined.

(** X3. A finalized retrieval is final.  After FinalizeRequest on a
    retrieval that a worker had claimed, whatever happens next in the
    queue (FinalizeRequest being called once for a retrieval), the
    retrieval is exactly as FinalizeRequest left it: no Request attaches
    to it or changes its priority, it is under no locator of the
    registry, and it is not in the heap. *)
Theorem X3_finalized_is_final s l r blk err s1 ev tr s2 :
  reachable s → retrievals s !! l = Some r → index r = -1 → finalized r = false →
  FinalizeRequest l blk err s = Some (s1, ev) → steps s1 tr s2 →
  retrievals s2 !! l = Some (set_ctx (cancelFunc (ctx r)) r) ∧
  (∀ p, ptrs s2 !! p ≠ Some l) ∧ (l ∉ heap s2).
Proof.
  intros Hreach Hl Hi Hf HF Hsteps. destruct (reachable_Inv s Hreach) as [Hinv _].
  destruct (FinalizeRequest_spec l blk err s r Hinv Hl Hi Hf) as [E Hinv1].
  rewrite E in HF. injection HF as <- <-.
  set (r1 := set_ctx (cancelFunc (ctx r)) r).
  assert (retrievals (finalize_state l blk err r s) !! l = Some r1) as Hr1.
  { simpl. by rewrite list_lookup_alter_eq, Hl. }
  destruct (steps_life _ _ _ Hinv1 Hsteps l r1 Hr1) as (r2 & Hr2 & _ & Hfin).
  rewrite (Hfin eq_refl) in Hr2.
  destruct (steps_facts _ _ _ Hinv1 Hsteps) as (Hinv2 & _).
  split; [done|]. split.
  - intros p Hp. destruct (Inv_registered s2 p l Hinv2 Hp) as (r3 & Hr3 & _ & Hf3).
    rewrite Hr2 in Hr3. injection Hr3 as <-. done.
  - intros Hin. apply (heap_wf_elem (the_heap s2) l (inv_wf s2 Hinv2)) in Hin.
    destruct Hin as (r3 & Hr3 & Hi3). simpl in Hr3. rewrite Hr2 in Hr3.
    injection Hr3 as <-. done.
Qed.

Lemma X3_witness :
  ∃ s1 ev,
    FinalizeRequest 0 None (fetch_error 3) two_waiters_claimed = Some (s1, ev) ∧
    (0%nat ∉ heap (after_Request never 2 30 7 100 2 s1)) ∧
    ptrs (after_Request never 2 30 7 100 2 s1) !! 100%nat ≠ Some 0%nat.
Proof.
  destruct (FinalizeRequest 0 None (fetch_error 3) two_waiters_claimed)
    as [[s1 ev]|] eqn:HF; [|vm_compute in HF; discriminate].
  exists s1, ev. split; [reflexivity|].
  assert (steps s1 [] (after_Request never 2 30 7 100 2 s1)) as Hsteps.
  { unfold after_Request.
    destruct (Request 2 never 2 30 7 100 2 s1) as [[[s2 ch] n]|] eqn:E;
      [|apply steps_refl].
    apply steps_one. eapply step_Request. exact E. }
  destruct (X3_finalized_is_final two_waiters_claimed 0
              {| blockPtr := 100; kmd := 7;
                 ctx := {| merged := [0%nat; 1%nat]; released := false |};
                 requests := [mkRequest 0 0; mkRequest 1 1];
                 index := -1; priority := 20; insertionOrder := 0 |}
              None (fetch_error 3) s1 ev [] _ two_waiters_claimed_reachable
              ltac:(vm_compute; reflexivity) ltac:(reflexivity) ltac:(reflexivity)
              HF Hsteps) as (_ & H2 & H3).
  split; [exact H3|apply H2].
Defined.

(** X4. A retrieval is handed out once.  A retrieval that popIfNotEmpty
    has returned keeps the sentinel index in every later state: it never
    re-enters the heap, and popIfNotEmpty never returns it again. *)
Theorem X4_handed_out_once s s1 (x : nat) tr s2 :
  reachable s → popIfNotEmpty s = (s1, Some x) → steps s1 tr s2 →
  (∃ r2, retrievals s2 !! x = Some r2 ∧ index r2 = -1) ∧
  (x ∉ heap s2) ∧
  (∀ s3, popIfNotEmpty s2 ≠ (s3, Some x)).
Proof.
  intros Hreach Hpop Hsteps. destruct (reachable_Inv s Hreach) as [Hinv _].
  destruct (popIfNotEmpty_claimed _ _ _ Hinv Hpop)
    as (Hinv1 & _ & _ & _ & _ & (r1 & Hr1 & Hi1 & _) & _).
  destruct (steps_life _ _ _ Hinv1 Hsteps x r1 Hr1) as (r2 & Hr2 & Hidx & _).
  destruct (steps_facts _ _ _ Hinv1 Hsteps) as (Hinv2 & _).
  assert (x ∉ heap s2) as Hout.
  { intros Hin. apply (heap_wf_elem (the_heap s2) x (inv_wf s2 Hinv2)) in Hin.
    destruct Hin as (r3 & Hr3 & Hi3). simpl in Hr3. rewrite Hr2 in Hr3.
    injection Hr3 as <-. by apply Hi3, Hidx. }
  split; [exists r2; split; [done|by apply Hidx]|]. split; [done|].
  intros s3 Hpop2.
  destruct (popIfNotEmpty_claimed _ _ _ Hinv2 Hpop2) as (_ & Hroot & _).
  apply Hout. by eapply list_elem_of_lookup_2.
Qed.

Lemma X4_witness :
  ∃ s1, popIfNotEmpty two_waiters_queued = (s1, Some 0%nat) ∧ (0%nat ∉ heap s1) ∧
        ∀ s3, popIfNotEmpty s1 ≠ (s3, Some 0%nat).
Proof.
  destruct (popIfNotEmpty two_waiters_queued) as [s1 x] eqn:Hpop.
  assert (x = Some 0%nat) as -> by (vm_compute in Hpop; congruence).
  exists s1. split; [reflexivity|].
  exact (proj2 (X4_handed_out_once two_waiters_queued s1 0 [] s1
                  two_waiters_queued_reachable Hpop (steps_refl s1))).
Defined.

Lemma replaced_and_claimed_reachable : reachable replaced_and_claimed.
Proof.
  apply reachable_after_attempt, reachable_after_WorkOnRequest.
  unfold canceled_then_requested.
  apply reachable_after_Request, reachable_after_Request, reachable_new.
Qed.

(** X5. FinalizeRequest deregisters the locator, not the retrieval.
    FinalizeRequest deletes the registry entry of the retrieval's
    locator whichever retrieval that entry names.  When the entry names
    another retrieval (one that replaced the finalized retrieval after
    the cancellation of its waiters), that other retrieval, untouched and
    not finalized, is under no locator afterwards, the heap is as it
    was, and the next Request for the locator attaches to nothing: it
    creates one more retrieval for the same block. *)
Theorem X5_FinalizeRequest_deregisters_the_locator s l r (l' : nat) blk err :
  reachable s → retrievals s !! l = Some r → index r = -1 → finalized r = false →
  ptrs s !! blockPtr r = Some l' → l' ≠ l →
  ∃ s' ev r',
    FinalizeRequest l blk err s = Some (s', ev) ∧
    ptrs s' = delete (blockPtr r) (ptrs s) ∧ heap s' = heap s ∧
    (∀ p, ptrs s' !! p ≠ Some l') ∧
    retrievals s !! l' = Some r' ∧ retrievals s' !! l' = Some r' ∧
    blockPtr r' = blockPtr r ∧ finalized r' = false ∧
    ∀ fuel canceled c prio md blk2,
      ∃ s'' ch,
        Request_loop (S fuel) canceled 0 c prio md (blockPtr r) blk2 s'
          = Some (s'', ch, 1%nat) ∧
        ptrs s'' !! blockPtr r = Some (length (retrievals s')) ∧
        length (retrievals s'') = S (length (retrievals s')).
Proof.
  intros Hreach Hl Hi Hf Hp Hne. destruct (reachable_Inv s Hreach) as [Hinv _].
  destruct (FinalizeRequest_spec l blk err s r Hinv Hl Hi Hf) as [E Hinv'].
  destruct (Inv_registered s (blockPtr r) l' Hinv Hp) as (r' & Hr' & Hb' & Hf').
  exists (finalize_state l blk err r s), (notify_events (requests r) blk err), r'.
  split; [done|]. split; [done|]. split; [done|]. split.
  { intros p Hp'. simpl in Hp'. apply lookup_delete_Some in Hp' as [Hpne Hp'].
    destruct (Inv_registered s p l' Hinv Hp') as (r0 & Hr0 & Hb0 & _).
    rewrite Hr' in Hr0. injection Hr0 as <-. congruence. }
  split; [done|]. split.
  { simpl. by rewrite list_lookup_alter_ne by congruence. }
  split; [done|]. split; [done|].
  intros fuel canceled c prio md blk2.
  destruct (Request_loop_create fuel canceled 0 c prio md (blockPtr r) blk2
              (finalize_state l blk err r s) Hinv')
    as (s'' & E2 & _ & Hp2 & _ & _ & _ & _ & _ & Hs).
  { simpl. apply lookup_delete_eq. }
  exists s'', (length (errChans (finalize_state l blk err r s))).
  split; [done|]. split.
  - by rewrite Hp2, lookup_insert_eq.
  - rewrite (shape_length _ _ Hs), length_app. simpl. lia.
Qed.

Lemma X5_witness :
  ∃ s' ev,
    FinalizeRequest 0 (Some 42%nat) nil_error replaced_and_claimed = Some (s', ev) ∧
    heap s' = [1%nat] ∧ ptrs s' !! 100%nat ≠ Some 1%nat ∧
    ∃ s'' ch,
      Request_loop 1 never 0 2 10 7 100 2 s' = Some (s'', ch, 1%nat) ∧
      ptrs s'' !! 100%nat = Some 2%nat.
Proof.
  destruct (X5_FinalizeRequest_deregisters_the_locator replaced_and_claimed 0
              {| blockPtr := 100; kmd := 7;
                 ctx := {| merged := [0%nat]; released := false |};
                 requests := [mkRequest 0 0];
                 index := -1; priority := 10; insertionOrder := 0 |}
              1 (Some 42%nat) nil_error replaced_and_claimed_reachable
              ltac:(vm_compute; reflexivity) ltac:(reflexivity) ltac:(reflexivity)
              ltac:(vm_compute; reflexivity) ltac:(lia))
    as (s' & ev & r' & HF & _ & Hh & Hp & _ & _ & _ & _ & Hnext).
  exists s', ev. split; [exact HF|]. split; [exact Hh|]. split; [apply Hp|].
  destruct (Hnext 0%nat never 2%nat 10 7%nat 2%nat) as (s'' & ch & H1 & H2 & _).
  exists s'', ch. split; [exact H1|].
  assert (length (retrievals s') = 2%nat) as El.
  { vm_compute in HF. injection HF as <- _. reflexivity. }
  rewrite El in H2. exact H2.
Defined.

Lemma NoDup_fmap_inj {A B} (f : A → B) (l : list A) x y :
  NoDup (f <$> l) → x ∈ l → y ∈ l → f x = f y → x = y.
Proof.
  induction l as [|a l IH]; intros Hn Hx Hy E; [by apply elem_of_nil in Hx|].
  rewrite fmap_cons in Hn. apply NoDup_cons in Hn as [Ha Hn].
  apply elem_of_cons in Hx as [->|Hx]; apply elem_of_cons in Hy as [->|Hy].
  - done.
  - exfalso. apply Ha. rewrite E. by apply list_elem_of_fmap_2.
  - exfalso. apply Ha. rewrite <- E. by apply list_elem_of_fmap_2.
  - by apply IH.
Qed.

(** X6. Waiters and their channels.  In every reachable state every
    retrieval in memory has at least one request, and no completion
    channel is shared: two requests, of one retrieval or of two, that
    are not one request at one position of one retrieval, have different
    channels. *)
Theorem X6_waiters_and_channels s :
  reachable s →
  (∀ (l : nat) r, retrievals s !! l = Some r → requests r ≠ []) ∧
  (∀ (l l' : nat) r r' (i j : nat) w w',
     retrievals s !! l = Some r → retrievals s !! l' = Some r' →
     requests r !! i = Some w → requests r' !! j = Some w' →
     (l, i) ≠ (l', j) → doneCh w ≠ doneCh w').
Proof.
  intros Hreach. destruct (reachable_Inv s Hreach) as [Hinv _].
  split; [intros l r; by apply reachable_waiters|].
  intros l l' r r' i j w w' Hl Hl' Hi Hj Hne E.
  pose proof (inv_chan_nodup _ _ _ (inv_mem s Hinv)) as N.
  destruct (decide (l = l')) as [->|Hll].
  - rewrite Hl in Hl'. injection Hl' as <-.
    apply Hne. f_equal.
    apply (NoDup_lookup (doneCh <$> requests r) i j (doneCh w)).
    + by eapply chans_NoDup.
    + by rewrite list_lookup_fmap, Hi.
    + by rewrite list_lookup_fmap, Hj, E.
  - apply (chans_disjoint (retrievals s) l l' r r' w w' N Hll Hl Hl'); [| |done].
    + by eapply list_elem_of_lookup_2.
    + by eapply list_elem_of_lookup_2.
Qed.

Lemma X6_witness :
  requests {| blockPtr := 100; kmd := 7;
              ctx := {| merged := [0%nat; 1%nat]; released := false |};
              requests := [mkRequest 0 0; mkRequest 1 1];
              index := 0; priority := 20; insertionOrder := 0 |} ≠ [] ∧
  doneCh (mkRequest 0 0) ≠ doneCh (mkRequest 1 1) ∧
  doneCh (mkRequest 0 0) ≠ doneCh (mkRequest 1 1).
Proof.
  destruct (X6_waiters_and_channels two_waiters_queued two_waiters_queued_reachable)
    as [Hne Hch].
  split; [|split].
  - apply (Hne 0%nat). vm_compute. reflexivity.
  - apply (Hch 0%nat 0%nat
             {| blockPtr := 100; kmd := 7;
                ctx := {| merged := [0%nat; 1%nat]; released := false |};
                requests := [mkRequest 0 0; mkRequest 1 1];
                index := 0; priority := 20; insertionOrder := 0 |}
             {| blockPtr := 100; kmd := 7;
                ctx := {| merged := [0%nat; 1%nat]; released := false |};
                requests := [mkRequest 0 0; mkRequest 1 1];
                index := 0; priority := 20; insertionOrder := 0 |}
             0%nat 1%nat (mkRequest 0 0) (mkRequest 1 1));
      try (vm_compute; reflexivity).
    intros [= ?].
  - apply (proj2 (X6_waiters_and_channels replaced_and_claimed
                    replaced_and_claimed_reachable) 0%nat 1%nat
             {| blockPtr := 100; kmd := 7;
                ctx := {| merged := [0%nat]; released := false |};
                requests := [mkRequest 0 0];
                index := -1; priority := 10; insertionOrder := 0 |}
             {| blockPtr := 100; kmd := 7;
                ctx := {| merged := [1%nat]; released := false |};
                requests := [mkRequest 1 1];
                index := 0; priority := 10; insertionOrder := 1 |}
             0%nat 0%nat (mkRequest 0 0) (mkRequest 1 1));
      try (vm_compute; reflexivity).
    intros [= ?].
Defined.

(** X7. A request above every queued priority is served next.  When a
    Request returns whose priority is higher than that of every
    retrieval in the heap, and the retrieval now registered for its
    locator is in the heap (it was created by the request, or was still
    queued), that retrieval is the one popIfNotEmpty returns next. *)
Theorem X7_highest_priority_is_served_next s fuel canceled c prio md ptr blk s1 ch n
    (br : nat) :
  reachable s → brq_doneCh s = false →
  (∀ (l : nat) r, l ∈ heap s → retrievals s !! l = Some r → priority r < prio) →
  Request fuel canceled c prio md ptr blk s = Some (s1, ch, n) →
  ptrs s1 !! ptr = Some br → br ∈ heap s1 →
  ∃ s2, popIfNotEmpty s1 = (s2, Some br).
Proof.
  intros Hreach Hd Hlow Hreq Hp1 Hin1. destruct (reachable_Inv s Hreach) as [Hinv _].
  unfold Request in Hreq. rewrite Hd in Hreq.
  destruct (Request_loop_facts _ _ _ _ _ _ _ _ _ _ _ _ Hinv Hreq) as (Hinv1 & _).
  pose proof (heap_wf_elem (the_heap s) ) as Helem.
  pose proof (heap_wf_elem (the_heap s1)) as Helem1.
  assert (∃ r1, retrievals s1 !! br = Some r1 ∧ priority r1 = prio ∧
            ∀ (l : nat) r', l ≠ br → l ∈ heap s1 → retrievals s1 !! l = Some r' →
              priority r' < prio) as (r1 & Hr1 & Hprio & Hothers).
  { destruct fuel as [|fuel]; [done|].
    assert (∀ s0, Inv s0 → retrievals s0 = retrievals s → heap s0 = heap s →
              ptrs s0 !! ptr = None →
              (∃ fuel0 pass0, Request_loop (S fuel0) canceled pass0 c prio md ptr blk s0
                                = Some (s1, ch, n)) →
              ∃ r1, retrievals s1 !! br = Some r1 ∧ priority r1 = prio ∧
                ∀ (l : nat) r', l ≠ br → l ∈ heap s1 → retrievals s1 !! l = Some r' →
                  priority r' < prio) as Hcreate.
    { intros s0 Hinv0 Em Eh Hp0 (fuel0 & pass0 & Hrun0).
      destruct (Request_loop_create_life _ _ _ _ _ _ _ _ _ _ _ _ Hinv0 Hp0 Hrun0)
        as ((r1 & Hp' & Hr1 & _ & _ & _ & Hpr1) & Hlen & Hold).
      rewrite Em in *. rewrite Hp1 in Hp'. injection Hp' as ->.
      exists r1. split; [done|]. split; [done|].
      intros l r' Hne Hl Hr'.
      pose proof (lookup_lt_Some _ _ _ Hr') as Hlt.
      destruct (lookup_lt_is_Some_2 (retrievals s) l ltac:(lia)) as [r Hr].
      destruct (Hold l r Hr) as (r2 & Hr2 & _ & Hpr & Hidx).
      rewrite Hr' in Hr2. injection Hr2 as <-. rewrite Hpr.
      apply (Hlow l r); [|done].
      apply (Helem l (inv_wf s Hinv)). exists r. split; [done|].
      apply (Helem1 l (inv_wf s1 Hinv1)) in Hl as (r3 & Hr3 & Hi3).
      simpl in Hr3. rewrite Hr' in Hr3. injection Hr3 as <-. tauto. }
    destruct (ptrs s !! ptr) as [br0|] eqn:Hp.
    - destruct (canceled 0%nat) eqn:Hcan.
      + destruct (Request_loop_retry fuel canceled 0 c prio md ptr blk s br0 Hinv Hp Hcan)
          as (E & Hinv0 & Hp0).
        rewrite E in Hreq. destruct fuel as [|fuel]; [done|].
        apply (Hcreate (set_ptrs (delete ptr) s)); try done. eauto.
      + destruct (Request_loop_attach_life _ _ _ _ _ _ _ _ _ _ _ _ _ Hinv Hp Hcan Hreq)
          as ((r & r1 & Hr & Hp' & Hr1 & _ & _ & Hpr1 & Hidx1) & _ & Hold).
        rewrite Hp1 in Hp'. injection Hp' as ->.
        exists r1. split; [done|].
        assert (index r ≠ -1) as Hq.
        { apply (Helem1 br0 (inv_wf s1 Hinv1)) in Hin1 as (r3 & Hr3 & Hi3).
          simpl in Hr3. rewrite Hr1 in Hr3. injection Hr3 as <-. tauto. }
        assert (priority r < prio) as Hlt.
        { apply (Hlow br0 r); [|done]. apply (Helem br0 (inv_wf s Hinv)). eauto. }
        split.
        { rewrite Hpr1, bool_decide_eq_true_2 by done.
          by rewrite (proj2 (Z.gtb_lt _ _) Hlt). }
        intros l r' Hne Hl Hr'.
        pose proof (lookup_lt_Some _ _ _ Hr') as Hlt'.
        destruct (lookup_lt_is_Some_2 (retrievals s) l) as [r0 Hr0].
        { destruct (Request_loop_attach_life _ _ _ _ _ _ _ _ _ _ _ _ _ Hinv Hp Hcan Hreq)
            as (_ & Hlen & _). lia. }
        destruct (Hold l r0 Hr0) as (r2 & Hr2 & _ & Hpr & Hidx).
        rewrite Hr' in Hr2. injection Hr2 as <-. rewrite (Hpr Hne).
        apply (Hlow l r0); [|done].
        apply (Helem l (inv_wf s Hinv)). exists r0. split; [done|].
        apply (Helem1 l (inv_wf s1 Hinv1)) in Hl as (r3 & Hr3 & Hi3).
        simpl in Hr3. rewrite Hr' in Hr3. injection Hr3 as <-. tauto.
    - apply (Hcreate s); try done. eauto. }
  destruct (popIfNotEmpty_spec s1 Hinv1)
    as [[Hnil _]|(x & rx & h' & Hx & Hrx & E & _)].
  { rewrite Hnil in Hin1. by apply elem_of_nil in Hin1. }
  destruct (decide (x = br)) as [->|Hne]; [eauto|]. exfalso.
  pose proof (heap_root_first (the_heap s1) x br rx r1 (inv_wf s1 Hinv1)
                (inv_ordered s1 Hinv1) Hx Hrx Hin1 Hr1) as Hless.
  assert (priority rx < prio) as Hlt.
  { apply (Hothers x rx Hne); [by eapply list_elem_of_lookup_2|done]. }
  unfold retrieval_less in Hless. rewrite Hprio in Hless.
  by rewrite (proj2 (Z.gtb_lt _ _) Hlt) in Hless.
Qed.

Lemma X7_witness :
  ∃ s2, popIfNotEmpty low_then_high = (s2, Some 1%nat).
Proof.
  apply (X7_highest_priority_is_served_next one_request 2 never 1 50 7 200 1
           low_then_high 1 1 1 (reachable_after_Request never 0 10 7 100 0 _
                                  (reachable_new 1 ∅)) eq_refl).
  - intros l r Hl Hr. vm_compute in Hl. apply list_elem_of_singleton in Hl. subst l.
    vm_compute in Hr. injection Hr as <-. reflexivity.
  - vm_compute. reflexivity.
  - vm_compute. reflexivity.
  - replace (heap low_then_high) with [1%nat; 0%nat] by (vm_compute; reflexivity).
    by left.
Defined.

(** The request part of Request on a retrieval that a worker has claimed. *)
Lemma Request_attach_claimed (br : nat) prio blk s r :
  retrievals s !! br = Some r → index r = -1 →
  Request_attach br prio blk s =
    Some (set_retrievals
            (alter (λ r, set_requests (requests r ++ [mkRequest blk (length (errChans s))]) r)
               br (retrievals s))
            (set_errChans (errChans s ++ [[]]) s),
          length (errChans s)).
Proof.
  intros Hr Hi. unfold Request_attach. simpl.
  rewrite list_lookup_alter_eq, Hr. simpl.
  by rewrite bool_decide_eq_false_2 by (intros H; by apply H).
Qed.

(** X8. Requests for one block are coalesced.  A Request for a locator
    whose retrieval is registered and whose merged context is live
    returns after one pass and creates nothing: the registry, the
    insertion counter, the number of retrievals in memory, the number of
    entries in the heap and the number of pending matching attempts are
    as before, and the retrieval has one more request, the new one, at
    the end of its list.  When the retrieval has been claimed by a
    worker (the fetch is in progress) the heap is left as it is and the
    retrieval stays claimed. *)
Theorem X8_requests_are_coalesced s fuel canceled c prio md ptr blk (br : nat) r :
  reachable s → brq_doneCh s = false →
  ptrs s !! ptr = Some br → retrievals s !! br = Some r → canceled 0%nat = false →
  ∃ s1 ch r1,
    Request (S fuel) canceled c prio md ptr blk s = Some (s1, ch, 1%nat) ∧
    ptrs s1 = ptrs s ∧ insertionCount s1 = insertionCount s ∧
    attempts s1 = attempts s ∧
    length (retrievals s1) = length (retrievals s) ∧
    length (heap s1) = length (heap s) ∧
    retrievals s1 !! br = Some r1 ∧
    requests r1 = requests r ++ [mkRequest blk ch] ∧
    (index r = -1 → heap s1 = heap s ∧ index r1 = -1).
Proof.
  intros Hreach Hd Hp Hr Hcan. destruct (reachable_Inv s Hreach) as [Hinv _].
  destruct (Request_loop_attach fuel canceled 0 c prio md ptr blk s br Hinv Hp Hcan)
    as (s1 & r0 & Hr0 & E & Hinv1 & Hp1 & Hc1 & Ha1 & Hl1 & _ & _ & Hs).
  rewrite Hr in Hr0. injection Hr0 as <-.
  destruct (Request_loop_attach_life _ _ _ _ _ _ _ _ _ _ _ _ _ Hinv Hp Hcan E)
    as ((r' & r1 & Hr' & _ & Hr1 & Hq1 & _ & _ & Hidx) & Hlen & _).
  rewrite Hr in Hr'. injection Hr' as <-.
  exists s1, (length (errChans s)), r1.
  split; [unfold Request; by rewrite Hd|].
  split; [done|]. split; [done|]. split; [done|]. split; [done|]. split; [done|].
  split; [done|]. split; [done|].
  intros Hi. split; [|by apply Hidx].
  simpl in E. rewrite Hp, Hr, Hcan in E.
  rewrite (Request_attach_claimed br prio blk _ (set_ctx (AddContext (ctx r) c) r)) in E.
  - injection E as <-. reflexivity.
  - simpl. by rewrite list_lookup_alter_eq, Hr.
  - done.
Qed.

Lemma X8_witness :
  ∃ s1 ch,
    Request 1 never 1 50 7 100 1 claimed_by_worker = Some (s1, ch, 1%nat) ∧
    length (retrievals s1) = 1%nat ∧ heap s1 = [].
Proof.
  destruct (X8_requests_are_coalesced claimed_by_worker 0 never 1 50 7 100 1 0
              {| blockPtr := 100; kmd := 7;
                 ctx := {| merged := [0%nat]; released := false |};
                 requests := [mkRequest 0 0];
                 index := -1; priority := 10; insertionOrder := 0 |}
              claimed_by_worker_reachable eq_refl
              ltac:(vm_compute; reflexivity) ltac:(vm_compute; reflexivity) eq_refl)
    as (s1 & ch & r1 & H1 & _ & _ & _ & H2 & _ & _ & _ & H3).
  exists s1, ch. split; [exact H1|]. split; [exact H2|].
  exact (proj1 (H3 eq_refl)).
Defined.

(** ** The worker's side *)

(** What popIfNotEmpty returns for a worker: the root of the heap, claimed
    and not finalized, on which FinalizeRequest does not block. *)
Lemma worker_gets st sp x wc :
  Inv st → popIfNotEmpty st = (sp, x) → Inv (set_workChans wc sp) →
  x = heap st !! 0%nat ∧
  ∀ l : nat, x = Some l →
    ∃ r, retrievals (set_workChans wc sp) !! l = Some r ∧ index r = -1 ∧
      finalized r = false ∧
      ∀ blk err, ∃ s3 ev,
        FinalizeRequest l blk err (set_workChans wc sp) = Some (s3, ev) ∧
        ∀ w, w ∈ requests r → errChans s3 !! doneCh w = Some [err].
Proof.
  intros Hinvp Hpop Hinv2.
  set (sf := set_workChans wc sp) in *.
  assert (retrievals sf = retrievals sp) as Er by done.
  destruct x as [x|].
  - destruct (popIfNotEmpty_claimed _ _ _ Hinvp Hpop)
      as (_ & Hroot & _ & _ & _ & (r & Hr & Hi & Hf) & _).
    split; [done|]. intros l [= <-]. rewrite <- Er in Hr.
    exists r. split; [done|]. split; [done|]. split; [done|].
    intros blk err.
    rewrite (FinalizeRequest_run x blk err sf r Hinv2 Hr Hf).
    eexists _, _. split; [reflexivity|]. intros w Hin.
    pose proof (inv_mem _ Hinv2) as [R Q N V Em O].
    change (errChans (finalize_state x blk err r sf))
      with (deliver (errChans sf) (doneCh <$> requests r) err).
    apply deliver_lookup.
    + by eapply chans_NoDup.
    + by apply list_elem_of_fmap_2.
    + eapply lookup_lt_Some. by apply (Em x r w Hr Hf).
  - destruct (popIfNotEmpty_none _ _ Hinvp Hpop) as [_ Hnil].
    split; [by rewrite Hnil|]. intros l Hl. done.
Qed.

(** X16. What a worker gets.  WorkOnRequest makes a new, empty channel
    and takes nothing from the heap.  Its send on [workerQueue] goes
    into the buffer exactly when the buffer has room, which that of a
    queue of pool size 0 never has: the channel is then at the end of
    [workerQueue], and the registry, the heap and the retrievals are as
    before.  Otherwise, and also when the buffer is empty, the send can
    be received directly by a waiting matching attempt.  Either way,
    when no other worker waits, the matching attempt that receives the
    channel leaves exactly one value in it: nil when the heap is empty,
    and otherwise the retrieval at the root of the heap.  That retrieval
    is then claimed (its index is the sentinel) and not finalized, and
    the worker's FinalizeRequest on it does not block and leaves the
    terminal value in the channel of every one of its requests. *)
Theorem X16_worker_is_answered s :
  reachable s →
  (WorkOnRequest s = None ↔ (numWorkers s ≤ length (workerQueue s))%nat) ∧
  (∀ s1 ch, WorkOnRequest s = Some (s1, ch) →
     workChans s !! ch = None ∧
     workChans s1 !! ch = Some [] ∧ workerQueue s1 = workerQueue s ++ [ch] ∧
     (ch ∉ workerQueue s) ∧
     heap s1 = heap s ∧ ptrs s1 = ptrs s ∧ retrievals s1 = retrievals s ∧
     attempts s1 = attempts s ∧
     (workerQueue s = [] → ∀ n, attempts s1 = S n →
        ∃ s2 x,
          notifyWorker_run case_workerQueue (set_attempts n s1) = Some (s2, []) ∧
          workChans s2 !! ch = Some [x] ∧ x = heap s !! 0%nat ∧ workerQueue s2 = [] ∧
          ∀ l : nat, x = Some l →
            ∃ r, retrievals s2 !! l = Some r ∧ index r = -1 ∧ finalized r = false ∧
              ∀ blk err, ∃ s3 ev,
                FinalizeRequest l blk err s2 = Some (s3, ev) ∧
                ∀ w, w ∈ requests r → errChans s3 !! doneCh w = Some [err])) ∧
  (∀ n, attempts s = S n → workerQueue s = [] →
     ∃ s1 ch s2 x,
       WorkOnRequest_direct (set_attempts n s) = (s1, ch) ∧
       notifyWorker_serve ch s1 = Some (s2, []) ∧ step s [] s2 ∧
       workChans s !! ch = None ∧
       heap s1 = heap s ∧ ptrs s1 = ptrs s ∧ retrievals s1 = retrievals s ∧
       workChans s2 !! ch = Some [x] ∧ x = heap s !! 0%nat ∧ workerQueue s2 = [] ∧
       ∀ l : nat, x = Some l →
         ∃ r, retrievals s2 !! l = Some r ∧ index r = -1 ∧ finalized r = false ∧
           ∀ blk err, ∃ s3 ev,
             FinalizeRequest l blk err s2 = Some (s3, ev) ∧
             ∀ w, w ∈ requests r → errChans s3 !! doneCh w = Some [err]).
Proof.
  intros Hreach. destruct (reachable_Inv s Hreach) as [Hinv _].
  split; [|split].
  - unfold WorkOnRequest. simpl. destruct (decide _); split; try done; lia.
  - intros s1 ch Hw.
    pose proof (WorkOnRequest_Inv _ _ _ Hinv Hw) as Hinv1.
    unfold WorkOnRequest in Hw. simpl in Hw. destruct (decide _) as [Hcap|]; [|done].
    injection Hw as <- <-. simpl.
    split; [apply lookup_ge_None_2; lia|].
    split; [by apply list_lookup_middle|]. split; [done|]. split.
    { intros Hin. apply (inv_wq_empty s Hinv) in Hin. apply lookup_lt_Some in Hin. lia. }
    split; [done|]. split; [done|]. split; [done|]. split; [done|].
    intros Hq n Ha. rewrite Hq in *. simpl in *.
    set (s1 := set_workerQueue [length (workChans s)]
                 (set_workChans (workChans s ++ [[]]) s)) in *.
    pose proof (Inv_set_attempts s1 n Hinv1) as Hinv0.
    destruct (notifyWorker_run_worker (set_attempts n s1) (length (workChans s)) []
                Hinv0 eq_refl) as (s2 & x & Hpop & E & Hinv2).
    assert (Inv (set_workerQueue [] (set_attempts n s1))) as Hinvp.
    { apply (Inv_workers s); simpl; try done; try apply Hinv.
      - apply NoDup_nil_2.
      - intros y Hy. by apply elem_of_nil in Hy. }
    destruct (worker_gets _ _ _ _ Hinvp Hpop Hinv2) as [Hx Hfin].
    set (sf := set_workChans _ s2) in *.
    exists sf, x. split; [exact E|].
    split.
    { unfold sf. simpl.
      by rewrite list_lookup_insert_eq by (rewrite length_app; simpl; lia). }
    split; [exact Hx|]. split; [|exact Hfin].
    destruct (popIfNotEmpty_facts _ _ _ Hinvp Hpop) as (_ & _ & (Hq2 & _) & _).
    exact Hq2.
  - intros n Ha Hq.
    pose proof (Inv_set_attempts s n Hinv) as Hinv0.
    destruct (WorkOnRequest_direct_Inv _ Hinv0) as (Hinv1 & Hempty & Hfresh).
    set (s1 := (WorkOnRequest_direct (set_attempts n s)).1) in *.
    set (ch := (WorkOnRequest_direct (set_attempts n s)).2) in *.
    destruct (notifyWorker_serve_spec s1 ch Hinv1 Hempty Hfresh)
      as (sp & x & Hpop & E & Hinv2).
    destruct (worker_gets _ _ _ _ Hinv1 Hpop Hinv2) as [Hx Hfin].
    set (sf := set_workChans _ sp) in *.
    exists s1, ch, sf, x.
    split; [done|]. split; [exact E|]. split.
    { eapply step_rendezvous; [exact Ha|exact Hq|reflexivity|exact E]. }
    split; [apply lookup_ge_None_2; unfold ch; simpl; lia|].
    split; [done|]. split; [done|]. split; [done|]. split.
    { unfold sf. simpl. apply list_lookup_insert_eq. by eapply lookup_lt_Some. }
    split; [exact Hx|]. split; [|exact Hfin].
    destruct (popIfNotEmpty_facts _ _ _ Hinv1 Hpop) as (_ & _ & (Hq2 & _) & _).
    unfold sf. simpl. rewrite Hq2. exact Hq.
Qed.

Lemma X16_witness :
  (∃ s1 ch s2,
     WorkOnRequest two_waiters_queued = Some (s1, ch) ∧
     notifyWorker_run case_workerQueue (set_attempts 0 s1) = Some (s2, []) ∧
     workChans s2 !! ch = Some [Some 0%nat]) ∧
  (WorkOnRequest (after_Request never 0 10 7 100 0 (newBlockRetrievalQueue 0 ∅)) = None ∧
   ∃ s1 ch s2,
     WorkOnRequest_direct
       (set_attempts 0 (after_Request never 0 10 7 100 0 (newBlockRetrievalQueue 0 ∅)))
       = (s1, ch) ∧
     notifyWorker_serve ch s1 = Some (s2, []) ∧
     workChans s2 !! ch = Some [Some 0%nat]).
Proof.
  split.
  - destruct (WorkOnRequest two_waiters_queued) as [[s1 ch]|] eqn:Hw;
      [|vm_compute in Hw; discriminate].
    destruct (X16_worker_is_answered two_waiters_queued two_waiters_queued_reachable)
      as (_ & Hbuf & _).
    destruct (Hbuf s1 ch Hw) as (_ & _ & _ & _ & _ & _ & _ & _ & H).
    destruct (H ltac:(reflexivity) 0%nat) as (s2 & x & H1 & H2 & H3 & _).
    { vm_compute in Hw. injection Hw as <- _. reflexivity. }
    exists s1, ch, s2. split; [reflexivity|]. split; [exact H1|].
    rewrite H2, H3. reflexivity.
  - destruct (X16_worker_is_answered
                (after_Request never 0 10 7 100 0 (newBlockRetrievalQueue 0 ∅))
                ltac:(apply reachable_after_Request, reachable_new))
      as (Hfull & _ & Hdir).
    split; [apply Hfull; vm_compute; lia|].
    destruct (Hdir 0%nat ltac:(vm_compute; reflexivity) ltac:(vm_compute; reflexivity))
      as (s1 & ch & s2 & x & H1 & H2 & _ & _ & _ & _ & _ & H3 & H4 & _).
    exists s1, ch, s2. split; [exact H1|]. split; [exact H2|].
    rewrite H3, H4. vm_compute. reflexivity.
Defined.

(** * The quota-usage cache: what getAndCache and Get guarantee *)

Module QuotaUsageSpec.
Import QuotaUsage.

(** C10. When GetUserQuotaInfo fails, getAndCache returns the error and
    leaves the cache (and the rest of the object) as it was, and a Get
    that blocks, the cached data being older than the tolerance, returns
    -1, -1 and the error, the cache again unchanged.  When it succeeds,
    getAndCache overwrites the cache with the limit and the write usage
    of the reply (0 when the reply has no total) and the current time,
    and the blocking Get returns that usage and limit without error. *)
Theorem C10_getAndCache_atomic (UsageWrite : nat) q now tolerance now' :
  time_Sub now (timestamp (cached q)) > tolerance →
  (∀ err,
     getAndCache UsageWrite (inr err) now' q = (q, (mkCached 0 0 0, Some err)) ∧
     Get UsageWrite now tolerance (inr err) now' q = (q, (-1, -1, Some err), false)) ∧
  (∀ info,
     let usage :=
       mkCached now'
         (match Total info with
          | Some total => default 0 (Bytes total !! UsageWrite)
          | None => 0
          end)
         (Limit info) in
     getAndCache UsageWrite (inl info) now' q
       = (mkECQU (backgroundInProcess q) usage, (usage, None)) ∧
     cached (getAndCache UsageWrite (inl info) now' q).1 = usage ∧
     Get UsageWrite now tolerance (inl info) now' q
       = (mkECQU (backgroundInProcess q) usage,
          (usageBytes usage, limitBytes usage, None), false)).
Proof.
  intros Hpast. apply Z.gtb_gt in Hpast. split.
  - intros err. split; [reflexivity|]. unfold Get. by rewrite Hpast.
  - intros info usage. split; [reflexivity|]. split; [reflexivity|].
    unfold Get. by rewrite Hpast.
Qed.
Lemma C10_witness :
  Get 0 1000 10 (inr 13%nat) 1 (mkECQU 0 (mkCached 0 5 9))
    = (mkECQU 0 (mkCached 0 5 9), (-1, -1, Some 13%nat), false) ∧
  Get 0 1000 10 (inl (mkQuotaInfo (Some (mkUsageStat {[0%nat := 77]})) 500)) 1001
      (mkECQU 0 (mkCached 0 5 9))
    = (mkECQU 0 (mkCached 1001 77 500), (77, 500, None), false).
Proof.
  destruct (C10_getAndCache_atomic 0%nat (mkECQU 0 (mkCached 0 5 9)) 1000 10 1001
              ltac:(vm_compute; reflexivity)) as [He Hs].
  split.
  - destruct (C10_getAndCache_atomic 0%nat (mkECQU 0 (mkCached 0 5 9)) 1000 10 1
                ltac:(vm_compute; reflexivity)) as [He' _].
    exact (proj2 (He' 13%nat)).
  - exact (proj2 (proj2 (Hs (mkQuotaInfo (Some (mkUsageStat {[0%nat := 77]})) 500)))).
Defined.

End QuotaUsageSpec.

(** * The quota-usage cache: tolerance bands, refreshes and runs *)

Module QuotaUsageProps.
Import QuotaUsage QuotaUsageRuns.

Lemma time_Sub_range t u : minDuration ≤ time_Sub t u ≤ maxDuration.
Proof.
  unfold time_Sub, maxDuration, minDuration.
  destruct (Z.gtb_spec (t - u) (2 ^ 63 - 1)); [lia|].
  destruct (Z.ltb_spec (t - u) (- 2 ^ 63)); lia.
Qed.



(** Go's [tolerance/2] truncates towards zero. *)
Lemma half_nonneg past tolerance :
  0 ≤ tolerance → (past >? Z.quot tolerance 2) = (2 * past >? tolerance).
Proof.
  intros H. rewrite Z.quot_div_nonneg by lia.
  pose proof (Z.div_mod tolerance 2 ltac:(lia)).
  pose proof (Z.mod_pos_bound tolerance 2 ltac:(lia)).
  destruct (Z.gtb_spec past (tolerance / 2)), (Z.gtb_spec (2 * past) tolerance); lia.
Qed.

Lemma half_nonpos tolerance : tolerance ≤ 0 → tolerance ≤ Z.quot tolerance 2.
Proof.
  intros H. pose proof (Z.quot_rem tolerance 2 ltac:(lia)).
  pose proof (Z.rem_nonpos tolerance 2 ltac:(lia) H).
  pose proof (Z.rem_bound_neg_pos tolerance 2) as B. lia.
Qed.

(** The data in the cache are returned as they are, nothing else happens. *)
Lemma Get_cached (UsageWrite : nat) q now tolerance reply now' :
  age now q ≤ tolerance → age now q ≤ Z.quot tolerance 2 →
  Get UsageWrite now tolerance reply now' q
    = (q, (usageBytes (cached q), limitBytes (cached q), None), false).
Proof.
  unfold age, Get. intros H1 H2.
  destruct (Z.gtb_spec (time_Sub now (timestamp (cached q))) tolerance); [lia|].
  destruct (Z.gtb_spec (time_Sub now (timestamp (cached q))) (Z.quot tolerance 2)); [lia|].
  done.
Qed.

Lemma Get_blocking (UsageWrite : nat) q now tolerance info now' :
  tolerance < age now q →
  Get UsageWrite now tolerance (inl info) now' q
    = (mkECQU (backgroundInProcess q) (mkCached now' (write_usage UsageWrite info) (Limit info)),
       (write_usage UsageWrite info, Limit info, None), false).
Proof.
  unfold age, Get. intros H.
  destruct (Z.gtb_spec (time_Sub now (timestamp (cached q))) tolerance); [|lia].
  reflexivity.
Qed.

Lemma Get_stale (UsageWrite : nat) q now tolerance reply now' :
  0 ≤ tolerance → tolerance < 2 * age now q → age now q ≤ tolerance →
  Get UsageWrite now tolerance reply now' q
    = (if backgroundInProcess q =? 0 then mkECQU 1 (cached q) else q,
       (usageBytes (cached q), limitBytes (cached q), None),
       backgroundInProcess q =? 0).
Proof.
  unfold age, Get. intros H0 H1 H2.
  destruct (Z.gtb_spec (time_Sub now (timestamp (cached q))) tolerance); [lia|].
  rewrite half_nonneg by done.
  destruct (Z.gtb_spec (2 * time_Sub now (timestamp (cached q))) tolerance); [|lia].
  by destruct (backgroundInProcess q =? 0).
Qed.

(** X9. For a tolerance that is not negative, the three cases of Get are
    delimited by the age of the cached data as follows.  An age of at
    most half the tolerance (exactly half included, the halving of an odd
    tolerance rounding down): the cached usage and limit are returned,
    the object is left as it is, no goroutine is started and the server
    is not asked, whatever it would reply.  An age of more than half and
    at most the whole tolerance: the cached data are returned as well
    and, when the flag is 0, the flag is set to 1 and a background
    refresh is started; when the flag is not 0 nothing is started and
    the object is left as it is. *)
Theorem X9_Get_tolerance_bands (UsageWrite : nat) q now tolerance reply now' :
  0 ≤ tolerance →
  (2 * age now q ≤ tolerance →
     Get UsageWrite now tolerance reply now' q
       = (q, (usageBytes (cached q), limitBytes (cached q), None), false)) ∧
  (tolerance < 2 * age now q → age now q ≤ tolerance →
     (backgroundInProcess q = 0 →
        Get UsageWrite now tolerance reply now' q
          = (mkECQU 1 (cached q),
             (usageBytes (cached q), limitBytes (cached q), None), true)) ∧
     (backgroundInProcess q ≠ 0 →
        Get UsageWrite now tolerance reply now' q
          = (q, (usageBytes (cached q), limitBytes (cached q), None), false))).
Proof.
  intros H0. split.
  - intros H. apply Get_cached; [lia|].
    pose proof (half_nonneg (age now q) tolerance H0) as E.
    destruct (Z.gtb_spec (age now q) (Z.quot tolerance 2)),
      (Z.gtb_spec (2 * age now q) tolerance); (done || lia).
  - intros H1 H2. rewrite Get_stale by done. split.
    + intros ->. reflexivity.
    + intros Hne. by rewrite (proj2 (Z.eqb_neq _ _) Hne).
Qed.

Lemma X9_witness :
  Get 0 10 7 (inr 1%nat) 0 (mkECQU 0 (mkCached 7 5 9))
    = (mkECQU 0 (mkCached 7 5 9), (5, 9, None), false) ∧
  Get 0 11 7 (inr 1%nat) 0 (mkECQU 0 (mkCached 7 5 9))
    = (mkECQU 1 (mkCached 7 5 9), (5, 9, None), true).
Proof.
  destruct (X9_Get_tolerance_bands 0 (mkECQU 0 (mkCached 7 5 9)) 10 7 (inr 1%nat) 0
              ltac:(lia)) as [H1 _].
  destruct (X9_Get_tolerance_bands 0 (mkECQU 0 (mkCached 7 5 9)) 11 7 (inr 1%nat) 0
              ltac:(lia)) as [_ H2].
  split.
  - apply H1. vm_compute. discriminate.
  - apply H2; [reflexivity|vm_compute; discriminate|reflexivity].
Defined.

(** X10. With a tolerance that is zero or negative Get never starts a
    background refresh, and it asks the server exactly when the age of
    the cached data is greater than the tolerance: when the age is at
    most the tolerance (with tolerance 0, data stamped with the present
    clock reading or a later one) the cached data are returned and the
    server is not asked. *)
Theorem X10_Get_nonpositive_tolerance (UsageWrite : nat) q now tolerance :
  tolerance ≤ 0 →
  (∀ reply now', (Get UsageWrite now tolerance reply now' q).2 = false) ∧
  (age now q ≤ tolerance →
     ∀ reply now',
       Get UsageWrite now tolerance reply now' q
         = (q, (usageBytes (cached q), limitBytes (cached q), None), false)) ∧
  (tolerance < age now q →
     ∀ info now',
       Get UsageWrite now tolerance (inl info) now' q
         = (mkECQU (backgroundInProcess q)
              (mkCached now' (write_usage UsageWrite info) (Limit info)),
            (write_usage UsageWrite info, Limit info, None), false)).
Proof.
  intros H0. pose proof (half_nonpos tolerance H0) as Hh. split; [|split].
  - intros reply now'. unfold Get.
    destruct (Z.gtb_spec (time_Sub now (timestamp (cached q))) tolerance).
    + destruct (getAndCache UsageWrite reply now' q) as [q' [c' [err|]]]; reflexivity.
    + destruct (Z.gtb_spec (time_Sub now (timestamp (cached q))) (Z.quot tolerance 2));
        [lia|reflexivity].
  - intros H reply now'. apply Get_cached; [done|lia].
  - intros H info now'. by apply Get_blocking.
Qed.

Lemma X10_witness :
  Get 0 7 0 (inr 1%nat) 8 (mkECQU 0 (mkCached 7 5 9))
    = (mkECQU 0 (mkCached 7 5 9), (5, 9, None), false).
Proof.
  destruct (X10_Get_nonpositive_tolerance 0 (mkECQU 0 (mkCached 7 5 9)) 7 0 ltac:(lia))
    as (_ & H & _).
  apply H. vm_compute. discriminate.
Defined.









Lemma Get_flag (UsageWrite : nat) q now tolerance reply now' q' res started :
  Get UsageWrite now tolerance reply now' q = (q', res, started) →
  (started = true → backgroundInProcess q = 0 ∧ backgroundInProcess q' = 1) ∧
  (started = false → backgroundInProcess q' = backgroundInProcess q).
Proof.
  unfold Get.
  destruct (time_Sub now (timestamp (cached q)) >? tolerance).
  - unfold getAndCache. destruct reply as [info|err]; intros [= <- <- <-]; done.
  - destruct (time_Sub now (timestamp (cached q)) >? Z.quot tolerance 2).
    + destruct (Z.eqb_spec (backgroundInProcess q) 0); intros [= <- <- <-]; done.
    + intros [= <- <- <-]. done.
Qed.

Lemma qstep_flag (UsageWrite : nat) w w' :
  qstep UsageWrite w w' →
  backgroundInProcess w.1 = Z.of_nat (length w.2) → (length w.2 ≤ 1)%nat →
  backgroundInProcess w'.1 = Z.of_nat (length w'.2) ∧ (length w'.2 ≤ 1)%nat.
Proof.
  intros Hstep. destruct Hstep as
    [now tolerance reply now' q gs q' res started HG|reply now q gs1 gs2|q gs1 gs2];
    simpl; intros Hf Hl.
  - destruct (Get_flag _ _ _ _ _ _ _ _ _ HG) as [Ht Hn]. destruct started.
    + destruct (Ht eq_refl) as [E0 E1]. rewrite E0 in Hf.
      destruct gs; [|simpl in Hf; lia]. simpl. by rewrite E1.
    + by rewrite (Hn eq_refl).
  - rewrite length_app in *. simpl in *.
    split; [|done]. rewrite <- Hf. unfold getAndCache. by destruct reply.
  - rewrite length_app in *. simpl in *.
    destruct gs1, gs2; simpl in *; (done || lia).
Qed.

(** X14. At most one refresh runs in the background.  In every run of a
    new object, whatever the calls of Get, their tolerances and clock
    readings, the replies of the server and the progress of the
    background goroutines, at most one background goroutine is alive, the
    flag is 1 when one is alive and 0 when none is, and a Get starts one
    only when none is alive. *)
Theorem X14_one_background_refresh (UsageWrite : nat) q gs :
  qsteps UsageWrite (NewEventuallyConsistentQuotaUsage, []) (q, gs) →
  (length gs ≤ 1)%nat ∧
  backgroundInProcess q = Z.of_nat (length gs) ∧
  (∀ now tolerance reply now',
     (Get UsageWrite now tolerance reply now' q).2 = true → gs = []).
Proof.
  intros Hrun.
  assert (backgroundInProcess q = Z.of_nat (length gs) ∧ (length gs ≤ 1)%nat) as [Hf Hl].
  { remember (NewEventuallyConsistentQuotaUsage, @nil bg_phase) as w0 eqn:E0.
    remember (q, gs) as w eqn:E. revert q gs E.
    induction Hrun as [w|w w1 w2 H1 IH H2]; intros q gs E.
    - subst w. injection E as <- <-. simpl. split; [done|lia].
    - subst w2. destruct w1 as [q1 gs1].
      destruct (IH E0 q1 gs1 eq_refl) as [Hf1 Hl1].
      exact (qstep_flag UsageWrite (q1, gs1) (q, gs) H2 Hf1 Hl1). }
  split; [done|]. split; [done|].
  intros now tolerance reply now' Hs.
  destruct (Get UsageWrite now tolerance reply now' q) as [[q' res] started] eqn:HG.
  simpl in Hs. subst started.
  destruct (Get_flag _ _ _ _ _ _ _ _ _ HG) as [Ht _].
  destruct (Ht eq_refl) as [E0 _]. rewrite E0 in Hf. by destruct gs.
Qed.

Lemma X14_witness :
  (length [bg_fetched] ≤ 1)%nat ∧
  backgroundInProcess (mkECQU 1 (mkCached 20 0 500)) = Z.of_nat (length [bg_fetched]).
Proof.
  destruct (X14_one_background_refresh 0 (mkECQU 1 (mkCached 20 0 500)) [bg_fetched])
    as (H1 & H2 & _).
  - eapply qsteps_snoc; [eapply qsteps_snoc; [apply qsteps_refl|]|].
    + exact (qstep_Get 0 3 4 (inr 1%nat) 0 NewEventuallyConsistentQuotaUsage []
               (mkECQU 1 (mkCached 0 0 0)) (0, 0, None) true eq_refl).
    + exact (qstep_fetch 0 (inl (mkQuotaInfo None 500)) 20 (mkECQU 1 (mkCached 0 0 0))
               [] []).
  - split; [exact H1|exact H2].
Defined.

(** X15. The first Get on a new object.  The cache of a new object holds
    usage 0 and limit 0 stamped with the zero time.  A Get whose
    tolerance is less than the time elapsed since the zero time, and
    less than the largest Duration, asks the server: it returns the
    reply's data and caches them, or returns -1, -1 and the error and
    leaves the object new.  A Get whose tolerance is at least the
    (saturated) age of the zero time, as the largest Duration always is,
    does not ask: it returns usage 0 and limit 0 without error, the
    cached data staying as they are. *)
Theorem X15_Get_on_new_object (UsageWrite : nat) now tolerance now' :
  (0 ≤ now → tolerance < now → tolerance < maxDuration →
     (∀ info,
        Get UsageWrite now tolerance (inl info) now' NewEventuallyConsistentQuotaUsage
          = (mkECQU 0 (mkCached now' (write_usage UsageWrite info) (Limit info)),
             (write_usage UsageWrite info, Limit info, None), false)) ∧
     (∀ err,
        Get UsageWrite now tolerance (inr err) now' NewEventuallyConsistentQuotaUsage
          = (NewEventuallyConsistentQuotaUsage, (-1, -1, Some err), false))) ∧
  (age now NewEventuallyConsistentQuotaUsage ≤ tolerance →
     ∀ reply,
       (Get UsageWrite now tolerance reply now' NewEventuallyConsistentQuotaUsage).1.2
         = (0, 0, None) ∧
       cached (Get UsageWrite now tolerance reply now' NewEventuallyConsistentQuotaUsage).1.1
         = mkCached 0 0 0) ∧
  (∀ reply,
     (Get UsageWrite now maxDuration reply now' NewEventuallyConsistentQuotaUsage).1.2
       = (0, 0, None)).
Proof.
  assert (∀ tol reply, age now NewEventuallyConsistentQuotaUsage ≤ tol →
            (Get UsageWrite now tol reply now' NewEventuallyConsistentQuotaUsage).1.2
              = (0, 0, None) ∧
            cached (Get UsageWrite now tol reply now' NewEventuallyConsistentQuotaUsage).1.1
              = mkCached 0 0 0) as Hold.
  { intros tol reply H. unfold age in H. unfold Get.
    destruct (Z.gtb_spec (time_Sub now
                (timestamp (cached NewEventuallyConsistentQuotaUsage))) tol); [lia|].
    destruct (_ >? Z.quot tol 2); [|done].
    destruct (_ =? 0); done. }
  split; [|split].
  - intros H0 H1 H2.
    assert (tolerance < age now NewEventuallyConsistentQuotaUsage) as Hage.
    { unfold age. simpl. unfold time_Sub. rewrite Z.sub_0_r.
      destruct (Z.gtb_spec now maxDuration); [done|].
      destruct (Z.ltb_spec now minDuration); [|done].
      assert (minDuration = - 2 ^ 63) as En by reflexivity. lia. }
    split.
    + intros info. by rewrite Get_blocking.
    + intros err. unfold age in Hage. unfold Get.
      destruct (Z.gtb_spec (time_Sub now
                  (timestamp (cached NewEventuallyConsistentQuotaUsage))) tolerance);
        [done|lia].
  - intros H reply. by apply Hold.
  - intros reply. apply Hold. apply time_Sub_range.
Qed.

Lemma X15_witness :
  Get 0 (2 ^ 64) 1000 (inr 13%nat) 0 NewEventuallyConsistentQuotaUsage
    = (NewEventuallyConsistentQuotaUsage, (-1, -1, Some 13%nat), false) ∧
  (Get 0 5 7 (inr 13%nat) 0 NewEventuallyConsistentQuotaUsage).1.2 = (0, 0, None).
Proof.
  destruct (X15_Get_on_new_object 0 (2 ^ 64) 1000 0) as (H1 & _ & _).
  destruct (X15_Get_on_new_object 0 5 7 0) as (_ & H2 & _).
  split.
  - apply H1; [lia|lia|vm_compute; reflexivity].
  - apply H2. vm_compute. discriminate.
Defined.

End QuotaUsageProps.
